(** * Blob tracker: the feature engine ([cvEngine.ts]) and the trajectory
    tracker ([blobTracker.ts]) as Rocq functions, and their properties.

    Numbers.  Every coordinate, velocity, score and identifier the engine
    computes with is an integer: features are created on the integer
    detection grid and moved by integer offsets, and the gray levels are the
    entries of a [Uint8ClampedArray].  They are [Z] and [nat] here.  The
    places where the engine is not integer arithmetic are written out:
    - the luma projection of [toGrayscale] is IEEE binary64 arithmetic stored
      into a clamped byte array; it is modelled with primitive floats;
    - a read outside a typed array gives [undefined], arithmetic on it gives
      [NaN], and the best match starts at [Infinity]: type [num];
    - [Math.sqrt(n) < b] for an integer [n] and the constants 60 and 2 is
      [0 < b] and [n < b * b]: [sqrt_lt].
    The tracker is given its coordinates, timestamps and parameters by the
    caller: they are doubles, and the tracker computes on them in binary64
    arithmetic.  They are primitive floats here, and the distance and the
    comparisons of [update] are the operations on doubles. *)

From Stdlib Require Import ZArith Lia Sorted.
From Stdlib.Strings Require Import Byte.
From Stdlib Require Import PrimFloat Uint63 SpecFloat FloatOps FloatAxioms.
From stdpp Require Import prelude gmap strings.

Set Warnings "-inexact-float,-clear-no-such-hyp".
#[local] Open Scope Z_scope.

(** ** JavaScript numbers as far as the two classes need them *)

Inductive num : Type :=
| Fin (z : Z)      (* an integer value *)
| Inf              (* [Infinity] *)
| NaN.             (* the result of arithmetic on [undefined] *)

(** [a + b] *)
Definition num_add (a b : num) : num :=
match a, b with
| NaN, _ | _, NaN => NaN
| Inf, _ | _, Inf => Inf
| Fin x, Fin y => Fin (x + y)
end.

(** [a < b]; every comparison with [NaN] is false. *)
Definition num_lt (a b : num) : bool :=
match a, b with
| NaN, _ | _, NaN => false
| Inf, _ => false
| Fin _, Inf => true
| Fin x, Fin y => bool_decide (x < y)
end.

(** [a[i]] on a typed array: [undefined] outside [0 .. length-1]. *)
Definition aget {A} (a : list A) (i : Z) : option A :=
if bool_decide (i < 0) then None else a !! Z.to_nat i.

(** [Math.abs(p - c)] for two array reads. *)
Definition abs_diff (p c : option Z) : num :=
match p, c with
| Some p, Some c => Fin (Z.abs (p - c))
| _, _ => NaN
end.

(** [Math.sqrt(n) < b] for integers [n >= 0] and [b]. *)
Definition sqrt_lt (n b : Z) : bool :=
bool_decide (0 < b) && bool_decide (n < b * b).

(** [lo, lo+1, ..., hi], the values of [for (v = lo; v <= hi; v++)]. *)
Definition zrange (lo hi : Z) : list Z :=
(λ k : nat, lo + Z.of_nat k) <$> seq 0 (Z.to_nat (hi - lo + 1)).

(** A loop body either goes on to the next iteration ([continue], or the end
  of the body) or leaves the enclosing function ([return]). *)
Inductive flow (S : Type) : Type :=
| Next (s : S)
| Return (s : S).
Arguments Next {S} s.
Arguments Return {S} s.

Definition flow_state {S} (r : flow S) : S :=
match r with Next s | Return s => s end.

Fixpoint for_each {A S} (body : A → S → flow S) (l : list A) (s : S) : flow S :=
match l with
| [] => Next s
| a :: l' =>
    match body a s with
    | Next s' => for_each body l' s'
    | Return s' => Return s'
    end
end.

(** ** cvEngine.ts *)

Module FeaturePoint.
Record t : Type := mk {
  x : Z; y : Z; vx : Z; vy : Z; score : Z; id : nat; age : nat
}.
End FeaturePoint.

Module RawBlob.
Record t : Type := mk {
  x : Z; y : Z; w : Z; h : Z; area : Z; pointCount : nat
}.
End RawBlob.

Module CVEngine.

Record t : Type := mk {
  width : nat;
  height : nat;
  prevGray : option (list Z);
  activeFeatures : list FeaturePoint.t;
  nextFeatureId : nat
}.

Record output : Type := mkOutput {
  blobs : list RawBlob.t;
  features : list FeaturePoint.t
}.

Definition patchSize : Z := 7.
Definition searchWindow : Z := 15.

(** [new CVEngine(width, height)] *)
Definition new (w h : nat) : t := mk w h None [] 0.

Definition W (e : t) : Z := Z.of_nat (width e).
Definition H (e : t) : Z := Z.of_nat (height e).

Definition set_prevGray (g : option (list Z)) (e : t) : t :=
  mk (width e) (height e) g (activeFeatures e) (nextFeatureId e).
Definition set_activeFeatures (fs : list FeaturePoint.t) (e : t) : t :=
  mk (width e) (height e) (prevGray e) fs (nextFeatureId e).

(** *** toGrayscale *)

(** A byte of the frame as a double; [undefined] becomes [NaN] in the
    multiplication. *)
Definition channel (b : option byte) : float :=
  match b with
  | Some b => PrimFloat.of_uint63 (Uint63.of_Z (Z.of_N (Byte.to_N b)))
  | None => PrimFloat.nan
  end.

Definition weighted (r g b : option byte) : float :=
  (channel r * 0.299 + channel g * 0.587 + channel b * 0.114)%float.

(** The largest [k <= n] with [k <= v], for [0 <= v]. *)
Fixpoint floor_upto (n : nat) (v : float) : Z :=
  match n with
  | O => 0
  | S k =>
      if PrimFloat.leb (PrimFloat.of_uint63 (Uint63.of_Z (Z.of_nat n))) v
      then Z.of_nat n else floor_upto k v
  end.

(** The store into a [Uint8ClampedArray] (ToUint8Clamp): [NaN] is 0, the
    value is clamped to 0..255 and rounded to nearest, ties to even. *)
Definition toUint8Clamp (v : float) : Z :=
  if PrimFloat.is_nan v then 0
  else if PrimFloat.leb v 0%float then 0
  else if PrimFloat.leb 255%float v then 255
  else
    let f := floor_upto 255 v in
    let half := (PrimFloat.of_uint63 (Uint63.of_Z f) + 0.5)%float in
    if PrimFloat.ltb v half then f
    else if PrimFloat.ltb half v then f + 1
    else if Z.even f then f else f + 1.

Definition toGrayscale (e : t) (data : list byte) : list Z :=
  (λ i : nat,
     toUint8Clamp (weighted (data !! (i * 4)%nat)
                            (data !! (i * 4 + 1)%nat)
                            (data !! (i * 4 + 2)%nat)))
  <$> seq 0 (width e * height e).

(** *** detectNewFeatures *)

Definition stride : Z := 15.

(** The values of [for (v = from; v < limit; v += stride)]; [fuel] bounds
    the number of iterations. *)
Fixpoint stride_steps (fuel : nat) (from limit : Z) : list Z :=
  match fuel with
  | O => []
  | S k =>
      if bool_decide (from < limit)
      then from :: stride_steps k (from + stride) limit
      else []
  end.

(** Grid coordinates along an axis of [n] pixels. *)
Definition grid_axis (n : nat) : list Z :=
  stride_steps n stride (Z.of_nat n - stride).

(** [activeFeatures.some(f => |f.x - x| < 10 && |f.y - y| < 10)] *)
Definition tracked_near (fs : list FeaturePoint.t) (x y : Z) : bool :=
  existsb (λ f, bool_decide (Z.abs (FeaturePoint.x f - x) < 10)
                && bool_decide (Z.abs (FeaturePoint.y f - y) < 10)) fs.

Definition corner_score (e : t) (gray : list Z) (x y : Z) : num :=
  let idx := y * W e + x in
  let p := aget gray idx in
  num_add (num_add (num_add (num_add (Fin 0)
    (abs_diff p (aget gray (idx - 1))))
    (abs_diff p (aget gray (idx + 1))))
    (abs_diff p (aget gray (idx - W e))))
    (abs_diff p (aget gray (idx + W e))).

(** The body of the inner loop at grid position [(x, y)]. *)
Definition detect_at (gray : list Z) (threshold : Z) (y x : Z) (e : t) : flow t :=
  if bool_decide (200 ≤ length (activeFeatures e))%nat then Return e
  else if tracked_near (activeFeatures e) x y then Next e
  else
    match corner_score e gray x y with
    | Fin score =>
        if bool_decide (threshold * 2 < score) then
          Next (mk (width e) (height e) (prevGray e)
                   (activeFeatures e ++
                      [FeaturePoint.mk x y 0 0 score (nextFeatureId e) 0])
                   (S (nextFeatureId e)))
        else Next e
    | _ => Next e
    end.

Definition detectNewFeatures (gray : list Z) (threshold : Z) (e : t) : t :=
  flow_state
    (for_each (λ y, for_each (detect_at gray threshold y) (grid_axis (width e)))
              (grid_axis (height e)) e).

(** *** findMatch *)

Definition halfP : Z := patchSize / 2.
Definition halfS : Z := searchWindow / 2.

(** The sum of absolute differences between the patch of [prev] around the
    feature and the patch of [curr] around [(nx, ny)]. *)
Definition sad_at (e : t) (f : FeaturePoint.t) (prev curr : list Z)
    (c : Z * Z) : num :=
  let '(nx, ny) := c in
  foldl (λ sad py,
    foldl (λ sad px,
      let pVal := aget prev ((FeaturePoint.y f + py) * W e + (FeaturePoint.x f + px)) in
      let cVal := aget curr ((ny + py) * W e + (nx + px)) in
      num_add sad (abs_diff pVal cVal))
    sad (zrange (- halfP) halfP))
  (Fin 0) (zrange (- halfP) halfP).

Record best : Type := mkBest { bestSAD : num; bestPos : Z * Z }.

(** The candidate position is skipped when its patch leaves the frame. *)
Definition out_of_frame (e : t) (c : Z * Z) : bool :=
  bool_decide (c.1 < halfP) || bool_decide (W e - halfP ≤ c.1)
  || bool_decide (c.2 < halfP) || bool_decide (H e - halfP ≤ c.2).

(** The body of the search loops at offset [(dx, dy)]. *)
Definition try_offset (e : t) (f : FeaturePoint.t) (prev curr : list Z)
    (dy dx : Z) (b : best) : best :=
  let c := (FeaturePoint.x f + dx, FeaturePoint.y f + dy) in
  if out_of_frame e c then b
  else
    let sad := sad_at e f prev curr c in
    if num_lt sad (bestSAD b) then mkBest sad c else b.

Definition search (e : t) (f : FeaturePoint.t) (prev curr : list Z) : best :=
  foldl (λ b dy,
    foldl (λ b dx, try_offset e f prev curr dy dx b) b (zrange (- halfS) halfS))
  (mkBest Inf (FeaturePoint.x f, FeaturePoint.y f)) (zrange (- halfS) halfS).

Definition findMatch (e : t) (f : FeaturePoint.t) (prev curr : list Z)
    : option (Z * Z) :=
  let b := search e f prev curr in
  if num_lt (bestSAD b) (Fin 5000) then Some (bestPos b) else None.

(** *** clusterFeatures *)

Definition is_moving (f : FeaturePoint.t) : bool :=
  (* |vx| + |vy| > 0.2, scaled by 10 *)
  bool_decide (2 < 10 * (Z.abs (FeaturePoint.vx f) + Z.abs (FeaturePoint.vy f))).

Definition coherent (f other : FeaturePoint.t) : bool :=
  sqrt_lt ((FeaturePoint.x f - FeaturePoint.x other) ^ 2
           + (FeaturePoint.y f - FeaturePoint.y other) ^ 2) 60
  && sqrt_lt ((FeaturePoint.vx f - FeaturePoint.vx other) ^ 2
              + (FeaturePoint.vy f - FeaturePoint.vy other) ^ 2) 2.

Record cluster : Type := mkCluster {
  minX : Z; maxX : Z; minY : Z; maxY : Z;
  group : list FeaturePoint.t;
  visited : gset nat
}.

(** The body of the inner loop: [other] joins the group of seed [f]. *)
Definition join (f other : FeaturePoint.t) (c : cluster) : cluster :=
  if bool_decide (FeaturePoint.id other ∈ visited c) then c
  else if coherent f other then
    mkCluster (Z.min (minX c) (FeaturePoint.x other))
              (Z.max (maxX c) (FeaturePoint.x other))
              (Z.min (minY c) (FeaturePoint.y other))
              (Z.max (maxY c) (FeaturePoint.y other))
              (group c ++ [other])
              (visited c ∪ {[FeaturePoint.id other]})
  else c.

Definition seed_cluster (moving : list FeaturePoint.t) (f : FeaturePoint.t)
    (vis : gset nat) : cluster :=
  foldl (λ c other, join f other c)
    (mkCluster (FeaturePoint.x f) (FeaturePoint.x f)
               (FeaturePoint.y f) (FeaturePoint.y f)
               [f] (vis ∪ {[FeaturePoint.id f]}))
    moving.

Definition blob_of (c : cluster) : RawBlob.t :=
  RawBlob.mk (minX c - 10) (minY c - 10)
             ((maxX c - minX c) + 20) ((maxY c - minY c) + 20)
             ((maxX c - minX c) * (maxY c - minY c))
             (length (group c)).

(** The body of the outer loop for seed [f]. *)
Definition cluster_seed (moving : list FeaturePoint.t)
    (s : list RawBlob.t * gset nat) (f : FeaturePoint.t)
    : list RawBlob.t * gset nat :=
  if bool_decide (FeaturePoint.id f ∈ s.2) then s
  else
    let c := seed_cluster moving f s.2 in
    (if bool_decide (3 ≤ length (group c))%nat then s.1 ++ [blob_of c] else s.1,
     visited c).

Definition cluster_moving (moving : list FeaturePoint.t) : list RawBlob.t :=
  (foldl (cluster_seed moving) ([], ∅) moving).1.

Definition clusterFeatures (e : t) : list RawBlob.t :=
  cluster_moving (List.filter is_moving (activeFeatures e)).

(** *** process *)

(** The feature pushed on [trackedFeatures] for a match at [(nx, ny)]. *)
Definition moved (f : FeaturePoint.t) (c : Z * Z) : FeaturePoint.t :=
  FeaturePoint.mk c.1 c.2
    (c.1 - FeaturePoint.x f) (c.2 - FeaturePoint.y f)
    (FeaturePoint.score f) (FeaturePoint.id f) (S (FeaturePoint.age f)).

Definition track (e : t) (prev gray : list Z) (fs : list FeaturePoint.t)
    : list FeaturePoint.t :=
  foldl (λ tracked f,
    match findMatch e f prev gray with
    | Some c => tracked ++ [moved f c]
    | None => tracked
    end) [] fs.

Definition process (e : t) (frameData : list byte) (threshold : Z) : t * output :=
  let gray := toGrayscale e frameData in
  match prevGray e with
  | None =>
      let e := detectNewFeatures gray threshold (set_prevGray (Some gray) e) in
      (e, mkOutput [] (activeFeatures e))
  | Some prev =>
      let trackedFeatures := track e prev gray (activeFeatures e) in
      let e := set_activeFeatures trackedFeatures e in
      let e :=
        if bool_decide (length (activeFeatures e) < 50)%nat
        then detectNewFeatures gray threshold e else e in
      let blobs := clusterFeatures e in
      let e := set_prevGray (Some gray) e in
      (e, mkOutput blobs (activeFeatures e))
  end.

Definition reset (e : t) : t := mk (width e) (height e) None [] 0.

(** The states an engine goes through. *)
Inductive reachable : t → Prop :=
  | reach_new w h : reachable (new w h)
  | reach_process e frameData threshold :
      reachable e → reachable (process e frameData threshold).1
  | reach_reset e : reachable e → reachable (reset e).

End CVEngine.

(** ** blobTracker.ts *)

(** A call either returns or throws: reading [.x] of the last point of an
  empty history is a [TypeError]. *)
Inductive result (A : Type) : Type :=
| Ok (a : A)
| TypeError.
Arguments Ok {A} a.
Arguments TypeError {A}.

#[global] Instance result_ret : MRet result := λ A a, Ok a.
#[global] Instance result_bind : MBind result := λ A B f m,
match m with
| Ok a => f a
| TypeError => TypeError
end.

Module Point.
Record t : Type := mk { x : float; y : float; timestamp : float }.
End Point.

Module Trajectory.
Record t : Type := mk {
  id : nat;
  points : list Point.t;
  active : bool;
  color : string
}.
End Trajectory.

(** The fields of a blob that [update] reads. *)
Module BlobPoint.
Record t : Type := mk { x : float; y : float }.
End BlobPoint.

Module TrackingParams.
Record t : Type := mk {
  threshold : float;
  minArea : float;
  maxArea : float;
  persistence : float;
  blur : float;
  showBoxes : bool;
  showCentroids : bool;
  showTrajectories : bool
}.
End TrackingParams.

Module BlobTracker.

(** [trajectories] is the [Map] in insertion order, as [forEach] visits it. *)
Record t : Type := mk {
  trajectories : list (nat * Trajectory.t);
  nextId : nat
}.

Definition colors : list string :=
  ["#3b82f6"; "#ef4444"; "#10b981"; "#f59e0b"; "#8b5cf6";
   "#ec4899"; "#06b6d4"; "#f97316"; "#a855f7"; "#14b8a6"]%string.

(** [new BlobTracker()] *)
Definition new : t := mk [] 0.

(** [Map.prototype.set]: an existing key keeps its place. *)
Fixpoint map_set (k : nat) (v : Trajectory.t) (m : list (nat * Trajectory.t))
    : list (nat * Trajectory.t) :=
  match m with
  | [] => [(k, v)]
  | (k', v') :: m' =>
      if bool_decide (k' = k) then (k, v) :: m' else (k', v') :: map_set k v m'
  end.

(** [Math.pow(v, 2)] on a double: the double nearest to the square. *)
Definition pow2 (v : float) : float := (v * v)%float.

(** [Math.sqrt(Math.pow(blob.x - lastPoint.x, 2)
              + Math.pow(blob.y - lastPoint.y, 2))] *)
Definition dist (blob : BlobPoint.t) (lastPoint : Point.t) : float :=
  PrimFloat.sqrt (pow2 (BlobPoint.x blob - Point.x lastPoint)
                  + pow2 (BlobPoint.y blob - Point.y lastPoint))%float.

(** [bestMatch] is the trajectory object found so far, with its place in
    the map. *)
Record candidate : Type := mkCandidate {
  bestMatch : option (nat * (nat * Trajectory.t));
  minDistance : float
}.

(** The body of the inner [forEach], at the [i]-th entry of the map. *)
Definition consider (blob : BlobPoint.t) (params : TrackingParams.t)
    (matchedIds : gset nat) (i : nat) (entry : nat * Trajectory.t)
    (c : candidate) : result candidate :=
  let traj := entry.2 in
  if Trajectory.active traj && negb (bool_decide (Trajectory.id traj ∈ matchedIds))
  then
    match last (Trajectory.points traj) with
    | None => TypeError
    | Some lastPoint =>
        let d := dist blob lastPoint in
        if PrimFloat.ltb d (TrackingParams.persistence params * 50)%float
           && PrimFloat.ltb d (minDistance c)
        then Ok (mkCandidate (Some (i, entry)) d)
        else Ok c
    end
  else Ok c.

Fixpoint nearest (blob : BlobPoint.t) (params : TrackingParams.t)
    (matchedIds : gset nat) (i : nat) (m : list (nat * Trajectory.t))
    (c : candidate) : result candidate :=
  match m with
  | [] => Ok c
  | entry :: m' =>
      c' ← consider blob params matchedIds i entry c;
      nearest blob params matchedIds (S i) m' c'
  end.

(** [points.push(p); if (points.length > 50) points.shift()] *)
Definition push_point (pts : list Point.t) (p : Point.t) : list Point.t :=
  let pts := pts ++ [p] in
  if bool_decide (50 < length pts)%nat then tail pts else pts.

Definition extend (traj : Trajectory.t) (p : Point.t) : Trajectory.t :=
  Trajectory.mk (Trajectory.id traj) (push_point (Trajectory.points traj) p)
                (Trajectory.active traj) (Trajectory.color traj).

Definition spawn (id : nat) (p : Point.t) : Trajectory.t :=
  Trajectory.mk id [p] true (default ""%string (colors !! (id mod length colors)%nat)).

(** The body of [currentBlobs.forEach]. *)
Definition match_blob (timestamp : float) (params : TrackingParams.t)
    (s : t * gset nat) (blob : BlobPoint.t) : result (t * gset nat) :=
  let '(tr, matchedIds) := s in
  let p := Point.mk (BlobPoint.x blob) (BlobPoint.y blob) timestamp in
  c ← nearest blob params matchedIds 0 (trajectories tr) (mkCandidate None infinity);
  match bestMatch c with
  | Some (i, (k, traj)) =>
      Ok (mk (<[i := (k, extend traj p)]> (trajectories tr)) (nextId tr),
          matchedIds ∪ {[Trajectory.id traj]})
  | None =>
      let id := nextId tr in
      Ok (mk (map_set id (spawn id p) (trajectories tr)) (S id),
          matchedIds ∪ {[id]})
  end.

Fixpoint match_blobs (timestamp : float) (params : TrackingParams.t)
    (s : t * gset nat) (currentBlobs : list BlobPoint.t) : result (t * gset nat) :=
  match currentBlobs with
  | [] => Ok s
  | blob :: rest =>
      s' ← match_blob timestamp params s blob;
      match_blobs timestamp params s' rest
  end.

Definition deactivate (matchedIds : gset nat) (entry : nat * Trajectory.t)
    : nat * Trajectory.t :=
  let traj := entry.2 in
  if bool_decide (Trajectory.id traj ∈ matchedIds) then entry
  else (entry.1, Trajectory.mk (Trajectory.id traj) (Trajectory.points traj)
                               false (Trajectory.color traj)).

Definition update (tr : t) (currentBlobs : list BlobPoint.t) (timestamp : float)
    (params : TrackingParams.t) : result (t * list Trajectory.t) :=
  s ← match_blobs timestamp params (tr, ∅) currentBlobs;
  let tr := mk (deactivate s.2 <$> trajectories s.1) (nextId s.1) in
  Ok (tr, (snd <$> trajectories tr)).

Definition reset (tr : t) : t := mk [] 0.

(** The states a tracker goes through. *)
Inductive reachable : t → Prop :=
  | reach_new : reachable new
  | reach_update tr currentBlobs timestamp params tr' out :
      reachable tr →
      update tr currentBlobs timestamp params = Ok (tr', out) →
      reachable tr'
  | reach_reset tr : reachable tr → reachable (reset tr).

End BlobTracker.

(** ** Notions the properties are stated with *)

Module Matcher.
Import CVEngine.

(** The offsets [(dy, dx)] of the search window in the order the two loops
    of [findMatch] visit them: rows top to bottom, each left to right. *)
Definition raster : list (Z * Z) :=
  dy ← zrange (- halfS) halfS; dx ← zrange (- halfS) halfS; [(dy, dx)].

(** A position whose 7x7 patch lies inside the frame. *)
Definition in_frame (e : t) (c : Z * Z) : Prop :=
  (halfP ≤ c.1 < W e - halfP) ∧ (halfP ≤ c.2 < H e - halfP).

#[global] Instance in_frame_dec e c : Decision (in_frame e c) :=
  and_dec _ _.

(** The candidate positions of a feature, in raster order, without those
    whose patch would leave the frame. *)
Definition candidates (e : t) (f : FeaturePoint.t) : list (Z * Z) :=
  filter (in_frame e)
    ((λ d : Z * Z, (FeaturePoint.x f + d.2, FeaturePoint.y f + d.1)) <$> raster).

(** The offsets [(py, px)] of the 7x7 patch. *)
Definition patch : list (Z * Z) :=
  py ← [-3; -2; -1; 0; 1; 2; 3]; px ← [-3; -2; -1; 0; 1; 2; 3]; [(py, px)].

(** The gray level at column [x] of row [y] of a frame. *)
Definition level (e : t) (g : list Z) (x y : Z) : Z :=
  default 0 (aget g (y * W e + x)).

(** Section 4.3: the sum, over the patch, of the absolute differences
    between the previous frame around [p] and the current frame around
    [c]. *)
Definition patch_sad (e : t) (prev curr : list Z) (p c : Z * Z) : Z :=
  foldr Z.add 0
    ((λ d : Z * Z,
        Z.abs (level e prev (p.1 + d.2) (p.2 + d.1)
               - level e curr (c.1 + d.2) (c.2 + d.1))) <$> patch).

(** Candidate number [i] has sum of absolute differences [s], no candidate
    has a smaller one, and every earlier candidate has a larger one. *)
Definition first_minimum (val : Z * Z → num) (l : list (Z * Z))
    (i : nat) (c : Z * Z) (s : Z) : Prop :=
  l !! i = Some c ∧ val c = Fin s ∧
  ∀ (j : nat) (c' : Z * Z) (s' : Z),
    l !! j = Some c' → val c' = Fin s' → s ≤ s' ∧ ((j < i)%nat → s < s').

(** What every engine state satisfies: the previous frame has the size of
    the engine and the patch of every feature lies inside the frame. *)
Definition well_formed (e : t) : Prop :=
  (∀ g, prevGray e = Some g → length g = (width e * height e)%nat) ∧
  Forall (λ f, in_frame e (FeaturePoint.x f, FeaturePoint.y f)) (activeFeatures e) ∧
  (length (activeFeatures e) ≤ 200)%nat.

(** What [detectNewFeatures] may do to an engine: append features on the
    detection grid, at rest and of age 0, up to 200 in all. *)
Definition fresh_feature (e : t) (f : FeaturePoint.t) : Prop :=
  (stride ≤ FeaturePoint.x f < W e - stride) ∧
  (stride ≤ FeaturePoint.y f < H e - stride) ∧
  FeaturePoint.vx f = 0 ∧ FeaturePoint.vy f = 0 ∧ FeaturePoint.age f = 0%nat.

Definition replenished (e e' : t) : Prop :=
  width e' = width e ∧ height e' = height e ∧ prevGray e' = prevGray e ∧
  (length (activeFeatures e') ≤ Nat.max 200 (length (activeFeatures e)))%nat ∧
  ∃ fresh, activeFeatures e' = activeFeatures e ++ fresh ∧
           Forall (fresh_feature e) fresh.

(** Section 4.2: the corner response [s] of a gray frame at [(x, y)], the
    sum of the absolute differences between the pixel and its left, right,
    upper and lower neighbours, all five inside the frame. *)
Definition corner_response (e : t) (gray : list Z) (x y s : Z) : Prop :=
  ∃ p left right up down,
    aget gray (y * W e + x) = Some p ∧
    aget gray (y * W e + (x - 1)) = Some left ∧
    aget gray (y * W e + (x + 1)) = Some right ∧
    aget gray ((y - 1) * W e + x) = Some up ∧
    aget gray ((y + 1) * W e + x) = Some down ∧
    s = Z.abs (p - left) + Z.abs (p - right)
        + Z.abs (p - up) + Z.abs (p - down).

(** A feature made by [detectNewFeatures] when the active features were
    [before]: it lies on the detection grid, away from the features before
    it, fewer than 200 of them, and its score, the corner response of the
    gray frame there, exceeds twice the threshold. *)
Definition detected_at (gray : list Z) (threshold : Z) (e : t)
    (before : list FeaturePoint.t) (f : FeaturePoint.t) : Prop :=
  FeaturePoint.x f ∈ grid_axis (width e) ∧
  FeaturePoint.y f ∈ grid_axis (height e) ∧
  corner_response e gray (FeaturePoint.x f) (FeaturePoint.y f)
    (FeaturePoint.score f) ∧
  threshold * 2 < FeaturePoint.score f ∧
  tracked_near before (FeaturePoint.x f) (FeaturePoint.y f) = false ∧
  (length before < 200)%nat ∧
  FeaturePoint.vx f = 0 ∧ FeaturePoint.vy f = 0 ∧ FeaturePoint.age f = 0%nat.

(** The engine before and after [detectNewFeatures]: the new features come
    after the old ones, each detected as above, with the ids the counter
    went through. *)
Definition detection (gray : list Z) (threshold : Z) (e e' : t) : Prop :=
  width e' = width e ∧ height e' = height e ∧ prevGray e' = prevGray e ∧
  ∃ fresh,
    activeFeatures e' = activeFeatures e ++ fresh ∧
    nextFeatureId e' = (nextFeatureId e + length fresh)%nat ∧
    ∀ (i : nat) f, fresh !! i = Some f →
      FeaturePoint.id f = (nextFeatureId e + i)%nat ∧
      detected_at gray threshold e (activeFeatures e ++ take i fresh) f.
End Matcher.

Module Clusterer.
Import CVEngine.

(** Section 4.4, step 2: two features are coherent when their positions are
    less than 60 apart and their velocities less than 2 apart. *)
Definition near (f o : FeaturePoint.t) : Prop :=
  (FeaturePoint.x f - FeaturePoint.x o) ^ 2
    + (FeaturePoint.y f - FeaturePoint.y o) ^ 2 < 60 ^ 2 ∧
  (FeaturePoint.vx f - FeaturePoint.vx o) ^ 2
    + (FeaturePoint.vy f - FeaturePoint.vy o) ^ 2 < 2 ^ 2.

#[global] Instance near_dec f o : Decision (near f o) := and_dec _ _.

(** The group of a seed is the seed and, scanning the moving features once,
    every feature not yet visited that is coherent with the seed; its
    members become visited. *)
Definition gather (moving : list FeaturePoint.t) (f : FeaturePoint.t)
    (vis : gset nat) : list FeaturePoint.t * gset nat :=
  foldl (λ (s : list FeaturePoint.t * gset nat) other,
           if bool_decide (FeaturePoint.id other ∈ s.2) then s
           else if bool_decide (near f other)
                then (s.1 ++ [other], s.2 ∪ {[FeaturePoint.id other]})
                else s)
        ([f], vis ∪ {[FeaturePoint.id f]}) moving.

(** The groups of the seeds among [rest], in order. *)
Fixpoint seed_groups (moving rest : list FeaturePoint.t) (vis : gset nat)
    : list (list FeaturePoint.t) :=
  match rest with
  | [] => []
  | f :: rest' =>
      if bool_decide (FeaturePoint.id f ∈ vis) then seed_groups moving rest' vis
      else
        let s := gather moving f vis in
        s.1 :: seed_groups moving rest' s.2
  end.

Definition minimum (z : Z) (l : list Z) : Z := foldr Z.min z l.
Definition maximum (z : Z) (l : list Z) : Z := foldr Z.max z l.

(** Section 4.4, step 3: the blob of a group, if it has three members. *)
Definition group_blob (g : list FeaturePoint.t) : option RawBlob.t :=
  match g with
  | [] => None
  | f :: _ =>
      if bool_decide (3 ≤ length g)%nat then
        let x0 := minimum (FeaturePoint.x f) (FeaturePoint.x <$> g) in
        let x1 := maximum (FeaturePoint.x f) (FeaturePoint.x <$> g) in
        let y0 := minimum (FeaturePoint.y f) (FeaturePoint.y <$> g) in
        let y1 := maximum (FeaturePoint.y f) (FeaturePoint.y <$> g) in
        Some (RawBlob.mk (x0 - 10) (y0 - 10) (x1 - x0 + 20) (y1 - y0 + 20)
                         ((x1 - x0) * (y1 - y0)) (length g))
      else None
  end.

(** A group: the seed first, then members that move and are within
    distance 60 and velocity distance 2 of the seed. *)
Definition group_of_seed (moving g : list FeaturePoint.t) : Prop :=
  ∃ seed rest,
    g = seed :: rest ∧ seed ∈ moving ∧
    Forall (λ o,
      o ∈ moving ∧
      (FeaturePoint.x seed - FeaturePoint.x o) ^ 2
        + (FeaturePoint.y seed - FeaturePoint.y o) ^ 2 < 60 ^ 2 ∧
      (FeaturePoint.vx seed - FeaturePoint.vx o) ^ 2
        + (FeaturePoint.vy seed - FeaturePoint.vy o) ^ 2 < 2 ^ 2) rest.

(** The features of [fs] that have the id of [o]. *)
Definition same_id (o : FeaturePoint.t) (g : list FeaturePoint.t) : Prop :=
  ∃ m, m ∈ g ∧ FeaturePoint.id m = FeaturePoint.id o.
End Clusterer.

Module Tracking.
Import BlobTracker.

(** What every tracker state satisfies: keys are the ids, ids are below the
    counter and distinct, histories hold between 1 and 50 points. *)
Definition entry_ok (n : nat) (entry : nat * Trajectory.t) : Prop :=
  entry.1 = Trajectory.id entry.2 ∧
  (Trajectory.id entry.2 < n)%nat ∧
  (1 ≤ length (Trajectory.points entry.2) ≤ 50)%nat.

Definition well_formed (tr : t) : Prop :=
  NoDup (fst <$> trajectories tr) ∧ Forall (entry_ok (nextId tr)) (trajectories tr).

(** The tracker and the set [matchedIds] between two blobs of a call of
    [update]. *)
Inductive in_update : t → gset nat → Prop :=
  | at_start tr : reachable tr → in_update tr ∅
  | after_blob tr matchedIds timestamp params blob tr' matchedIds' :
      in_update tr matchedIds →
      match_blob timestamp params (tr, matchedIds) blob = Ok (tr', matchedIds') →
      in_update tr' matchedIds'.

(** Section 4.6, step 1: the Euclidean distance between two positions, each
    operation rounded to a double. *)
Definition euclidean (x1 y1 x2 y2 : float) : float :=
  PrimFloat.sqrt ((x1 - x2) * (x1 - x2) + (y1 - y2) * (y1 - y2))%float.

(** [a < b] and [a <= b] on doubles that are not [NaN]. *)
Definition closer (a b : float) : Prop := PrimFloat.ltb a b = true.
Definition not_farther (a b : float) : Prop := PrimFloat.ltb b a = false.

(** A trajectory a blob may extend: active, not matched in this call, and
    its last point at a distance [d] from the blob that is less than
    [persistence * 50]. *)
Definition in_gate (params : TrackingParams.t) (matchedIds : gset nat)
    (blob : BlobPoint.t) (entry : nat * Trajectory.t) (d : float) : Prop :=
  Trajectory.active entry.2 = true ∧
  (Trajectory.id entry.2 ∉ matchedIds) ∧
  (∃ p, last (Trajectory.points entry.2) = Some p ∧
        d = euclidean (BlobPoint.x blob) (BlobPoint.y blob)
                      (Point.x p) (Point.y p)) ∧
  closer d (TrackingParams.persistence params * 50)%float.

(** What the blobs of a call can do to an entry of the map: nothing, and
    then its id is in [matchedIds] after them only if it was before; or,
    once, extend an active trajectory not matched before by the point of
    one of the blobs. *)
Definition carried (timestamp : float) (blobs : list BlobPoint.t)
    (matchedIds matchedIds' : gset nat) (old new : nat * Trajectory.t) : Prop :=
  (new = old ∧
   (Trajectory.id old.2 ∈ matchedIds' → Trajectory.id old.2 ∈ matchedIds)) ∨
  (Trajectory.active old.2 = true ∧
   (Trajectory.id old.2 ∉ matchedIds) ∧ (Trajectory.id old.2 ∈ matchedIds') ∧
   ∃ blob, blob ∈ blobs ∧
     new = (old.1, extend old.2
                     (Point.mk (BlobPoint.x blob) (BlobPoint.y blob) timestamp))).

(** An entry made for one of the blobs. *)
Definition spawned (timestamp : float) (blobs : list BlobPoint.t)
    (entry : nat * Trajectory.t) : Prop :=
  ∃ blob, blob ∈ blobs ∧
    entry.2 = spawn entry.1
                (Point.mk (BlobPoint.x blob) (BlobPoint.y blob) timestamp).

(** The tracker and [matchedIds] before and after some blobs of a call:
    the entries stay in place, each carried as above, and the entries
    behind them are new, with the ids the counter went through. *)
Definition blobs_step (timestamp : float) (blobs : list BlobPoint.t)
    (tr : t) (matchedIds : gset nat) (tr' : t) (matchedIds' : gset nat) : Prop :=
  (matchedIds ⊆ matchedIds') ∧
  (nextId tr ≤ nextId tr')%nat ∧
  (∀ (i : nat) old, trajectories tr !! i = Some old →
     ∃ new, trajectories tr' !! i = Some new ∧
            carried timestamp blobs matchedIds matchedIds' old new) ∧
  (∀ (i : nat) new, (length (trajectories tr) ≤ i)%nat →
     trajectories tr' !! i = Some new →
     spawned timestamp blobs new ∧
     (nextId tr ≤ new.1 < nextId tr')%nat ∧ (new.1 ∈ matchedIds')).

(** A sequence of calls of [update]. *)
Fixpoint updates (tr : t)
    (calls : list (list BlobPoint.t * float * TrackingParams.t)) : result t :=
  match calls with
  | [] => Ok tr
  | (currentBlobs, timestamp, params) :: rest =>
      r ← update tr currentBlobs timestamp params;
      updates r.1 rest
  end.
End Tracking.

(** ** App.tsx: the frame loop *)

(** [processFrame] once a frame is available: the calls of the engine and of
  the tracker and the state they feed.  Drawing, the frame rate and the
  guards on the video element are left out; only the two counters of the
  statistics that depend on the analysis are kept.  The test
  [video.currentTime % 0.5 < 0.02] on the fractional time is the input
  [sampled]. *)
Module App.
Definition ANALYSIS_WIDTH : nat := 480.
Definition ANALYSIS_HEIGHT : nat := 270.

(** The double that holds the integer [z]; the engine's integers are
    numbers of the source, far below [2^53] in magnitude. *)
Definition double (z : Z) : float :=
  if bool_decide (z < 0)
  then (- PrimFloat.of_uint63 (Uint63.of_Z (- z)))%float
  else PrimFloat.of_uint63 (Uint63.of_Z z).

(** [1920 / ANALYSIS_WIDTH] and [1080 / ANALYSIS_HEIGHT] *)
Definition scaleX : float := (1920 / double (Z.of_nat ANALYSIS_WIDTH))%float.
Definition scaleY : float := (1080 / double (Z.of_nat ANALYSIS_HEIGHT))%float.

(** [{ x: (b.x + b.w / 2) * scaleX, y: (b.y + b.h / 2) * scaleY }] *)
Definition currentBlob (b : RawBlob.t) : BlobPoint.t :=
  BlobPoint.mk ((double (RawBlob.x b) + double (RawBlob.w b) / 2) * scaleX)%float
               ((double (RawBlob.y b) + double (RawBlob.h b) / 2) * scaleY)%float.

Record ProcessingStats : Type := mkStats {
  processedCount : nat;
  blobsCount : nat
}.

Record TimeSeriesData : Type := mkSample { timestamp : float; count : nat }.

Record t : Type := mk {
  cvEngine : CVEngine.t;
  tracker : BlobTracker.t;
  trajectories : list Trajectory.t;
  currentFeatures : list FeaturePoint.t;
  stats : ProcessingStats;
  timeSeries : list TimeSeriesData
}.

(** The state of the component when it is mounted. *)
Definition init : t :=
  mk (CVEngine.new ANALYSIS_WIDTH ANALYSIS_HEIGHT) BlobTracker.new [] []
     (mkStats 0 0) [].

(** [l.slice(-n)] *)
Definition slice_last {A} (n : nat) (l : list A) : list A :=
  drop (length l - n) l.

(** [updatedTrajectories.filter(t => t.active).length] *)
Definition active_count (trajs : list Trajectory.t) : nat :=
  length (filter (λ traj, Trajectory.active traj = true) trajs).

Definition processFrame (s : t) (frameData : list byte) (currentTime : float)
    (params : TrackingParams.t) (sensitivity : Z) (sampled : bool) : result t :=
  let r := CVEngine.process (cvEngine s) frameData sensitivity in
  let currentBlobs := currentBlob <$> CVEngine.blobs r.2 in
  u ← BlobTracker.update (tracker s) currentBlobs currentTime params;
  let n := active_count u.2 in
  Ok (mk r.1 u.1 u.2 (CVEngine.features r.2)
         (mkStats (S (processedCount (stats s))) n)
         (if sampled
          then slice_last 100 (timeSeries s) ++ [mkSample currentTime n]
          else timeSeries s)).

(** [handleFileUpload] for a chosen file. *)
Definition handleFileUpload (s : t) : t :=
  mk (CVEngine.reset (cvEngine s)) (BlobTracker.reset (tracker s)) []
     (currentFeatures s) (stats s) [].

(** The states the component goes through. *)
Inductive reachable : t → Prop :=
  | reach_init : reachable init
  | reach_frame s frameData currentTime params sensitivity sampled s' :
      reachable s →
      processFrame s frameData currentTime params sensitivity sampled = Ok s' →
      reachable s'
  | reach_upload s : reachable s → reachable (handleFileUpload s).
End App.

(** ** Frames used in the examples *)

Module Frames.
(** One opaque RGBA pixel of gray level [v]. *)
Definition pixel (v : byte) : list byte := [v; v; v; xff].

(** A frame of [w] x [h] pixels of gray level [v]. *)
Definition flat (w h : nat) (v : byte) : list byte :=
  _ ← seq 0 (w * h); pixel v.

(** Vertical stripes one pixel wide: even columns white, odd columns black. *)
Definition stripes (w h : nat) : list byte :=
  i ← seq 0 (w * h); if Nat.even (i mod w) then pixel xff else pixel x00.

(** A frame of [w] x [h] opaque pixels of colour [(r, g, b)]. *)
Definition solid (w h : nat) (r g b : byte) : list byte :=
  _ ← seq 0 (w * h); [r; g; b; xff].

(** A white square of 3 x 3 pixels centred at [(cx, cy)] on black. *)
Definition spot (w h cx cy : nat) : list byte :=
  i ← seq 0 (w * h);
  if bool_decide (cx - 1 ≤ i mod w ≤ cx + 1 ∧ cy - 1 ≤ i / w ≤ cy + 1)%nat
  then pixel xff else pixel x00.
End Frames.

(** * Proofs *)

(** ** The feature engine *)

Module EngineFacts.
Import CVEngine Matcher Clusterer.
#[local] Arguments sad_at : simpl never.
#[local] Arguments zrange : simpl never.
#[local] Arguments out_of_frame : simpl never.
#[local] Arguments findMatch : simpl never.
#[local] Arguments toGrayscale : simpl never.
#[local] Arguments detectNewFeatures : simpl never.
#[local] Arguments clusterFeatures : simpl never.
#[local] Arguments track : simpl never.

(** ** Loops *)

Lemma elem_of_zrange (lo hi v : Z) : v ∈ zrange lo hi ↔ lo ≤ v ≤ hi.
Proof.
  unfold zrange. rewrite list_elem_of_fmap. split.
  - intros (k & -> & Hk). apply elem_of_seq in Hk. lia.
  - intros Hv. exists (Z.to_nat (v - lo)). split; [lia|].
    apply elem_of_seq. lia.
Qed.

(** A relation that every iteration respects, and that is reflexive and
    transitive, holds between the states before and after the loop. *)
Lemma for_each_preserves {A S} (R : S → S → Prop) (body : A → S → flow S)
    (l : list A) :
  (∀ s, R s s) →
  (∀ s1 s2 s3, R s1 s2 → R s2 s3 → R s1 s3) →
  (∀ a s, a ∈ l → R s (flow_state (body a s))) →
  ∀ s, R s (flow_state (for_each body l s)).
Proof.
  intros Hrefl Htrans. induction l as [|a l IH]; intros Hbody s; simpl.
  - apply Hrefl.
  - pose proof (Hbody a s (list_elem_of_here _ _)) as Ha.
    destruct (body a s) as [s'|s']; simpl in *; [|done].
    eapply Htrans; [exact Ha|]. apply IH. intros. apply Hbody. by right.
Qed.

(** ** The detection grid *)


Lemma stride_steps_bounds fuel from limit v :
  v ∈ stride_steps fuel from limit → from ≤ v < limit.
Proof.
  revert from. induction fuel as [|k IH]; intros from; simpl.
  - by intros ?%elem_of_nil.
  - case_bool_decide; [|by intros ?%elem_of_nil].
    intros [->|Hv%IH]%elem_of_cons; unfold stride in *; lia.
Qed.

(** The fuel of [grid_axis] is never what ends the loop: more fuel gives the
    same coordinates. *)
Lemma stride_steps_fuel fuel k from limit :
  limit - from ≤ Z.of_nat fuel →
  stride_steps (fuel + k) from limit = stride_steps fuel from limit.
Proof.
  revert from. induction fuel as [|n IH]; intros from Hle.
  - destruct k; simpl; [done|]. case_bool_decide; [lia|done].
  - simpl. case_bool_decide; [|done]. f_equal. apply IH. unfold stride. lia.
Qed.

Lemma grid_axis_fuel (n k : nat) :
  stride_steps (n + k) stride (Z.of_nat n - stride) = grid_axis n.
Proof. apply stride_steps_fuel. unfold stride. lia. Qed.

Lemma grid_axis_bounds (n : nat) (v : Z) :
  v ∈ grid_axis n → stride ≤ v < Z.of_nat n - stride.
Proof. apply stride_steps_bounds. Qed.

(** ** detectNewFeatures *)

Lemma replenished_refl e : replenished e e.
Proof.
  repeat split; [lia|]. exists []. by rewrite app_nil_r.
Qed.

Lemma replenished_trans e1 e2 e3 :
  replenished e1 e2 → replenished e2 e3 → replenished e1 e3.
Proof.
  intros (Hw & Hh & Hp & Hlen & fresh & Hf & Hfr)
         (Hw' & Hh' & Hp' & Hlen' & fresh' & Hf' & Hfr').
  repeat split; [congruence..|lia|].
  exists (fresh ++ fresh'). split.
  - by rewrite Hf', Hf, app_assoc.
  - apply Forall_app. split; [done|].
    eapply Forall_impl; [exact Hfr'|]. intros f.
    unfold fresh_feature, W, H. by rewrite Hw, Hh.
Qed.

Lemma detect_at_replenished gray threshold y x e :
  stride ≤ y < H e - stride → stride ≤ x < W e - stride →
  replenished e (flow_state (detect_at gray threshold y x e)).
Proof.
  intros Hy Hx. unfold detect_at.
  case_bool_decide as Hfull; [apply replenished_refl|].
  destruct (tracked_near _ _ _); [apply replenished_refl|].
  destruct (corner_score _ _ _ _) as [score| |]; try apply replenished_refl.
  case_bool_decide; [|apply replenished_refl]. simpl.
  repeat split; simpl.
  - rewrite length_app. simpl. lia.
  - eexists. split; [done|]. by apply Forall_singleton.
Qed.

Lemma detectNewFeatures_replenished gray threshold e :
  replenished e (detectNewFeatures gray threshold e).
Proof.
  unfold detectNewFeatures.
  set (R := λ e1 e2 : t,
         width e1 = width e → height e1 = height e → replenished e1 e2).
  assert (∀ e1, R e1 e1) as Hrefl by (intros ? _ _; apply replenished_refl).
  assert (∀ e1 e2 e3, R e1 e2 → R e2 e3 → R e1 e3) as Htrans.
  { intros e1 e2 e3 H12 H23 Hw Hh. specialize (H12 Hw Hh).
    eapply replenished_trans; [exact H12|].
    destruct H12 as (Hw' & Hh' & _). apply H23; congruence. }
  apply (for_each_preserves R); [done..| |done|done].
  intros y e1 Hy%grid_axis_bounds.
  apply (for_each_preserves R); [done..|].
  intros x e2 Hx%grid_axis_bounds Hw Hh.
  apply detect_at_replenished; unfold W, H; rewrite ?Hw, ?Hh; done.
Qed.

(** ** findMatch *)


Lemma halfP_eq : halfP = 3.
Proof. reflexivity. Qed.

Lemma halfS_eq : halfS = 7.
Proof. reflexivity. Qed.

Lemma out_of_frame_false e c : out_of_frame e c = false ↔ in_frame e c.
Proof.
  unfold out_of_frame, in_frame.
  rewrite !orb_false_iff, !bool_decide_eq_false. lia.
Qed.

Lemma try_offset_in_frame e f prev curr dy dx b :
  try_offset e f prev curr dy dx b =
    let c := (FeaturePoint.x f + dx, FeaturePoint.y f + dy) in
    if decide (in_frame e c)
    then if num_lt (sad_at e f prev curr c) (bestSAD b)
         then mkBest (sad_at e f prev curr c) c else b
    else b.
Proof.
  unfold try_offset. cbv zeta.
  destruct (out_of_frame e _) eqn:Hout; case_decide as Hin; try done.
  - apply out_of_frame_false in Hin. congruence.
  - by apply out_of_frame_false in Hout.
Qed.

Lemma search_loops e f prev curr (rows cols : list Z) (b : best) :
  foldl (λ b dy, foldl (λ b dx, try_offset e f prev curr dy dx b) b cols) b rows =
  foldl (λ b c, if num_lt (sad_at e f prev curr c) (bestSAD b)
                then mkBest (sad_at e f prev curr c) c else b) b
        (filter (in_frame e)
           ((λ d : Z * Z, (FeaturePoint.x f + d.2, FeaturePoint.y f + d.1)) <$>
              (dy ← rows; dx ← cols; [(dy, dx)]))).
Proof.
  revert b. induction rows as [|dy rows IH]; intros b; [reflexivity|].
  cbn [foldl mbind list_bind]. rewrite IH. clear IH.
  rewrite fmap_app, filter_app, foldl_app. f_equal.
  revert b. induction cols as [|dx cols IH]; intros b; [reflexivity|].
  cbn [foldl mbind list_bind app fmap list_fmap].
  rewrite try_offset_in_frame. cbv zeta.
  rewrite filter_cons. cbn [fst snd]. case_decide; cbn [foldl]; by rewrite IH.
Qed.

(** The two search loops are one pass over the candidates. *)
Lemma search_candidates e f prev curr :
  search e f prev curr =
    foldl (λ b c, if num_lt (sad_at e f prev curr c) (bestSAD b)
                  then mkBest (sad_at e f prev curr c) c else b)
          (mkBest Inf (FeaturePoint.x f, FeaturePoint.y f)) (candidates e f).
Proof. apply search_loops. Qed.

(** A pass that keeps the first strictly smaller value ends on the first
    minimum of the values that are numbers. *)
Lemma first_minimum_fold (val : Z * Z → num) (l : list (Z * Z)) (p0 : Z * Z) :
  let b := foldl (λ b c, if num_lt (val c) (bestSAD b)
                         then mkBest (val c) c else b) (mkBest Inf p0) l in
  match bestSAD b with
  | Fin s => ∃ i, first_minimum val l i (bestPos b) s
  | Inf => bestPos b = p0 ∧ ∀ c s, c ∈ l → val c ≠ Fin s
  | NaN => False
  end.
Proof.
  induction l as [|c l IH] using rev_ind; cbn zeta.
  - split; [done|]. by intros ?? ?%elem_of_nil.
  - rewrite foldl_app. cbn [foldl]. cbn zeta in IH.
    destruct (foldl _ _ l) as [sad pos]. cbn [bestSAD bestPos] in *.
    destruct sad as [s| |]; [| |done].
    + destruct IH as (i & Hi & Hv & Hmin).
      assert (∀ t, val c = Fin t → s ≤ t →
                ∃ i, first_minimum val (l ++ [c]) i pos s) as Hkeep.
      { intros t Ht Hle. exists i.
        split; [by apply lookup_app_l_Some|]. split; [done|].
        intros j c' t' [[Hj Hc']|[-> <-]]%lookup_snoc_Some Ht'.
        - by apply (Hmin j c').
        - apply lookup_lt_Some in Hi. assert (t' = t) as -> by congruence. lia. }
      assert ((∀ t, val c ≠ Fin t) →
                ∃ i, first_minimum val (l ++ [c]) i pos s) as Hskip.
      { intros Hnot. exists i.
        split; [by apply lookup_app_l_Some|]. split; [done|].
        intros j c' t' [[Hj Hc']|[-> <-]]%lookup_snoc_Some Ht'.
        - by apply (Hmin j c').
        - by destruct (Hnot t'). }
      destruct (val c) as [s'| |] eqn:Hc; cbn [num_lt].
      * case_bool_decide as Hlts; cbn [bestSAD bestPos].
        -- exists (length l). split; [|split; [done|]].
           { by rewrite lookup_app_r, Nat.sub_diag. }
           intros j c' t [[Hj Hc']|[-> <-]]%lookup_snoc_Some Ht.
           ++ destruct (Hmin j c' t Hc' Ht). lia.
           ++ assert (t = s') as -> by congruence. lia.
        -- apply (Hkeep s'); [done|lia].
      * by apply Hskip.
      * by apply Hskip.
    + destruct IH as (Hp & Hnone).
      destruct (val c) as [s'| |] eqn:Hc; cbn [num_lt bestSAD bestPos].
      * exists (length l). split; [|split; [done|]].
        { by rewrite lookup_app_r, Nat.sub_diag. }
        intros j c' t [[Hj Hc']|[-> <-]]%lookup_snoc_Some Ht.
        -- apply list_elem_of_lookup_2 in Hc'. by destruct (Hnone c' t Hc').
        -- assert (t = s') as -> by congruence. lia.
      * split; [done|]. intros c' t [Hin| ->%list_elem_of_singleton]%elem_of_app.
        -- by apply Hnone.
        -- congruence.
      * split; [done|]. intros c' t [Hin| ->%list_elem_of_singleton]%elem_of_app.
        -- by apply Hnone.
        -- congruence.
Qed.

(** ** Sums of absolute differences *)

Lemma aget_in_range {A} (a : list A) (i : Z) :
  0 ≤ i < Z.of_nat (length a) → is_Some (aget a i).
Proof.
  intros Hi. unfold aget. case_bool_decide; [lia|].
  apply lookup_lt_is_Some. lia.
Qed.

Lemma pixel_index (w h x y : Z) :
  0 ≤ x < w → 0 ≤ y < h → 0 ≤ y * w + x < w * h.
Proof. nia. Qed.

Lemma foldl_finite {A} (step : num → A → num) (l : list A) :
  (∀ a s, a ∈ l → 0 ≤ s → ∃ s', step (Fin s) a = Fin s' ∧ s ≤ s') →
  ∀ s, 0 ≤ s → ∃ s', foldl step (Fin s) l = Fin s' ∧ s ≤ s'.
Proof.
  induction l as [|a l IH]; intros Hstep s Hs; cbn [foldl].
  - exists s. split; [done|lia].
  - destruct (Hstep a s) as (s1 & -> & Hs1); [left|done|].
    destruct (IH (λ a s Ha, Hstep a s (list_elem_of_further _ _ _ Ha)) s1)
      as (s2 & -> & Hs2); [lia|].
    exists s2. split; [done|lia].
Qed.

Lemma foldl_unchanged {A} (step : num → A → num) (l : list A) (s : Z) :
  (∀ a, a ∈ l → step (Fin s) a = Fin s) → foldl step (Fin s) l = Fin s.
Proof.
  induction l as [|a l IH]; intros Hstep; cbn [foldl]; [done|].
  rewrite Hstep by left. apply IH. intros. apply Hstep. by right.
Qed.

Lemma patch_read e (g : list Z) (c : Z * Z) (px py : Z) :
  length g = (width e * height e)%nat → in_frame e c →
  px ∈ zrange (- halfP) halfP → py ∈ zrange (- halfP) halfP →
  is_Some (aget g ((c.2 + py) * W e + (c.1 + px))).
Proof.
  intros Hlen [Hx Hy] Hpx%elem_of_zrange Hpy%elem_of_zrange.
  rewrite halfP_eq in *. apply aget_in_range. rewrite Hlen, Nat2Z.inj_mul.
  fold (W e) (H e). apply pixel_index; lia.
Qed.

(** Inside the frame every sum of absolute differences is a number. *)
Lemma sad_at_finite e f prev curr c :
  length prev = (width e * height e)%nat →
  length curr = (width e * height e)%nat →
  in_frame e (FeaturePoint.x f, FeaturePoint.y f) → in_frame e c →
  ∃ s, sad_at e f prev curr c = Fin s ∧ 0 ≤ s.
Proof.
  intros Hprev Hcurr Hf Hc. unfold sad_at. destruct c as [nx ny].
  apply foldl_finite; [|done]. intros py s Hpy Hs.
  apply foldl_finite; [|done]. intros px s' Hpx Hs'.
  destruct (patch_read e prev _ px py Hprev Hf Hpx Hpy) as [p Hp].
  destruct (patch_read e curr _ px py Hcurr Hc Hpx Hpy) as [q Hq].
  cbn [fst snd] in Hp, Hq. rewrite Hp, Hq.
  cbn. eexists. split; [done|lia].
Qed.

(** A patch compared with itself. *)
Lemma sad_at_self e f g :
  length g = (width e * height e)%nat →
  in_frame e (FeaturePoint.x f, FeaturePoint.y f) →
  sad_at e f g g (FeaturePoint.x f, FeaturePoint.y f) = Fin 0.
Proof.
  intros Hlen Hf. unfold sad_at.
  apply foldl_unchanged. intros py Hpy.
  apply foldl_unchanged. intros px Hpx.
  destruct (patch_read e g _ px py Hlen Hf Hpx Hpy) as [p Hp].
  cbn [fst snd] in Hp. rewrite Hp. cbn. by rewrite Z.sub_diag.
Qed.

(** ** The sum of absolute differences, written out *)

Lemma foldl_rows {A B S} (g : S → A → B → S) (rows : list A) (cols : list B) :
  ∀ s0,
    foldl (λ s a, foldl (λ s b, g s a b) s cols) s0 rows
      = foldl (λ s (d : A * B), g s d.1 d.2) s0 (a ← rows; b ← cols; [(a, b)]).
Proof.
  induction rows as [|a rows IH]; intros s0; [done|].
  cbn [foldl mbind list_bind]. rewrite foldl_app, IH. f_equal.
  clear IH. revert s0. induction cols as [|b cols IH]; intros s0; [done|].
  cbn [foldl mbind list_bind app]. by rewrite IH.
Qed.

Lemma foldl_sum {A} (t : A → num) (v : A → Z) (l : list A) :
  (∀ a, a ∈ l → t a = Fin (v a)) →
  ∀ s, foldl (λ sad a, num_add sad (t a)) (Fin s) l
       = Fin (s + foldr Z.add 0 (v <$> l)).
Proof.
  induction l as [|a l IH]; intros Ht s; cbn [foldl fmap list_fmap foldr].
  - by rewrite Z.add_0_r.
  - rewrite (Ht a) by left. cbn [num_add].
    rewrite IH by (intros; apply Ht; by right). f_equal. lia.
Qed.

Lemma patch_zrange :
  patch = (py ← zrange (- halfP) halfP; px ← zrange (- halfP) halfP; [(py, px)]).
Proof. reflexivity. Qed.

Lemma elem_of_patch (d : Z * Z) :
  d ∈ patch → d.1 ∈ zrange (- halfP) halfP ∧ d.2 ∈ zrange (- halfP) halfP.
Proof.
  rewrite !elem_of_zrange, halfP_eq. intros Hd.
  assert (Forall (λ d : Z * Z, -3 ≤ d.1 ≤ 3 ∧ -3 ≤ d.2 ≤ 3) patch) as Hall.
  { apply (bool_decide_unpack _). vm_compute. exact I. }
  exact (proj1 (Forall_forall _ _) Hall d Hd).
Qed.

(** The gray level of a pixel of the patch around a position in the frame
    is an entry of the frame. *)
Lemma level_read e (g : list Z) (c d : Z * Z) :
  length g = (width e * height e)%nat → in_frame e c → d ∈ patch →
  aget g ((c.2 + d.1) * W e + (c.1 + d.2))
    = Some (level e g (c.1 + d.2) (c.2 + d.1)).
Proof.
  intros Hlen Hc [Hpy Hpx]%elem_of_patch. unfold level.
  by destruct (patch_read e g c d.2 d.1 Hlen Hc Hpx Hpy) as [p ->].
Qed.

(** Inside the frame the loops of [findMatch] compute the sum of absolute
    differences of the two patches. *)
Lemma sad_at_patch_sad e f prev curr c :
  length prev = (width e * height e)%nat →
  length curr = (width e * height e)%nat →
  in_frame e (FeaturePoint.x f, FeaturePoint.y f) → in_frame e c →
  sad_at e f prev curr c
    = Fin (patch_sad e prev curr (FeaturePoint.x f, FeaturePoint.y f) c).
Proof.
  intros Hprev Hcurr Hf Hc. unfold sad_at, patch_sad. destruct c as [nx ny].
  rewrite (foldl_rows
    (λ sad py px,
       num_add sad
         (abs_diff (aget prev ((FeaturePoint.y f + py) * W e + (FeaturePoint.x f + px)))
                   (aget curr ((ny + py) * W e + (nx + px)))))).
  rewrite <-patch_zrange.
  rewrite (foldl_sum _
    (λ d : Z * Z,
       Z.abs (level e prev (FeaturePoint.x f + d.2) (FeaturePoint.y f + d.1)
              - level e curr (nx + d.2) (ny + d.1)))); [done|].
  intros d Hd.
  pose proof (level_read e prev _ d Hprev Hf Hd) as Hp.
  pose proof (level_read e curr _ d Hcurr Hc Hd) as Hq.
  cbn [fst snd] in Hp, Hq. by rewrite Hp, Hq.
Qed.

Lemma sum_abs_nonneg {A} (h : A → Z) (l : list A) :
  0 ≤ foldr Z.add 0 ((λ a, Z.abs (h a)) <$> l).
Proof.
  induction l as [|a l IH]; [done|].
  rewrite fmap_cons. cbn [foldr]. cbn beta. lia.
Qed.

Lemma sum_abs_zero {A} (h : A → Z) (l : list A) :
  foldr Z.add 0 ((λ a, Z.abs (h a)) <$> l) = 0 ↔ ∀ a, a ∈ l → h a = 0.
Proof.
  induction l as [|a l IH].
  - split; [by intros _ a ?%elem_of_nil|done].
  - pose proof (sum_abs_nonneg h l) as Hpos.
    rewrite fmap_cons. cbn [foldr]. cbn beta. split.
    + intros Hsum a' [->|Ha']%elem_of_cons; [lia|].
      apply IH; [lia|done].
    + intros Hall. rewrite (proj2 IH) by (intros; apply Hall; by right).
      specialize (Hall a (list_elem_of_here _ _)). lia.
Qed.

(** The sum is 0 exactly when the two patches are equal, pixel by pixel. *)
Lemma patch_sad_zero e prev curr p c :
  patch_sad e prev curr p c = 0 ↔
  ∀ d, d ∈ patch →
    level e curr (c.1 + d.2) (c.2 + d.1) = level e prev (p.1 + d.2) (p.2 + d.1).
Proof.
  unfold patch_sad.
  rewrite (sum_abs_zero (λ d : Z * Z,
             level e prev (p.1 + d.2) (p.2 + d.1)
             - level e curr (c.1 + d.2) (c.2 + d.1))).
  split; intros Hall d Hd; specialize (Hall d Hd); lia.
Qed.

Lemma patch_sad_nonneg e prev curr p c : 0 ≤ patch_sad e prev curr p c.
Proof. apply sum_abs_nonneg. Qed.

(** ** What findMatch returns *)

Lemma findMatch_first_minimum e f prev curr :
  match findMatch e f prev curr with
  | Some c =>
      ∃ i s, first_minimum (sad_at e f prev curr) (candidates e f) i c s ∧ s < 5000
  | None =>
      ∀ c s, c ∈ candidates e f → sad_at e f prev curr c = Fin s → 5000 ≤ s
  end.
Proof.
  unfold findMatch. rewrite search_candidates.
  pose proof (first_minimum_fold (sad_at e f prev curr) (candidates e f)
                (FeaturePoint.x f, FeaturePoint.y f)) as Hmin.
  cbn zeta in Hmin. destruct (foldl _ _ _) as [sad pos].
  cbn [bestSAD bestPos] in *. destruct sad as [s| |]; cbn [num_lt]; [| |done].
  - destruct Hmin as (i & Hmin). case_bool_decide as Hs.
    + by exists i, s.
    + intros c t [j Hj]%list_elem_of_lookup Ht.
      destruct Hmin as (_ & _ & Hmin). destruct (Hmin j c t Hj Ht). lia.
  - destruct Hmin as (_ & Hnone). intros c t Hc Ht. by destruct (Hnone c t Hc).
Qed.

Lemma elem_of_candidates e f c : c ∈ candidates e f → in_frame e c.
Proof. unfold candidates. by intros [? _]%list_elem_of_filter. Qed.

(** [findMatch] in terms of the written-out sums: the first candidate in
    raster order among those of minimum sum, if that sum is below 5000. *)
Lemma findMatch_minimum e f prev curr :
  length prev = (width e * height e)%nat →
  length curr = (width e * height e)%nat →
  in_frame e (FeaturePoint.x f, FeaturePoint.y f) →
  let sad := patch_sad e prev curr (FeaturePoint.x f, FeaturePoint.y f) in
  match findMatch e f prev curr with
  | Some c =>
      ∃ i : nat,
        candidates e f !! i = Some c ∧ sad c < 5000 ∧
        ∀ (j : nat) c', candidates e f !! j = Some c' →
          sad c ≤ sad c' ∧ ((j < i)%nat → sad c < sad c')
  | None => ∀ c, c ∈ candidates e f → 5000 ≤ sad c
  end.
Proof.
  intros Hprev Hcurr Hf sad.
  assert (∀ c, c ∈ candidates e f → sad_at e f prev curr c = Fin (sad c)) as Hsad.
  { intros c Hc%elem_of_candidates. by apply sad_at_patch_sad. }
  pose proof (findMatch_first_minimum e f prev curr) as Hmin.
  destruct (findMatch e f prev curr) as [c|].
  - destruct Hmin as (i & s & (Hi & Hs & Hmin) & Hlt).
    rewrite (Hsad c) in Hs by by eapply list_elem_of_lookup_2.
    injection Hs as <-. exists i. split; [done|]. split; [done|].
    intros j c' Hj. apply (Hmin j c' (sad c') Hj), Hsad.
    by eapply list_elem_of_lookup_2.
  - intros c Hc. by apply (Hmin c (sad c) Hc), Hsad.
Qed.

Lemma findMatch_in_frame e f prev curr c :
  findMatch e f prev curr = Some c → in_frame e c.
Proof.
  intros Hm. pose proof (findMatch_first_minimum e f prev curr) as Hmin.
  rewrite Hm in Hmin. destruct Hmin as (i & s & (Hi & _) & _).
  eapply elem_of_candidates, list_elem_of_lookup_2, Hi.
Qed.

(** ** The tracking loop *)

Lemma track_omap e prev gray fs :
  track e prev gray fs = omap (λ f, moved f <$> findMatch e f prev gray) fs.
Proof.
  unfold track.
  enough (∀ acc,
    foldl (λ tracked f,
             match findMatch e f prev gray with
             | Some c => tracked ++ [moved f c]
             | None => tracked
             end) acc fs
    = acc ++ omap (λ f, moved f <$> findMatch e f prev gray) fs) as Hacc
    by apply (Hacc []).
  induction fs as [|f fs IH]; intros acc; simpl.
  - by rewrite app_nil_r.
  - rewrite IH. destruct (findMatch e f prev gray); simpl; [|done].
    by rewrite <-app_assoc.
Qed.

Lemma omap_length {A B} (g : A → option B) (l : list A) :
  (length (omap g l) ≤ length l)%nat.
Proof.
  unfold omap. induction l as [|a l IH]; simpl; [done|].
  destruct (g a); simpl; lia.
Qed.

Lemma track_length e prev gray fs :
  (length (track e prev gray fs) ≤ length fs)%nat.
Proof. rewrite track_omap. apply omap_length. Qed.

Lemma track_in_frame e prev gray fs :
  Forall (λ f, in_frame e (FeaturePoint.x f, FeaturePoint.y f)) (track e prev gray fs).
Proof.
  rewrite track_omap. apply Forall_forall. intros f' Hf'.
  apply list_elem_of_omap in Hf' as (f & _ & Hm).
  destruct (findMatch e f prev gray) as [c|] eqn:Hc; simplify_eq/=.
  destruct c. by eapply findMatch_in_frame.
Qed.

(** ** toGrayscale *)

Lemma toGrayscale_length e data :
  length (toGrayscale e data) = (width e * height e)%nat.
Proof. unfold toGrayscale. by rewrite length_fmap, length_seq. Qed.

Lemma toGrayscale_dims e e' data :
  width e' = width e → height e' = height e →
  toGrayscale e' data = toGrayscale e data.
Proof. unfold toGrayscale. by intros -> ->. Qed.

(** Every value a frame read can give: [undefined] or one of the 256 bytes. *)
Lemma channel_values (b : option byte) :
  b ∈ None :: ((λ n : nat, Byte.of_N (N.of_nat n)) <$> seq 0 256).
Proof.
  destruct b as [b|]; [right|left].
  apply list_elem_of_fmap. exists (N.to_nat (Byte.to_N b)). split.
  - by rewrite N2Nat.id, Byte.of_to_N.
  - apply elem_of_seq. pose proof (Byte.to_N_bounded b). lia.
Qed.

(** A pixel whose blue byte is missing is stored as 0. *)
Lemma toUint8Clamp_missing_blue (r g : option byte) :
  toUint8Clamp (weighted r g None) = 0.
Proof.
  assert (forallb (λ r, forallb (λ g,
            bool_decide (toUint8Clamp (weighted r g None) = 0))
            (None :: ((λ n : nat, Byte.of_N (N.of_nat n)) <$> seq 0 256)))
            (None :: ((λ n : nat, Byte.of_N (N.of_nat n)) <$> seq 0 256))
          = true) as Hall by (vm_compute; reflexivity).
  rewrite forallb_forall in Hall.
  specialize (Hall r (proj1 (list_elem_of_In _ _) (channel_values r))).
  rewrite forallb_forall in Hall.
  specialize (Hall g (proj1 (list_elem_of_In _ _) (channel_values g))).
  by apply bool_decide_eq_true in Hall.
Qed.

Lemma toGrayscale_lookup e data (i : nat) :
  (i < width e * height e)%nat →
  toGrayscale e data !! i =
    Some (toUint8Clamp (weighted (data !! (i * 4)%nat) (data !! (i * 4 + 1)%nat)
                                 (data !! (i * 4 + 2)%nat))).
Proof.
  intros Hi. unfold toGrayscale. rewrite list_lookup_fmap.
  by rewrite (proj2 (lookup_seq 0 _ i i)).
Qed.

Lemma toGrayscale_take e data :
  toGrayscale e (take (width e * height e * 4) data) = toGrayscale e data.
Proof.
  unfold toGrayscale. apply list_fmap_ext. intros k i [-> Hi]%lookup_seq.
  simpl. by rewrite !lookup_take_lt by lia.
Qed.

(** ** process keeps the engine well formed *)

Lemma in_frame_dims e e' c :
  width e' = width e → height e' = height e → in_frame e c → in_frame e' c.
Proof. unfold in_frame, W, H. by intros -> ->. Qed.

Lemma fresh_in_frame e f :
  fresh_feature e f → in_frame e (FeaturePoint.x f, FeaturePoint.y f).
Proof.
  unfold fresh_feature, in_frame, stride. rewrite halfP_eq. simpl. lia.
Qed.

(** The first call stores the frame and detects features. *)
Lemma process_first e frameData threshold :
  prevGray e = None →
  process e frameData threshold =
    let e' := detectNewFeatures (toGrayscale e frameData) threshold
                (set_prevGray (Some (toGrayscale e frameData)) e) in
    (e', mkOutput [] (activeFeatures e')).
Proof. unfold process. by intros ->. Qed.

(** A later call tracks, replenishes below 50 features and clusters. *)
Lemma process_next e frameData threshold prev :
  prevGray e = Some prev →
  let gray := toGrayscale e frameData in
  let e' := (process e frameData threshold).1 in
  width e' = width e ∧ height e' = height e ∧ prevGray e' = Some gray ∧
  features (process e frameData threshold).2 = activeFeatures e' ∧
  blobs (process e frameData threshold).2 = clusterFeatures e' ∧
  (length (activeFeatures e')
     ≤ Nat.max 200 (length (track e prev gray (activeFeatures e))))%nat ∧
  ∃ fresh,
    activeFeatures e' = track e prev gray (activeFeatures e) ++ fresh ∧
    Forall (fresh_feature e) fresh ∧
    ((50 ≤ length (track e prev gray (activeFeatures e)))%nat → fresh = []).
Proof.
  intros Hprev. unfold process. rewrite Hprev. cbn zeta.
  set (gray := toGrayscale e frameData).
  set (e1 := set_activeFeatures (track e prev gray (activeFeatures e)) e).
  case_bool_decide as Hfew.
  - destruct (detectNewFeatures_replenished gray threshold e1)
      as (Hw & Hh & Hp & Hlen & fresh & Hfresh & Hgrid).
    cbn [fst snd features blobs width height prevGray activeFeatures set_prevGray].
    repeat split; try done.
    exists fresh. split; [done|]. split; [done|]. simpl in Hfew. lia.
  - cbn [fst snd features blobs width height prevGray activeFeatures set_prevGray
         set_activeFeatures e1].
    repeat split; try done; [lia|].
    exists []. by rewrite app_nil_r.
Qed.

Lemma process_well_formed e frameData threshold :
  well_formed e → well_formed (process e frameData threshold).1.
Proof.
  intros (Hgray & Hin & Hlen). destruct (prevGray e) as [prev|] eqn:Hprev.
  - destruct (process_next e frameData threshold prev Hprev)
      as (Hw & Hh & Hp & _ & _ & Hl & fresh & Hf & Hgrid & _).
    split; [|split].
    + intros g. rewrite Hp. intros [= <-].
      by rewrite toGrayscale_length, Hw, Hh.
    + rewrite Hf. apply Forall_app. split.
      * eapply Forall_impl; [apply track_in_frame|].
        intros f. by apply in_frame_dims.
      * eapply Forall_impl; [exact Hgrid|]. intros f Hfr%fresh_in_frame.
        by eapply in_frame_dims.
    + pose proof (track_length e prev (toGrayscale e frameData) (activeFeatures e)).
      lia.
  - rewrite process_first by done. cbn zeta. cbn [fst].
    destruct (detectNewFeatures_replenished (toGrayscale e frameData) threshold
                (set_prevGray (Some (toGrayscale e frameData)) e))
      as (Hw & Hh & Hp & Hl & fresh & Hf & Hgrid).
    simpl in Hw, Hh, Hp, Hl, Hf. split; [|split].
    + intros g. rewrite Hp. intros [= <-].
      by rewrite toGrayscale_length, Hw, Hh.
    + rewrite Hf. apply Forall_app. split.
      * eapply Forall_impl; [exact Hin|]. intros f. by apply in_frame_dims.
      * eapply Forall_impl; [exact Hgrid|]. intros f Hfr%fresh_in_frame.
        by eapply in_frame_dims.
    + lia.
Qed.

Lemma engine_well_formed e : reachable e → well_formed e.
Proof.
  induction 1 as [w h|e frameData threshold _ IH|e _ _].
  - split; [done|]. split; [constructor|simpl; lia].
  - by apply process_well_formed.
  - split; [done|]. split; [constructor|simpl; lia].
Qed.

(** ** Candidates *)

Lemma raster_NoDup : NoDup raster.
Proof. apply (bool_decide_unpack _). vm_compute. exact I. Qed.

Lemma candidates_NoDup e f : NoDup (candidates e f).
Proof.
  unfold candidates. apply NoDup_filter, NoDup_fmap_2; [|apply raster_NoDup].
  intros [dy dx] [dy' dx'] [= Hx Hy]. f_equal; lia.
Qed.

Lemma own_position_candidate e f :
  in_frame e (FeaturePoint.x f, FeaturePoint.y f) →
  (FeaturePoint.x f, FeaturePoint.y f) ∈ candidates e f.
Proof.
  intros Hin. unfold candidates. apply list_elem_of_filter. split; [done|].
  apply list_elem_of_fmap. exists (0, 0). split; [simpl; f_equal; lia|].
  apply (bool_decide_unpack _). vm_compute. exact I.
Qed.

(** Tracking a feature against the frame it was last seen in. *)
Lemma findMatch_same_frame e f g :
  length g = (width e * height e)%nat →
  in_frame e (FeaturePoint.x f, FeaturePoint.y f) →
  ∃ i k c,
    findMatch e f g g = Some c ∧
    first_minimum (sad_at e f g g) (candidates e f) i c 0 ∧
    candidates e f !! k = Some (FeaturePoint.x f, FeaturePoint.y f) ∧
    (i ≤ k)%nat ∧
    (FeaturePoint.vx (moved f c) = 0 ∧ FeaturePoint.vy (moved f c) = 0 ↔ i = k).
Proof.
  intros Hlen Hin.
  destruct (proj1 (list_elem_of_lookup _ _) (own_position_candidate e f Hin))
    as [k Hk].
  pose proof (sad_at_self e f g Hlen Hin) as Hself.
  pose proof (findMatch_first_minimum e f g g) as Hmin.
  destruct (findMatch e f g g) as [c|].
  - destruct Hmin as (i & s & (Hi & Hs & Hmin) & _).
    assert (s = 0) as ->.
    { destruct (Hmin k _ 0 Hk Hself) as [Hle _].
      destruct (sad_at_finite e f g g c Hlen Hlen Hin) as (s' & Hs' & Hpos).
      { eapply elem_of_candidates, list_elem_of_lookup_2, Hi. }
      assert (s' = s) as -> by congruence. lia. }
    exists i, k, c. split; [done|]. split; [done|]. split; [done|].
    assert (i ≤ k)%nat as Hik.
    { destruct (decide (k < i)%nat) as [Hlt|]; [|lia].
      destruct (Hmin k _ 0 Hk Hself) as [_ Hstrict]. specialize (Hstrict Hlt). lia. }
    split; [done|]. destruct c as [nx ny]. simpl. split.
    + intros [Hx Hy]. apply (NoDup_lookup _ i k (nx, ny) (candidates_NoDup e f));
        [done|]. rewrite Hk. do 2 f_equal; lia.
    + intros ->. rewrite Hk in Hi. injection Hi as <- <-. lia.
  - exfalso. specialize (Hmin _ 0 (own_position_candidate e f Hin) Hself). lia.
Qed.

(** The same in terms of the frame: the match is the first candidate in
    raster order whose patch equals the feature's own patch, pixel by
    pixel. *)
Lemma findMatch_identical_patch e f g :
  length g = (width e * height e)%nat →
  in_frame e (FeaturePoint.x f, FeaturePoint.y f) →
  ∃ (i k : nat) c,
    findMatch e f g g = Some c ∧
    candidates e f !! i = Some c ∧
    (∀ d, d ∈ patch →
       level e g (c.1 + d.2) (c.2 + d.1)
         = level e g (FeaturePoint.x f + d.2) (FeaturePoint.y f + d.1)) ∧
    (∀ (j : nat) c', (j < i)%nat → candidates e f !! j = Some c' →
       ∃ d, d ∈ patch ∧
         level e g (c'.1 + d.2) (c'.2 + d.1)
           ≠ level e g (FeaturePoint.x f + d.2) (FeaturePoint.y f + d.1)) ∧
    candidates e f !! k = Some (FeaturePoint.x f, FeaturePoint.y f) ∧
    (i ≤ k)%nat ∧
    (c.1 - FeaturePoint.x f = 0 ∧ c.2 - FeaturePoint.y f = 0 ↔ i = k).
Proof.
  intros Hlen Hin.
  destruct (findMatch_same_frame e f g Hlen Hin)
    as (i & k & c & Hm & (Hi & Hs & _) & Hk & Hik & Hv).
  pose proof (findMatch_minimum e f g g Hlen Hlen Hin) as Hmin.
  cbn zeta in Hmin. rewrite Hm in Hmin.
  destruct Hmin as (i' & Hi' & _ & Hmin).
  assert (i' = i) as ->
    by (eapply NoDup_lookup; [apply candidates_NoDup|done..]).
  assert (patch_sad e g g (FeaturePoint.x f, FeaturePoint.y f) c = 0) as Hzero.
  { rewrite sad_at_patch_sad in Hs; [by injection Hs|done..|].
    eapply elem_of_candidates, list_elem_of_lookup_2, Hi. }
  exists i, k, c. split; [done|]. split; [done|]. split.
  { intros d Hd. exact (proj1 (patch_sad_zero _ _ _ _ _) Hzero d Hd). }
  split; [|done].
  intros j c' Hj Hc'. destruct (Hmin j c' Hc') as [_ Hlt]. specialize (Hlt Hj).
  rewrite Hzero in Hlt.
  assert (¬ Forall (λ d : Z * Z,
              level e g (c'.1 + d.2) (c'.2 + d.1)
              = level e g (FeaturePoint.x f + d.2) (FeaturePoint.y f + d.1))
            patch) as Hnot.
  { intros Hall.
    assert (patch_sad e g g (FeaturePoint.x f, FeaturePoint.y f) c' = 0);
      [|lia].
    apply (proj2 (patch_sad_zero _ _ _ _ _)). intros d Hd.
    exact (proj1 (Forall_forall _ _) Hall d Hd). }
  apply not_Forall_Exists in Hnot; [|intros d; apply _].
  apply Exists_exists in Hnot as (d & Hd & Hne). by exists d.
Qed.

(** ** Properties of the engine *)

(** C1: on a call after the first, the features kept are, in order, the
    features of the previous call that [findMatch] matches, each moved to its
    match with velocity new minus old position and age plus one; the others
    are dropped.  For each feature and each candidate of the 15x15 window
    whose 7x7 patch lies in the frame, the loops of [findMatch] read 49
    pixels of each frame, all inside it, and compute the sum of the absolute
    differences between the previous frame around the feature and the
    current frame around the candidate; [findMatch] returns the first
    candidate in raster order among those of minimum sum when that sum is
    below 5000, and nothing otherwise. *)
Theorem findMatch_selects_first_minimum e frameData threshold prev :
  reachable e → prevGray e = Some prev →
  let gray := toGrayscale e frameData in
  (∃ fresh,
     activeFeatures (process e frameData threshold).1 =
       omap (λ f,
               (λ c : Z * Z,
                  FeaturePoint.mk c.1 c.2
                    (c.1 - FeaturePoint.x f) (c.2 - FeaturePoint.y f)
                    (FeaturePoint.score f) (FeaturePoint.id f)
                    (S (FeaturePoint.age f)))
               <$> findMatch e f prev gray) (activeFeatures e)
       ++ fresh ∧
     Forall (λ f, FeaturePoint.age f = 0%nat) fresh) ∧
  ∀ f, f ∈ activeFeatures e →
    let sad := patch_sad e prev gray (FeaturePoint.x f, FeaturePoint.y f) in
    (∀ c, c ∈ candidates e f →
       sad_at e f prev gray c = Fin (sad c) ∧
       ∀ d, d ∈ patch →
         aget prev ((FeaturePoint.y f + d.1) * W e + (FeaturePoint.x f + d.2))
           = Some (level e prev (FeaturePoint.x f + d.2) (FeaturePoint.y f + d.1)) ∧
         aget gray ((c.2 + d.1) * W e + (c.1 + d.2))
           = Some (level e gray (c.1 + d.2) (c.2 + d.1))) ∧
    match findMatch e f prev gray with
    | Some c =>
        ∃ i : nat,
          candidates e f !! i = Some c ∧ sad c < 5000 ∧
          ∀ (j : nat) c', candidates e f !! j = Some c' →
            sad c ≤ sad c' ∧ ((j < i)%nat → sad c < sad c')
    | None => ∀ c, c ∈ candidates e f → 5000 ≤ sad c
    end.
Proof.
  intros (Hgray & Hin & _)%engine_well_formed Hprev gray. split.
  - destruct (process_next e frameData threshold prev Hprev)
      as (_ & _ & _ & _ & _ & _ & fresh & Hf & Hgrid & _).
    exists fresh. split.
    + rewrite Hf, track_omap. done.
    + eapply Forall_impl; [exact Hgrid|]. by intros f (_ & _ & _ & _ & ?).
  - intros f Hf sad.
    assert (length gray = (width e * height e)%nat) as Hlen
      by apply toGrayscale_length.
    pose proof (proj1 (Forall_forall _ _) Hin f Hf) as Hfin.
    specialize (Hgray prev Hprev).
    split; [|by apply findMatch_minimum].
    intros c Hc%elem_of_candidates. split; [by apply sad_at_patch_sad|].
    intros d Hd. split.
    + exact (level_read e prev _ d Hgray Hfin Hd).
    + exact (level_read e gray c d Hlen Hc Hd).
Qed.

Lemma findMatch_selects_first_minimum_witness :
  let e := (process (new 31 31) (Frames.spot 31 31 16 15) 30).1 in
  let prev := toGrayscale (new 31 31) (Frames.spot 31 31 16 15) in
  let frame := Frames.spot 31 31 18 16 in
  let gray := toGrayscale e frame in
  reachable e ∧ prevGray e = Some prev ∧
  activeFeatures e = [FeaturePoint.mk 15 15 0 0 255 0 0] ∧
  activeFeatures (process e frame 30).1 = [FeaturePoint.mk 17 16 2 1 255 0 1] ∧
  patch_sad e prev gray (15, 15) (17, 16) = 0 ∧
  patch_sad e prev gray (15, 15) (15, 15) = 2805 ∧
  ∀ f, f ∈ activeFeatures e →
    let sad := patch_sad e prev gray (FeaturePoint.x f, FeaturePoint.y f) in
    match findMatch e f prev gray with
    | Some c =>
        ∃ i : nat,
          candidates e f !! i = Some c ∧ sad c < 5000 ∧
          ∀ (j : nat) c', candidates e f !! j = Some c' →
            sad c ≤ sad c' ∧ ((j < i)%nat → sad c < sad c')
    | None => ∀ c, c ∈ candidates e f → 5000 ≤ sad c
    end.
Proof.
  intros e prev frame gray.
  assert (reachable e) as Hreach by apply reach_process, reach_new.
  assert (prevGray e = Some prev) as Hprev by (vm_compute; reflexivity).
  split; [exact Hreach|]. split; [exact Hprev|].
  split; [vm_compute; reflexivity|]. split; [vm_compute; reflexivity|].
  split; [vm_compute; reflexivity|]. split; [vm_compute; reflexivity|].
  intros f Hf.
  exact (proj2 (proj2 (findMatch_selects_first_minimum e frame 30 prev
                         Hreach Hprev) f Hf)).
Defined.

(** A feature without a match is dropped: the feature found at (15, 15) on
    vertical stripes has no patch within 5000 of its own on a black frame
    (a candidate differs from it in 28 pixels by 255), and the next call
    keeps no feature. *)
Lemma unmatched_feature_dropped :
  let e := (process (new 31 31) (Frames.stripes 31 31) 30).1 in
  let prev := toGrayscale (new 31 31) (Frames.stripes 31 31) in
  let frame := Frames.flat 31 31 x00 in
  let f := FeaturePoint.mk 15 15 0 0 510 0 0 in
  activeFeatures e = [f] ∧
  patch_sad e prev (toGrayscale e frame) (15, 15) (15, 15) = 7140 ∧
  findMatch e f prev (toGrayscale e frame) = None ∧
  activeFeatures (process e frame 30).1 = [].
Proof.
  intros e prev frame f.
  split; [vm_compute; reflexivity|]. split; [vm_compute; reflexivity|].
  split; vm_compute; reflexivity.
Qed.

(** C3: after every call of [process] on an engine that started from [new]
    there are at most 200 active features, in the engine and in the output;
    [detectNewFeatures] only appends, and never beyond 200 features. *)
Theorem active_features_capped e frameData threshold :
  reachable e →
  (length (activeFeatures e) ≤ 200)%nat ∧
  (length (activeFeatures (process e frameData threshold).1) ≤ 200)%nat ∧
  (length (features (process e frameData threshold).2) ≤ 200)%nat ∧
  ∀ gray thr e',
    (length (activeFeatures (detectNewFeatures gray thr e'))
       ≤ Nat.max 200 (length (activeFeatures e')))%nat ∧
    ∃ fresh, activeFeatures (detectNewFeatures gray thr e')
             = activeFeatures e' ++ fresh.
Proof.
  intros Hreach.
  pose proof (engine_well_formed _ Hreach) as (_ & _ & Hlen).
  pose proof (engine_well_formed _ (reach_process e frameData threshold Hreach))
    as (_ & _ & Hlen').
  split; [done|]. split; [done|]. split.
  - destruct (prevGray e) as [prev|] eqn:Hprev.
    + destruct (process_next e frameData threshold prev Hprev)
        as (_ & _ & _ & -> & _). done.
    + rewrite process_first in * by done. done.
  - intros gray thr e'.
    destruct (detectNewFeatures_replenished gray thr e')
      as (_ & _ & _ & Hl & fresh & Hf & _).
    split; [done|]. by exists fresh.
Qed.

Lemma active_features_capped_witness :
  let e := (process (new 31 31) (Frames.stripes 31 31) 30).1 in
  reachable e ∧
  (length (activeFeatures (process e (Frames.stripes 31 31) 30).1) ≤ 200)%nat.
Proof.
  intros e.
  assert (reachable e) as Hreach by apply reach_process, reach_new.
  split; [exact Hreach|].
  exact (proj1 (proj2 (active_features_capped e (Frames.stripes 31 31) 30 Hreach))).
Defined.

(** C4, as stated, fails: on a 31x31 frame of vertical stripes given twice,
    the feature detected at (15, 15) is tracked to (9, 8), the first
    candidate in raster order whose patch equals its own, with velocity
    (-6, -7). *)
Lemma identical_frames_nonzero_velocity :
  let e1 := (process (new 31 31) (Frames.stripes 31 31) 30).1 in
  activeFeatures e1 = [FeaturePoint.mk 15 15 0 0 510 0 0] ∧
  features (process e1 (Frames.stripes 31 31) 30).2
    = [FeaturePoint.mk 9 8 (-6) (-7) 510 0 1].
Proof. vm_compute. split; reflexivity. Qed.

(** C4, amended: when a call of [process] gets the frame of the call before,
    no feature is dropped; each one moves to the first candidate in raster
    order whose 7x7 patch equals its own patch pixel by pixel (sum of
    absolute differences 0), and its velocity is (0, 0) exactly when no
    earlier candidate has such a patch, that is, when that candidate is its
    own position. *)
Theorem identical_frames_first_zero e0 frameData threshold1 threshold2 :
  reachable e0 →
  let e1 := (process e0 frameData threshold1).1 in
  let g := toGrayscale e0 frameData in
  prevGray e1 = Some g ∧ toGrayscale e1 frameData = g ∧
  (∃ fresh,
     activeFeatures (process e1 frameData threshold2).1 =
       omap (λ f,
               (λ c : Z * Z,
                  FeaturePoint.mk c.1 c.2
                    (c.1 - FeaturePoint.x f) (c.2 - FeaturePoint.y f)
                    (FeaturePoint.score f) (FeaturePoint.id f)
                    (S (FeaturePoint.age f)))
               <$> findMatch e1 f g g) (activeFeatures e1)
       ++ fresh ∧
     Forall (λ f, FeaturePoint.age f = 0%nat) fresh) ∧
  ∀ f, f ∈ activeFeatures e1 →
    ∃ (i k : nat) c,
      findMatch e1 f g g = Some c ∧
      candidates e1 f !! i = Some c ∧
      sad_at e1 f g g c = Fin 0 ∧
      (∀ d, d ∈ patch →
         level e1 g (c.1 + d.2) (c.2 + d.1)
           = level e1 g (FeaturePoint.x f + d.2) (FeaturePoint.y f + d.1)) ∧
      (∀ (j : nat) c', (j < i)%nat → candidates e1 f !! j = Some c' →
         ∃ d, d ∈ patch ∧
           level e1 g (c'.1 + d.2) (c'.2 + d.1)
             ≠ level e1 g (FeaturePoint.x f + d.2) (FeaturePoint.y f + d.1)) ∧
      candidates e1 f !! k = Some (FeaturePoint.x f, FeaturePoint.y f) ∧
      (i ≤ k)%nat ∧
      (c.1 - FeaturePoint.x f = 0 ∧ c.2 - FeaturePoint.y f = 0 ↔ i = k).
Proof.
  intros Hreach e1 g.
  pose proof (engine_well_formed _ (reach_process e0 frameData threshold1 Hreach))
    as (Hgray & Hin & _). fold e1 in Hgray, Hin.
  assert (width e1 = width e0 ∧ height e1 = height e0 ∧ prevGray e1 = Some g)
    as (Hw & Hh & Hprev).
  { subst e1 g. destruct (prevGray e0) as [prev|] eqn:Hprev.
    - by destruct (process_next e0 frameData threshold1 prev Hprev)
        as (? & ? & ? & _).
    - rewrite process_first by done. cbn zeta. cbn [fst].
      by destruct (detectNewFeatures_replenished (toGrayscale e0 frameData)
                     threshold1
                     (set_prevGray (Some (toGrayscale e0 frameData)) e0))
        as (? & ? & ? & _). }
  assert (toGrayscale e1 frameData = g) as Hsame by by apply toGrayscale_dims.
  split; [done|]. split; [done|]. split.
  - destruct (process_next e1 frameData threshold2 g Hprev)
      as (_ & _ & _ & _ & _ & _ & fresh & Hf & Hgrid & _).
    exists fresh. split.
    + by rewrite Hf, Hsame, track_omap.
    + eapply Forall_impl; [exact Hgrid|]. by intros f (_ & _ & _ & _ & ?).
  - intros f Hf.
    pose proof (proj1 (Forall_forall _ _) Hin f Hf) as Hfin.
    destruct (findMatch_identical_patch e1 f g (Hgray g Hprev) Hfin)
      as (i & k & c & Hm & Hi & Heq & Hne & Hk & Hik & Hv).
    exists i, k, c. split; [done|]. split; [done|]. split; [|done].
    rewrite sad_at_patch_sad; try done; try by apply Hgray.
    + f_equal. by apply (proj2 (patch_sad_zero _ _ _ _ _)).
    + eapply elem_of_candidates, list_elem_of_lookup_2, Hi.
Qed.

Lemma identical_frames_first_zero_witness :
  let e1 := (process (new 31 31) (Frames.stripes 31 31) 30).1 in
  let g := toGrayscale (new 31 31) (Frames.stripes 31 31) in
  let f := FeaturePoint.mk 15 15 0 0 510 0 0 in
  reachable (new 31 31) ∧
  activeFeatures e1 = [f] ∧
  findMatch e1 f g g = Some (9, 8) ∧
  ∃ (i k : nat) c,
    findMatch e1 f g g = Some c ∧
    candidates e1 f !! i = Some c ∧
    (∀ d, d ∈ patch →
       level e1 g (c.1 + d.2) (c.2 + d.1) = level e1 g (15 + d.2) (15 + d.1)) ∧
    (∀ (j : nat) c', (j < i)%nat → candidates e1 f !! j = Some c' →
       ∃ d, d ∈ patch ∧
         level e1 g (c'.1 + d.2) (c'.2 + d.1) ≠ level e1 g (15 + d.2) (15 + d.1)) ∧
    candidates e1 f !! k = Some (15, 15) ∧ (i ≤ k)%nat.
Proof.
  intros e1 g f.
  assert (activeFeatures e1 = [f]) as Hfs by (vm_compute; reflexivity).
  split; [apply reach_new|]. split; [exact Hfs|].
  split; [vm_compute; reflexivity|].
  assert (f ∈ activeFeatures e1) as Hf by (rewrite Hfs; left).
  destruct (proj2 (proj2 (proj2
              (identical_frames_first_zero (new 31 31) (Frames.stripes 31 31)
                 30 30 (reach_new 31 31)))) f Hf)
    as (i & k & c & Hm & Hi & _ & Heq & Hne & Hk & Hik & _).
  exists i, k, c. split; [exact Hm|]. split; [exact Hi|].
  split; [exact Heq|]. split; [exact Hne|]. split; [exact Hk|exact Hik].
Defined.

(** C8, as stated, fails: a 2x1 engine given 5 bytes instead of 8 returns as
    for a frame of one white and one black pixel; the second pixel, whose
    green and blue bytes lie beyond the buffer, is read as 0. *)
Lemma process_accepts_short_buffer :
  let data := [xff; xff; xff; xff; xff] in
  length data ≠ (2 * 1 * 4)%nat ∧
  process (new 2 1) data 30
    = (mk 2 1 (Some [255; 0]) [] 0, mkOutput [] []) ∧
  process (new 2 1) data 30
    = process (new 2 1) (Frames.pixel xff ++ Frames.pixel x00) 30.
Proof. vm_compute. split; [lia|]. split; reflexivity. Qed.

(** C8, amended: [process] has no check on the size of the buffer and
    returns for every buffer.  The gray frame always has width x height
    entries; a pixel whose blue byte lies beyond the end of the buffer is 0;
    the bytes from width x height x 4 on are not read. *)
Theorem process_accepts_any_buffer e frameData threshold :
  length (toGrayscale e frameData) = (width e * height e)%nat ∧
  (∀ i : nat, (i < width e * height e)%nat →
     (length frameData ≤ i * 4 + 2)%nat →
     toGrayscale e frameData !! i = Some 0) ∧
  process e (take (width e * height e * 4) frameData) threshold
    = process e frameData threshold.
Proof.
  split; [apply toGrayscale_length|]. split.
  - intros i Hi Hshort. rewrite toGrayscale_lookup by done.
    rewrite (lookup_ge_None_2 frameData (i * 4 + 2)) by done.
    by rewrite toUint8Clamp_missing_blue.
  - unfold process. by rewrite toGrayscale_take.
Qed.

(** ** clusterFeatures *)

Lemma minimum_snoc z l v : minimum z (l ++ [v]) = Z.min (minimum z l) v.
Proof.
  unfold minimum. rewrite foldr_app. simpl.
  induction l as [|a l IH]; simpl; lia.
Qed.

Lemma maximum_snoc z l v : maximum z (l ++ [v]) = Z.max (maximum z l) v.
Proof.
  unfold maximum. rewrite foldr_app. simpl.
  induction l as [|a l IH]; simpl; lia.
Qed.

Lemma minimum_le z l v : v ∈ l → minimum z l ≤ v.
Proof.
  unfold minimum. induction 1; simpl; lia.
Qed.

Lemma maximum_ge z l v : v ∈ l → v ≤ maximum z l.
Proof.
  unfold maximum. induction 1; simpl; lia.
Qed.

Lemma minimum_attained z l : z ∈ l → minimum z l ∈ l.
Proof.
  unfold minimum. intros Hz.
  assert (foldr Z.min z l = z ∨ foldr Z.min z l ∈ l) as [->| ?]; [|done..].
  clear Hz. induction l as [|a l [IH|IH]]; simpl; [by left|..].
  - rewrite IH. destruct (Z.min_spec a z) as [[_ ->]|[_ ->]]; [right; left|by left].
  - right. destruct (Z.min_spec a (foldr Z.min z l)) as [[_ ->]|[_ ->]];
      [left|by right].
Qed.

Lemma maximum_attained z l : z ∈ l → maximum z l ∈ l.
Proof.
  unfold maximum. intros Hz.
  assert (foldr Z.max z l = z ∨ foldr Z.max z l ∈ l) as [->| ?]; [|done..].
  clear Hz. induction l as [|a l [IH|IH]]; simpl; [by left|..].
  - rewrite IH. destruct (Z.max_spec a z) as [[_ ->]|[_ ->]]; [by left|right; left].
  - right. destruct (Z.max_spec a (foldr Z.max z l)) as [[_ ->]|[_ ->]];
      [by right|left].
Qed.

(** The test of the inner loop is the coherence of section 4.4. *)
Lemma coherent_near f o : coherent f o = bool_decide (near f o).
Proof.
  assert (coherent f o = true ↔ near f o) as Hiff.
  { unfold coherent, sqrt_lt, near.
    rewrite !andb_true_iff, !bool_decide_eq_true. lia. }
  destruct (decide (near f o)) as [Hn|Hn].
  - rewrite bool_decide_eq_true_2 by done. by apply Hiff.
  - rewrite bool_decide_eq_false_2 by done.
    apply not_true_is_false. by rewrite Hiff.
Qed.

(** The inner loop computes the group of the seed together with the bounds
    of its members. *)
Lemma seed_cluster_gather moving f vis :
  let c := seed_cluster moving f vis in
  (group c, visited c) = gather moving f vis ∧
  minX c = minimum (FeaturePoint.x f) (FeaturePoint.x <$> group c) ∧
  maxX c = maximum (FeaturePoint.x f) (FeaturePoint.x <$> group c) ∧
  minY c = minimum (FeaturePoint.y f) (FeaturePoint.y <$> group c) ∧
  maxY c = maximum (FeaturePoint.y f) (FeaturePoint.y <$> group c) ∧
  ∃ rest, group c = f :: rest ∧
          Forall (λ o, o ∈ moving ∧ near f o) rest.
Proof.
  unfold seed_cluster, gather.
  induction moving as [|o moving IH] using rev_ind; cbn zeta.
  - simpl. unfold minimum, maximum. simpl.
    repeat split; try lia. by exists [].
  - rewrite !foldl_app. cbn [foldl]. cbn zeta in IH.
    destruct IH as (Hg & Hx0 & Hx1 & Hy0 & Hy1 & rest & Hrest & Hall).
    destruct (foldl _ _ moving) as [x0 x1 y0 y1 g v] eqn:Hc.
    cbn [group visited minX maxX minY maxY] in *.
    destruct (foldl _ ([f], _) moving) as [g' v'] eqn:Hgather.
    injection Hg as <- <-. unfold join. cbn [group visited minX maxX minY maxY fst snd].
    assert (Forall (λ o0, o0 ∈ moving ++ [o] ∧ near f o0) rest) as Hall'.
    { eapply Forall_impl; [exact Hall|]. intros o' [? ?]. split; [|done].
      apply elem_of_app. by left. }
    case_bool_decide; [by eauto 10|].
    rewrite coherent_near. case_bool_decide as Hco; [|by eauto 10].
    cbn [group visited minX maxX minY maxY].
    rewrite !fmap_app. cbn [fmap list_fmap].
    rewrite !minimum_snoc, !maximum_snoc.
    split; [done|]. do 4 (split; [congruence|]).
    exists (rest ++ [o]). split; [by rewrite Hrest|].
    apply Forall_app. split; [done|]. apply Forall_singleton.
    split; [|done]. apply elem_of_app. right. by left.
Qed.

Lemma blob_of_group_blob moving f vis :
  let c := seed_cluster moving f vis in
  group_blob (group c)
    = if bool_decide (3 ≤ length (group c))%nat then Some (blob_of c) else None.
Proof.
  cbn zeta.
  destruct (seed_cluster_gather moving f vis)
    as (_ & Hx0 & Hx1 & Hy0 & Hy1 & rest & Hrest & _).
  unfold group_blob, blob_of. rewrite Hx0, Hx1, Hy0, Hy1, Hrest.
  reflexivity.
Qed.

Lemma cluster_loop moving rest blobs vis :
  (foldl (cluster_seed moving) (blobs, vis) rest).1
    = blobs ++ omap group_blob (seed_groups moving rest vis).
Proof.
  revert blobs vis. induction rest as [|f rest IH]; intros blobs vis.
  - simpl. by rewrite app_nil_r.
  - cbn [foldl seed_groups]. unfold cluster_seed at 2. cbn [fst snd].
    case_bool_decide; [apply IH|]. cbn zeta.
    destruct (seed_cluster_gather moving f vis) as (Hg & _).
    rewrite <-Hg. cbn [fst snd]. rewrite IH.
    change (omap group_blob (?g :: ?l))
      with (match group_blob g with
            | Some b => b :: omap group_blob l
            | None => omap group_blob l
            end).
    rewrite blob_of_group_blob.
    case_bool_decide; [|done]. by rewrite <-app_assoc.
Qed.

Lemma seed_groups_of_seed moving rest vis :
  rest ⊆ moving → Forall (group_of_seed moving) (seed_groups moving rest vis).
Proof.
  revert vis. induction rest as [|f rest IH]; intros vis Hsub; simpl.
  - constructor.
  - assert (rest ⊆ moving) by set_solver.
    case_bool_decide; [by apply IH|].
    constructor; [|by apply IH].
    destruct (seed_cluster_gather moving f vis) as (Hg & _ & _ & _ & _ & r & Hr & Hall).
    rewrite <-Hg. cbn [fst]. exists f, r. split; [done|]. split; [set_solver|].
    eapply Forall_impl; [exact Hall|]. by intros o [? [? ?]].
Qed.

(** The box of a group's blob is tight around the members, 10 pixels away. *)
Lemma group_blob_box g b :
  group_blob g = Some b →
  RawBlob.pointCount b = length g ∧
  RawBlob.area b = (RawBlob.w b - 20) * (RawBlob.h b - 20) ∧
  (∀ m, m ∈ g →
     RawBlob.x b + 10 ≤ FeaturePoint.x m ≤ RawBlob.x b + RawBlob.w b - 10 ∧
     RawBlob.y b + 10 ≤ FeaturePoint.y m ≤ RawBlob.y b + RawBlob.h b - 10) ∧
  (∃ m, m ∈ g ∧ FeaturePoint.x m = RawBlob.x b + 10) ∧
  (∃ m, m ∈ g ∧ FeaturePoint.x m = RawBlob.x b + RawBlob.w b - 10) ∧
  (∃ m, m ∈ g ∧ FeaturePoint.y m = RawBlob.y b + 10) ∧
  (∃ m, m ∈ g ∧ FeaturePoint.y m = RawBlob.y b + RawBlob.h b - 10).
Proof.
  unfold group_blob. destruct g as [|f g]; [done|].
  set (ms := f :: g).
  case_bool_decide; [|done]. intros Hb. apply (inj Some) in Hb. subst b.
  cbn [RawBlob.pointCount RawBlob.area RawBlob.x RawBlob.y RawBlob.w RawBlob.h].
  assert (FeaturePoint.x f ∈ FeaturePoint.x <$> ms) as Hx
    by (apply list_elem_of_fmap; exists f; split; [done|left]).
  assert (FeaturePoint.y f ∈ FeaturePoint.y <$> ms) as Hy
    by (apply list_elem_of_fmap; exists f; split; [done|left]).
  split; [done|]. split; [f_equal; lia|]. split; [|repeat split].
  - intros m Hm.
    pose proof (minimum_le (FeaturePoint.x f) (FeaturePoint.x <$> ms)
                  (FeaturePoint.x m) (list_elem_of_fmap_2 _ _ _ Hm)).
    pose proof (maximum_ge (FeaturePoint.x f) (FeaturePoint.x <$> ms)
                  (FeaturePoint.x m) (list_elem_of_fmap_2 _ _ _ Hm)).
    pose proof (minimum_le (FeaturePoint.y f) (FeaturePoint.y <$> ms)
                  (FeaturePoint.y m) (list_elem_of_fmap_2 _ _ _ Hm)).
    pose proof (maximum_ge (FeaturePoint.y f) (FeaturePoint.y <$> ms)
                  (FeaturePoint.y m) (list_elem_of_fmap_2 _ _ _ Hm)).
    lia.
  - apply minimum_attained, list_elem_of_fmap in Hx as (m & Hm & ?).
    exists m. split; [done|lia].
  - apply maximum_attained, list_elem_of_fmap in Hx as (m & Hm & ?).
    exists m. split; [done|lia].
  - apply minimum_attained, list_elem_of_fmap in Hy as (m & Hm & ?).
    exists m. split; [done|lia].
  - apply maximum_attained, list_elem_of_fmap in Hy as (m & Hm & ?).
    exists m. split; [done|lia].
Qed.

(** ** Every coherent feature is gathered *)

(** The visited set after a scan holds the ids of the group on top of those
    before, and the id of every feature coherent with the seed. *)
Lemma gather_visited moving f vis :
  (gather moving f vis).2
    = vis ∪ list_to_set (FeaturePoint.id <$> (gather moving f vis).1) ∧
  (∃ rest, (gather moving f vis).1 = f :: rest) ∧
  ∀ o, o ∈ moving → near f o → FeaturePoint.id o ∈ (gather moving f vis).2.
Proof.
  unfold gather. induction moving as [|o' moving IH] using rev_ind.
  - cbn [foldl fst snd]. split; [set_solver|]. split; [by exists []|].
    by intros o ?%elem_of_nil.
  - rewrite foldl_app. cbn [foldl].
    destruct IH as (Hvis & [rest Hrest] & Hall).
    destruct (foldl _ _ moving) as [g v]. cbn [fst snd] in *.
    case_bool_decide as Hin; [|case_bool_decide as Hnear]; cbn [fst snd].
    + split; [done|]. split; [by exists rest|].
      intros o [Ho| ->%list_elem_of_singleton]%elem_of_app Hn; [by apply Hall|done].
    + split; [|split].
      * rewrite fmap_app, list_to_set_app_L. set_solver.
      * exists (rest ++ [o']). by rewrite Hrest.
      * intros o [Ho| ->%list_elem_of_singleton]%elem_of_app Hn;
          [apply elem_of_union_l; by apply Hall|set_solver].
    + split; [done|]. split; [by exists rest|].
      intros o [Ho| ->%list_elem_of_singleton]%elem_of_app Hn; [by apply Hall|done].
Qed.

Lemma elem_of_ids (o : FeaturePoint.t) (g : list FeaturePoint.t) :
  FeaturePoint.id o ∈ (list_to_set (FeaturePoint.id <$> g) : gset nat) ↔ same_id o g.
Proof.
  rewrite elem_of_list_to_set, list_elem_of_fmap. unfold same_id.
  split; intros (m & ? & ?); by exists m.
Qed.

(** A feature coherent with the seed of a group has the id of a member of
    that group or of an earlier one (or was visited before). *)
Lemma seed_groups_complete moving rest :
  ∀ vis (k : nat) g,
    seed_groups moving rest vis !! k = Some g →
    ∃ seed tl,
      g = seed :: tl ∧ seed ∈ rest ∧
      ∀ o, o ∈ moving → near seed o →
        FeaturePoint.id o ∈ vis ∨
        ∃ (k' : nat) g', (k' ≤ k)%nat ∧
          seed_groups moving rest vis !! k' = Some g' ∧ same_id o g'.
Proof.
  induction rest as [|f rest IH]; intros vis k g; cbn [seed_groups].
  - by rewrite lookup_nil.
  - case_bool_decide as Hvis.
    + intros Hk. destruct (IH vis k g Hk) as (seed & tl & -> & Hseed & Hall).
      exists seed, tl. split; [done|]. split; [by right|done].
    + cbn zeta.
      destruct (gather_visited moving f vis) as (Hv & [tl0 Hhd] & Hnear).
      destruct k as [|k]; cbn [lookup list_lookup].
      * intros [= <-]. exists f, tl0. split; [done|]. split; [left|].
        intros o Ho Hn. specialize (Hnear o Ho Hn). rewrite Hv in Hnear.
        apply elem_of_union in Hnear as [?|Hin]; [by left|right].
        exists 0%nat, (gather moving f vis).1. split; [lia|]. split; [done|].
        by apply elem_of_ids.
      * intros Hk. destruct (IH _ k g Hk) as (seed & tl & -> & Hseed & Hall).
        exists seed, tl. split; [done|]. split; [by right|].
        intros o Ho Hn. destruct (Hall o Ho Hn) as [Hin|(k' & g' & Hle & Hk' & Hsame)].
        -- rewrite Hv in Hin. apply elem_of_union in Hin as [?|Hin]; [by left|right].
           exists 0%nat, (gather moving f vis).1. split; [lia|]. split; [done|].
           by apply elem_of_ids.
        -- right. exists (S k'), g'. split; [lia|]. by split.
Qed.

(** Every moving feature has the id of a member of some group. *)
Lemma seed_groups_cover moving rest :
  ∀ vis o, o ∈ rest →
    FeaturePoint.id o ∈ vis ∨
    ∃ g, g ∈ seed_groups moving rest vis ∧ same_id o g.
Proof.
  induction rest as [|f rest IH]; intros vis o Ho; cbn [seed_groups].
  - by apply elem_of_nil in Ho.
  - case_bool_decide as Hvis.
    + apply elem_of_cons in Ho as [->|Ho]; [by left|by apply IH].
    + cbn zeta.
      destruct (gather_visited moving f vis) as (Hv & [tl0 Hhd] & _).
      apply elem_of_cons in Ho as [->|Ho].
      * right. exists (gather moving f vis).1. split; [left|].
        exists f. split; [rewrite Hhd; left|done].
      * destruct (IH (gather moving f vis).2 o Ho) as [Hin|(g & Hg & Hsame)].
        -- rewrite Hv in Hin. apply elem_of_union in Hin as [?|Hin]; [by left|right].
           exists (gather moving f vis).1. split; [left|]. by apply elem_of_ids.
        -- right. exists g. split; [by right|done].
Qed.

(** Members of a group with the id of a moving feature are that feature,
    when ids are distinct. *)
Lemma same_id_member (moving g : list FeaturePoint.t) o :
  NoDup (FeaturePoint.id <$> moving) → o ∈ moving →
  (∀ m, m ∈ g → m ∈ moving) → same_id o g → o ∈ g.
Proof.
  intros Hdup Ho Hsub (m & Hm & Hid).
  assert (m = o) as <-; [|done].
  apply list_elem_of_lookup in Ho as [i Hi].
  apply Hsub, list_elem_of_lookup in Hm as [j Hj].
  assert (j = i) as ->; [|congruence].
  apply (NoDup_lookup _ j i (FeaturePoint.id o) Hdup);
    rewrite list_lookup_fmap; [rewrite Hj|rewrite Hi]; simpl; congruence.
Qed.

Lemma group_of_seed_members moving g m :
  group_of_seed moving g → m ∈ g → m ∈ moving.
Proof.
  intros (seed & rest & -> & Hseed & Hall) [->|Hm]%elem_of_cons; [done|].
  by destruct (proj1 (Forall_forall _ _) Hall m Hm).
Qed.

(** C6: the blobs of [clusterFeatures] are those of the seed groups of the
    moving features that have at least three members, in order, and every
    group of three or more gives a blob.  A group is its seed followed by
    moving features within distance 60 and velocity distance 2 of the seed;
    conversely every moving feature that close to the seed of a group is a
    member of that group or of an earlier one (when ids are distinct; in
    general a member has its id), and every moving feature is in some group.
    The box of a blob is the minimum and maximum of the members' coordinates
    widened by 10 on each side, its area the product of the extents before
    widening, its point count the size of the group. *)
Theorem clusterFeatures_groups e :
  let moving := List.filter is_moving (activeFeatures e) in
  let groups := seed_groups moving moving ∅ in
  clusterFeatures e = omap group_blob groups ∧
  Forall (group_of_seed moving) groups ∧
  (∀ f, f ∈ moving ↔
        f ∈ activeFeatures e ∧
        2 < 10 * (Z.abs (FeaturePoint.vx f) + Z.abs (FeaturePoint.vy f))) ∧
  (∀ (k : nat) g, groups !! k = Some g →
     ∃ seed tl, g = seed :: tl ∧
       ∀ o, o ∈ moving →
         (FeaturePoint.x seed - FeaturePoint.x o) ^ 2
           + (FeaturePoint.y seed - FeaturePoint.y o) ^ 2 < 60 ^ 2 →
         (FeaturePoint.vx seed - FeaturePoint.vx o) ^ 2
           + (FeaturePoint.vy seed - FeaturePoint.vy o) ^ 2 < 2 ^ 2 →
         ∃ (k' : nat) g', (k' ≤ k)%nat ∧ groups !! k' = Some g' ∧
           same_id o g' ∧
           (NoDup (FeaturePoint.id <$> activeFeatures e) → o ∈ g')) ∧
  (∀ o, o ∈ moving → ∃ g, g ∈ groups ∧ same_id o g) ∧
  (∀ g, g ∈ groups → (3 ≤ length g)%nat →
     ∃ b, group_blob g = Some b ∧ b ∈ clusterFeatures e) ∧
  (∀ g, is_Some (group_blob g) ↔ (3 ≤ length g)%nat) ∧
  (∀ g b, group_blob g = Some b →
     RawBlob.pointCount b = length g ∧
     RawBlob.area b = (RawBlob.w b - 20) * (RawBlob.h b - 20) ∧
     (∀ m, m ∈ g →
        RawBlob.x b + 10 ≤ FeaturePoint.x m ≤ RawBlob.x b + RawBlob.w b - 10 ∧
        RawBlob.y b + 10 ≤ FeaturePoint.y m ≤ RawBlob.y b + RawBlob.h b - 10) ∧
     (∃ m, m ∈ g ∧ FeaturePoint.x m = RawBlob.x b + 10) ∧
     (∃ m, m ∈ g ∧ FeaturePoint.x m = RawBlob.x b + RawBlob.w b - 10) ∧
     (∃ m, m ∈ g ∧ FeaturePoint.y m = RawBlob.y b + 10) ∧
     (∃ m, m ∈ g ∧ FeaturePoint.y m = RawBlob.y b + RawBlob.h b - 10)).
Proof.
  intros moving groups.
  assert (clusterFeatures e = omap group_blob groups) as Hblobs.
  { unfold clusterFeatures, cluster_moving. fold moving. by rewrite cluster_loop. }
  assert (Forall (group_of_seed moving) groups) as Hgroups
    by by apply seed_groups_of_seed.
  assert (∀ g, is_Some (group_blob g) ↔ (3 ≤ length g)%nat) as Hthree.
  { intros g. unfold group_blob. destruct g as [|f g]; simpl.
    - split; [by intros [? ?]|lia].
    - case_bool_decide; split; try done; try lia. }
  split; [done|]. split; [done|]. split; [|split; [|split; [|split; [|split]]]].
  - intros f. subst moving. rewrite list_elem_of_In, filter_In, <-list_elem_of_In.
    unfold is_moving. by rewrite bool_decide_eq_true.
  - intros k g Hk.
    destruct (seed_groups_complete moving moving ∅ k g Hk)
      as (seed & tl & -> & _ & Hall).
    exists seed, tl. split; [done|]. intros o Ho Hd Hv.
    destruct (Hall o Ho (conj Hd Hv)) as [[]%elem_of_empty|(k' & g' & Hle & Hk' & Hsame)].
    exists k', g'. split; [done|]. split; [done|]. split; [done|].
    intros Hdup. apply (same_id_member moving); [|done| |done].
    + subst moving. clear -Hdup.
      induction (activeFeatures e) as [|f fs IH]; [constructor|].
      apply NoDup_cons in Hdup as [Hf Hdup]. simpl.
      destruct (is_moving f); [|by apply IH]. simpl. apply NoDup_cons.
      split; [|by apply IH]. intros (m & Hid & Hm)%list_elem_of_fmap.
      apply Hf, list_elem_of_fmap. exists m. split; [done|].
      apply list_elem_of_In, filter_In in Hm as [Hm _]. by apply list_elem_of_In.
    + intros m Hm. eapply group_of_seed_members; [|exact Hm].
      exact (proj1 (Forall_forall _ _) Hgroups g' (list_elem_of_lookup_2 _ _ _ Hk')).
  - intros o Ho.
    by destruct (seed_groups_cover moving moving ∅ o Ho) as [[]%elem_of_empty|?].
  - intros g Hg Hlen. destruct (proj2 (Hthree g) Hlen) as [b Hb].
    exists b. split; [done|]. rewrite Hblobs. apply list_elem_of_omap. by exists g.
  - done.
  - apply group_blob_box.
Qed.

(** Three coherent moving features and a fourth far from them: one blob,
    of three points. *)
Lemma three_coherent_features_one_blob :
  clusterFeatures
    (mk 480 270 None
        [FeaturePoint.mk 100 100 2 1 300 0 4; FeaturePoint.mk 130 110 2 1 280 1 4;
         FeaturePoint.mk 115 140 3 1 320 2 4; FeaturePoint.mk 300 200 2 1 250 3 4]
        4)
    = [RawBlob.mk 90 90 50 60 1200 3].
Proof. vm_compute. reflexivity. Qed.

(** ** More on toGrayscale *)

Lemma floor_upto_bounds n v : 0 ≤ floor_upto n v ≤ Z.of_nat n.
Proof.
  induction n as [|k IH]; [done|]. cbn [floor_upto].
  destruct (PrimFloat.leb _ v); lia.
Qed.

Lemma toUint8Clamp_range v : 0 ≤ toUint8Clamp v ≤ 255.
Proof.
  unfold toUint8Clamp.
  destruct (PrimFloat.is_nan v); [lia|].
  destruct (PrimFloat.leb v 0); [lia|].
  destruct (PrimFloat.leb 255 v) eqn:Htop; [lia|].
  assert (floor_upto 255 v = floor_upto 254 v) as ->.
  { change (floor_upto 255 v)
      with (if PrimFloat.leb (PrimFloat.of_uint63 (Uint63.of_Z (Z.of_nat 255))) v
            then Z.of_nat 255 else floor_upto 254 v).
    change (PrimFloat.of_uint63 (Uint63.of_Z (Z.of_nat 255))) with 255%float.
    by rewrite Htop. }
  pose proof (floor_upto_bounds 254 v). cbv zeta.
  repeat (destruct (PrimFloat.ltb _ _) || destruct (Z.even _)); lia.
Qed.

Lemma gray_pixel_level (v : byte) :
  toUint8Clamp (weighted (Some v) (Some v) (Some v)) = Z.of_N (Byte.to_N v).
Proof. destruct v; vm_compute; reflexivity. Qed.

(** Every entry of the gray frame is a byte value, whatever the buffer. *)
Lemma toGrayscale_byte_range e frameData :
  Forall (λ g, 0 ≤ g ≤ 255) (toGrayscale e frameData).
Proof.
  unfold toGrayscale. apply Forall_fmap, Forall_forall. intros i _.
  apply toUint8Clamp_range.
Qed.

(** A pixel whose red, green and blue bytes are equal keeps that level: the
    rounding of the weighted sum never moves it. *)
Theorem toGrayscale_gray_pixel e frameData (i : nat) (v : byte) :
  (i < width e * height e)%nat →
  frameData !! (i * 4)%nat = Some v →
  frameData !! (i * 4 + 1)%nat = Some v →
  frameData !! (i * 4 + 2)%nat = Some v →
  toGrayscale e frameData !! i = Some (Z.of_N (Byte.to_N v)).
Proof.
  intros Hi Hr Hg Hb. rewrite toGrayscale_lookup by done.
  by rewrite Hr, Hg, Hb, gray_pixel_level.
Qed.

Lemma toGrayscale_gray_pixel_witness :
  toGrayscale (new 2 1) (Frames.pixel x80 ++ Frames.pixel x07) !! 1%nat
    = Some (Z.of_N (Byte.to_N x07)).
Proof.
  apply (toGrayscale_gray_pixel (new 2 1) _ 1 x07); [simpl; lia|done..].
Defined.

(** The alpha bytes are never read: two buffers that agree on every index
    that is not 3 modulo 4 give the same gray frame. *)
Theorem toGrayscale_ignores_alpha e frameData frameData' :
  (∀ j : nat, (j mod 4 ≠ 3)%nat → frameData !! j = frameData' !! j) →
  toGrayscale e frameData = toGrayscale e frameData'.
Proof.
  intros Hsame. unfold toGrayscale. apply list_fmap_ext. intros k i _.
  cbv beta. rewrite !Hsame; [done|..].
  - rewrite Nat.add_comm, Nat.Div0.mod_add. done.
  - rewrite Nat.add_comm, Nat.Div0.mod_add. done.
  - rewrite Nat.Div0.mod_mul. done.
Qed.

Lemma toGrayscale_ignores_alpha_witness :
  toGrayscale (new 1 1) [x10; x20; x30; xff] = toGrayscale (new 1 1) [x10; x20; x30; x00].
Proof.
  apply toGrayscale_ignores_alpha. intros [|[|[|[|j]]]] Hj; try done.
Defined.

(** ** More on detectNewFeatures *)

Lemma stride_steps_elem fuel from limit v :
  v ∈ stride_steps fuel from limit ↔
  ∃ q, 0 ≤ q < Z.of_nat fuel ∧ v = from + stride * q ∧ v < limit.
Proof.
  revert from. induction fuel as [|k IH]; intros from; cbn [stride_steps].
  - split; [by intros ?%elem_of_nil|]. intros (q & ? & _). lia.
  - case_bool_decide as Hlt.
    + rewrite elem_of_cons, IH. unfold stride. split.
      * intros [->|(q & Hq & -> & Hv)].
        -- exists 0. lia.
        -- exists (q + 1). lia.
      * intros (q & Hq & -> & Hv). destruct (decide (q = 0)) as [->|Hne].
        -- left. lia.
        -- right. exists (q - 1). lia.
    + split; [by intros ?%elem_of_nil|]. unfold stride.
      intros (q & ? & -> & ?). lia.
Qed.

Lemma stride_steps_sorted fuel from limit :
  StronglySorted Z.lt (stride_steps fuel from limit).
Proof.
  revert from. induction fuel as [|k IH]; intros from; cbn [stride_steps];
    [constructor|].
  case_bool_decide; [|constructor]. constructor; [apply IH|].
  apply Forall_forall. intros v Hv%stride_steps_bounds. unfold stride in Hv. lia.
Qed.

(** The detection grid along an axis of [n] pixels: the positive multiples
    of 15 below [n - 15], in increasing order; for the 480 x 270 analysis
    frame, 30 columns and 16 rows. *)
Theorem grid_axis_multiples (n : nat) :
  (∀ v, v ∈ grid_axis n ↔ ∃ q, 1 ≤ q ∧ v = 15 * q ∧ v < Z.of_nat n - 15) ∧
  StronglySorted Z.lt (grid_axis n) ∧
  length (grid_axis 480) = 30%nat ∧ length (grid_axis 270) = 16%nat.
Proof.
  split; [|split; [apply stride_steps_sorted|split; reflexivity]].
  intros v. unfold grid_axis. rewrite stride_steps_elem. unfold stride. split.
  - intros (q & Hq & -> & Hv). exists (q + 1). lia.
  - intros (q & Hq & -> & Hv). exists (q - 1). lia.
Qed.

Lemma grid_axis_small (n : nat) : (n ≤ 30)%nat → grid_axis n = [].
Proof.
  intros Hn. destruct (grid_axis n) as [|v l] eqn:Hg; [done|].
  assert (v ∈ grid_axis n) as Hv by (rewrite Hg; left).
  apply grid_axis_bounds in Hv. unfold stride in Hv. lia.
Qed.

(** A loop whose iterations all leave the state alone leaves it alone. *)
Lemma for_each_unchanged {A S} (body : A → S → flow S) (l : list A) (s : S) :
  (∀ a, a ∈ l → flow_state (body a s) = s) →
  flow_state (for_each body l s) = s.
Proof.
  induction l as [|a l IH]; intros Hbody; cbn [for_each]; [done|].
  pose proof (Hbody a (list_elem_of_here _ _)) as Ha.
  destruct (body a s) as [s'|s']; simpl in Ha; subst s'; [|done].
  apply IH. intros. apply Hbody. by right.
Qed.

Lemma aget_replicate (n : nat) (v : Z) (i : Z) :
  0 ≤ i < Z.of_nat n → aget (replicate n v) i = Some v.
Proof.
  intros Hi. unfold aget. case_bool_decide; [lia|].
  apply lookup_replicate_2. lia.
Qed.

Lemma corner_score_flat e v x y :
  stride ≤ x < W e - stride → stride ≤ y < H e - stride →
  corner_score e (replicate (width e * height e) v) x y = Fin 0.
Proof.
  unfold stride. intros Hx Hy. unfold corner_score. cbv zeta.
  assert (∀ i, 0 ≤ i < W e * H e →
            aget (replicate (width e * height e) v) i = Some v) as Hget.
  { intros i Hi. apply aget_replicate. rewrite Nat2Z.inj_mul. done. }
  rewrite !Hget by (unfold W, H in *; nia).
  cbn. by rewrite Z.sub_diag.
Qed.

(** On a frame of one gray level the detector finds nothing, for every
    threshold that is not negative. *)
Lemma detectNewFeatures_flat e v threshold :
  0 ≤ threshold →
  detectNewFeatures (replicate (width e * height e) v) threshold e = e.
Proof.
  intros Hthr. unfold detectNewFeatures.
  apply for_each_unchanged. intros y Hy%grid_axis_bounds.
  apply for_each_unchanged. intros x Hx%grid_axis_bounds.
  unfold detect_at. case_bool_decide; [done|].
  destruct (tracked_near _ _ _); [done|].
  rewrite corner_score_flat by done.
  case_bool_decide; [lia|done].
Qed.


Lemma detectNewFeatures_small gray threshold e :
  (width e ≤ 30 ∨ height e ≤ 30)%nat → detectNewFeatures gray threshold e = e.
Proof.
  intros Hsmall. unfold detectNewFeatures.
  apply for_each_unchanged. intros y Hy.
  apply for_each_unchanged. intros x Hx.
  destruct Hsmall as [Hw|Hh].
  - rewrite grid_axis_small in Hx by done. by apply elem_of_nil in Hx.
  - rewrite grid_axis_small in Hy by done. by apply elem_of_nil in Hy.
Qed.

(** A call on an engine without features, when the detector finds nothing:
    only the previous frame changes. *)
Lemma process_idle e frameData threshold :
  activeFeatures e = [] →
  (∀ e', width e' = width e → height e' = height e →
         detectNewFeatures (toGrayscale e frameData) threshold e' = e') →
  process e frameData threshold
    = (mk (width e) (height e) (Some (toGrayscale e frameData)) []
          (nextFeatureId e),
       mkOutput [] []).
Proof.
  intros Hnone Hdet. destruct e as [w h prev fs n]. simpl in Hnone. subst fs.
  unfold process. cbn [prevGray activeFeatures].
  destruct prev as [prev|].
  - change (track _ prev _ []) with (@nil FeaturePoint.t).
    cbn [set_activeFeatures activeFeatures length width height prevGray
         nextFeatureId].
    rewrite bool_decide_eq_true_2 by lia.
    rewrite Hdet by done. reflexivity.
  - rewrite Hdet by done. reflexivity.
Qed.

Lemma flat_lookup (l : list nat) (v : byte) (i k : nat) :
  (i < length l)%nat → (k < 4)%nat →
  (l ≫= λ _, Frames.pixel v) !! (i * 4 + k)%nat = Frames.pixel v !! k.
Proof.
  revert i. induction l as [|a l IH]; intros i Hi Hk; simpl in Hi; [lia|].
  cbn [mbind list_bind]. destruct i as [|i].
  - by rewrite lookup_app_l by (simpl; lia).
  - rewrite lookup_app_r by (simpl; lia).
    replace (S i * 4 + k - length (Frames.pixel v))%nat with (i * 4 + k)%nat
      by (simpl; lia).
    apply IH; lia.
Qed.

Lemma toGrayscale_flat e v :
  toGrayscale e (Frames.flat (width e) (height e) v)
    = replicate (width e * height e) (Z.of_N (Byte.to_N v)).
Proof.
  apply list_eq. intros i.
  destruct (decide (i < width e * height e)%nat) as [Hi|Hi].
  - rewrite lookup_replicate_2 by done.
    assert (∀ k, (k < 3)%nat →
      Frames.flat (width e) (height e) v !! (i * 4 + k)%nat = Some v) as Hpx.
    { intros k Hk. unfold Frames.flat.
      rewrite flat_lookup by (rewrite ?length_seq; lia).
      by destruct k as [|[|[|k]]]; [..|lia]. }
    rewrite toGrayscale_lookup by done.
    rewrite <-(Nat.add_0_r (i * 4)) at 1. rewrite !Hpx by lia.
    by rewrite gray_pixel_level.
  - rewrite !lookup_ge_None_2; [done|..].
    + rewrite length_replicate. lia.
    + rewrite toGrayscale_length. lia.
Qed.

(** A frame whose pixels all have the same gray level [v], whatever their
    colours, on an engine without features: no feature is detected and no
    blob reported, on the first call and on later ones; only the stored
    frame changes. *)
Theorem process_flat_frame e frameData v threshold :
  0 ≤ threshold → activeFeatures e = [] →
  (∀ i : nat, (i < width e * height e)%nat →
     toGrayscale e frameData !! i = Some v) →
  process e frameData threshold
    = (mk (width e) (height e) (Some (replicate (width e * height e) v))
          [] (nextFeatureId e),
       mkOutput [] []) ∧
  toGrayscale e frameData = replicate (width e * height e) v.
Proof.
  intros Hthr Hnone Hgray.
  assert (toGrayscale e frameData = replicate (width e * height e) v) as Hflat.
  { apply list_eq. intros i.
    destruct (decide (i < width e * height e)%nat) as [Hi|Hi].
    - by rewrite Hgray, lookup_replicate_2.
    - rewrite !lookup_ge_None_2; [done|..].
      + rewrite length_replicate. lia.
      + rewrite toGrayscale_length. lia. }
  split; [|done].
  rewrite process_idle; [by rewrite Hflat|done|].
  intros e' Hw Hh. rewrite Hflat, <-Hw, <-Hh.
  by apply detectNewFeatures_flat.
Qed.

(** A red frame: every pixel has gray level 76. *)
Lemma process_flat_frame_witness :
  (∀ i : nat, (i < 40 * 35)%nat →
     toGrayscale (new 40 35) (Frames.solid 40 35 xff x00 x00) !! i = Some 76) ∧
  process (new 40 35) (Frames.solid 40 35 xff x00 x00) 30
    = (mk 40 35 (Some (replicate (40 * 35) 76)) [] 0, mkOutput [] []).
Proof.
  assert (∀ i : nat, (i < 40 * 35)%nat →
     toGrayscale (new 40 35) (Frames.solid 40 35 xff x00 x00) !! i = Some 76)
    as Hgray.
  { assert (toGrayscale (new 40 35) (Frames.solid 40 35 xff x00 x00)
            = replicate (40 * 35) 76) as -> by (vm_compute; reflexivity).
    intros i Hi. by apply lookup_replicate_2. }
  split; [exact Hgray|].
  apply (process_flat_frame (new 40 35) _ 76 30); [lia|done|exact Hgray].
Defined.

(** The same for the frames of one gray colour: the level is the byte. *)
Lemma process_gray_frame e (v : byte) threshold :
  0 ≤ threshold → activeFeatures e = [] →
  process e (Frames.flat (width e) (height e) v) threshold
    = (mk (width e) (height e)
          (Some (replicate (width e * height e) (Z.of_N (Byte.to_N v))))
          [] (nextFeatureId e),
       mkOutput [] []).
Proof.
  intros Hthr Hnone. rewrite process_idle; [by rewrite toGrayscale_flat|done|].
  intros e' Hw Hh. rewrite toGrayscale_flat, <-Hw, <-Hh.
  by apply detectNewFeatures_flat.
Qed.

(** An engine narrower or lower than 31 pixels has an empty detection grid:
    it never has a feature and never reports a blob. *)
Theorem small_engine_idle e frameData threshold :
  reachable e → (width e ≤ 30 ∨ height e ≤ 30)%nat →
  activeFeatures e = [] ∧
  (process e frameData threshold).2 = mkOutput [] [].
Proof.
  intros Hreach Hsmall.
  assert (activeFeatures e = []) as Hnone.
  { induction Hreach as [w h|e data thr Hreach IH|e _ _]; [done| |done].
    destruct (prevGray e) as [prev|] eqn:Hprev.
    - destruct (process_next e data thr prev Hprev) as (Hw & Hh & _).
      rewrite Hw, Hh in Hsmall. specialize (IH Hsmall).
      rewrite process_idle; [done..|].
      intros e' Hw' Hh'. apply detectNewFeatures_small. by rewrite Hw', Hh'.
    - assert (width (process e data thr).1 = width e ∧
              height (process e data thr).1 = height e) as [Hw Hh].
      { rewrite process_first by done. cbn zeta. cbn [fst].
        by destruct (detectNewFeatures_replenished (toGrayscale e data) thr
                       (set_prevGray (Some (toGrayscale e data)) e))
          as (? & ? & _). }
      rewrite Hw, Hh in Hsmall. specialize (IH Hsmall).
      rewrite process_idle; [done..|].
      intros e' Hw' Hh'. apply detectNewFeatures_small. by rewrite Hw', Hh'. }
  split; [done|]. rewrite process_idle; [done..|].
  intros e' Hw' Hh'. apply detectNewFeatures_small. by rewrite Hw', Hh'.
Qed.

Lemma small_engine_idle_witness :
  reachable (new 30 270) ∧
  (process (new 30 270) (Frames.flat 30 270 xff) 0).2 = mkOutput [] [].
Proof.
  split; [apply reach_new|].
  apply (small_engine_idle (new 30 270) _ 0 (reach_new 30 270)).
  left. simpl. lia.
Defined.

(** ** What the detector appends *)

Lemma detected_at_dims gray threshold e e' before f :
  width e' = width e → height e' = height e →
  detected_at gray threshold e before f → detected_at gray threshold e' before f.
Proof.
  unfold detected_at, corner_response, W. by intros -> ->.
Qed.

(** The score computed by the detector is the corner response: the sum of
    the absolute differences with the four neighbours, when all five pixels
    are in the frame, and not a number otherwise. *)
Lemma corner_score_response e gray x y s :
  corner_score e gray x y = Fin s ↔ corner_response e gray x y s.
Proof.
  unfold corner_score, corner_response. cbv zeta.
  replace (y * W e + x - 1) with (y * W e + (x - 1)) by lia.
  replace (y * W e + x + 1) with (y * W e + (x + 1)) by lia.
  replace (y * W e + x - W e) with ((y - 1) * W e + x) by lia.
  replace (y * W e + x + W e) with ((y + 1) * W e + x) by lia.
  destruct (aget gray (y * W e + x)) as [p|];
    [|split; [done|by intros (? & ? & ? & ? & ? & ? & _)]].
  destruct (aget gray (y * W e + (x - 1))) as [l|];
    [|split; [done|by intros (? & ? & ? & ? & ? & _ & ? & _)]].
  destruct (aget gray (y * W e + (x + 1))) as [r|];
    [|split; [done|by intros (? & ? & ? & ? & ? & _ & _ & ? & _)]].
  destruct (aget gray ((y - 1) * W e + x)) as [u|];
    [|split; [done|by intros (? & ? & ? & ? & ? & _ & _ & _ & ? & _)]].
  destruct (aget gray ((y + 1) * W e + x)) as [d|];
    [|split; [done|by intros (? & ? & ? & ? & ? & _ & _ & _ & _ & ? & _)]].
  cbn [abs_diff num_add]. split.
  - intros [= <-]. exists p, l, r, u, d. by repeat split.
  - intros (p' & l' & r' & u' & d' & Hp & Hl & Hr & Hu & Hd & ->).
    simplify_eq. f_equal; lia.
Qed.

Lemma detection_refl gray threshold e : detection gray threshold e e.
Proof.
  do 3 (split; [done|]). exists []. rewrite app_nil_r. simpl.
  split; [done|]. split; [lia|]. intros i f Hi. by rewrite lookup_nil in Hi.
Qed.

Lemma detection_trans gray threshold e1 e2 e3 :
  detection gray threshold e1 e2 → detection gray threshold e2 e3 →
  detection gray threshold e1 e3.
Proof.
  intros (Hw & Hh & Hp & f12 & Hf12 & Hn12 & Hd12)
         (Hw' & Hh' & Hp' & f23 & Hf23 & Hn23 & Hd23).
  split; [congruence|]. split; [congruence|]. split; [congruence|].
  exists (f12 ++ f23). split; [by rewrite Hf23, Hf12, app_assoc|].
  split; [rewrite length_app; lia|].
  intros i f Hi. apply lookup_app_Some in Hi as [Hi|[Hge Hi]].
  - destruct (Hd12 i f Hi) as [Hid Hdet]. split; [done|].
    apply lookup_lt_Some in Hi. by rewrite take_app_le by lia.
  - destruct (Hd23 _ f Hi) as [Hid Hdet]. split; [lia|].
    rewrite take_app_ge by done. rewrite app_assoc, <-Hf12.
    by apply (detected_at_dims gray threshold e2 e1).
Qed.

Lemma detect_at_detection gray threshold y x e :
  y ∈ grid_axis (height e) → x ∈ grid_axis (width e) →
  detection gray threshold e (flow_state (detect_at gray threshold y x e)).
Proof.
  intros Hy Hx. unfold detect_at.
  case_bool_decide as Hfull; [apply detection_refl|].
  destruct (tracked_near _ _ _) eqn:Hnear; [apply detection_refl|].
  destruct (corner_score _ _ _ _) as [score| |] eqn:Hscore;
    try apply detection_refl.
  case_bool_decide as Hthr; [|apply detection_refl]. cbn [flow_state].
  do 3 (split; [done|]). eexists. split; [done|].
  cbn [nextFeatureId length]. split; [lia|].
  intros [|i] f Hi; simpl in Hi; [|done]. injection Hi as <-.
  split; [simpl; lia|]. rewrite take_0, app_nil_r.
  unfold detected_at. cbn [FeaturePoint.x FeaturePoint.y FeaturePoint.score
    FeaturePoint.vx FeaturePoint.vy FeaturePoint.age].
  split; [done|]. split; [done|]. split; [by apply corner_score_response|].
  split; [done|]. split; [done|]. split; [lia|]. done.
Qed.

Lemma detectNewFeatures_detection gray threshold e :
  detection gray threshold e (detectNewFeatures gray threshold e).
Proof.
  unfold detectNewFeatures.
  set (R := λ e1 e2 : t,
         width e1 = width e → height e1 = height e →
         detection gray threshold e1 e2).
  assert (∀ e1, R e1 e1) as Hrefl by (intros ? _ _; apply detection_refl).
  assert (∀ e1 e2 e3, R e1 e2 → R e2 e3 → R e1 e3) as Htrans.
  { intros e1 e2 e3 H12 H23 Hw Hh. specialize (H12 Hw Hh).
    eapply detection_trans; [exact H12|].
    destruct H12 as (Hw' & Hh' & _). apply H23; congruence. }
  apply (for_each_preserves R); [done..| |done|done].
  intros y e1 Hy. apply (for_each_preserves R); [done..|].
  intros x e2 Hx Hw Hh. apply detect_at_detection; by rewrite ?Hw, ?Hh.
Qed.

Lemma tracked_near_false fs x y :
  tracked_near fs x y = false ↔
  Forall (λ f, 10 ≤ Z.abs (FeaturePoint.x f - x) ∨
               10 ≤ Z.abs (FeaturePoint.y f - y)) fs.
Proof.
  unfold tracked_near. induction fs as [|f fs IH]; simpl.
  - split; [constructor|done].
  - rewrite orb_false_iff, IH, Forall_cons, andb_false_iff,
      !bool_decide_eq_false.
    split; intros [Hf Hfs]; (split; [lia|done]).
Qed.

(** [detectNewFeatures] only appends features detected on the grid: each
    lies at a grid position, is at rest and of age 0 and takes the next id,
    and fewer than 200 features were active when it was made; every feature
    before it in the list is at least 10 pixels away in one of the
    coordinates; its score is the corner response there, the sum of the
    absolute differences between the gray level of the pixel and those of
    its left, right, upper and lower neighbours, and exceeds twice the
    threshold. *)
Theorem detectNewFeatures_detects gray threshold e :
  detection gray threshold e (detectNewFeatures gray threshold e) ∧
  ∀ pre f post,
    activeFeatures (detectNewFeatures gray threshold e) = pre ++ f :: post →
    (length (activeFeatures e) ≤ length pre)%nat →
    Forall (λ g, 10 ≤ Z.abs (FeaturePoint.x g - FeaturePoint.x f) ∨
                 10 ≤ Z.abs (FeaturePoint.y g - FeaturePoint.y f)) pre ∧
    threshold * 2 < FeaturePoint.score f ∧
    ∃ p left right up down,
      aget gray (FeaturePoint.y f * W e + FeaturePoint.x f) = Some p ∧
      aget gray (FeaturePoint.y f * W e + (FeaturePoint.x f - 1)) = Some left ∧
      aget gray (FeaturePoint.y f * W e + (FeaturePoint.x f + 1)) = Some right ∧
      aget gray ((FeaturePoint.y f - 1) * W e + FeaturePoint.x f) = Some up ∧
      aget gray ((FeaturePoint.y f + 1) * W e + FeaturePoint.x f) = Some down ∧
      FeaturePoint.score f
        = Z.abs (p - left) + Z.abs (p - right)
          + Z.abs (p - up) + Z.abs (p - down).
Proof.
  pose proof (detectNewFeatures_detection gray threshold e) as Hdet.
  split; [done|]. intros pre f post Hsplit Hlen.
  destruct Hdet as (_ & _ & _ & fresh & Hfresh & _ & Hall).
  rewrite Hfresh in Hsplit.
  assert (fresh !! (length pre - length (activeFeatures e))%nat = Some f) as Hf.
  { rewrite <-lookup_app_r, Hsplit by done.
    by rewrite lookup_app_r, Nat.sub_diag. }
  assert (activeFeatures e ++ take (length pre - length (activeFeatures e)) fresh
          = pre) as Hpre.
  { rewrite <-take_app_ge, Hsplit by done. by rewrite take_app_length. }
  destruct (Hall _ f Hf) as (_ & _ & _ & Hresp & Hscore & Hnear & _).
  rewrite Hpre in Hnear. split; [by apply tracked_near_false in Hnear|].
  split; [done|]. exact Hresp.
Qed.

(** On a frame of vertical stripes the pixel at (15, 15) is black between two
    white neighbours, above and below black ones: the feature made there
    has score 255 + 255 + 0 + 0. *)
Lemma detectNewFeatures_stripes :
  activeFeatures
    (detectNewFeatures (toGrayscale (new 31 31) (Frames.stripes 31 31)) 30
                       (new 31 31))
    = [FeaturePoint.mk 15 15 0 0 510 0 0].
Proof. vm_compute. reflexivity. Qed.

(** ** Feature ids and velocities *)

Lemma omap_ids (g : FeaturePoint.t → option FeaturePoint.t) fs :
  (∀ f f', g f = Some f' → FeaturePoint.id f' = FeaturePoint.id f) →
  NoDup (FeaturePoint.id <$> fs) → NoDup (FeaturePoint.id <$> omap g fs).
Proof.
  intros Hid. induction fs as [|f fs IH]; simpl; [done|].
  rewrite NoDup_cons. intros [Hf Hfs].
  destruct (g f) as [f'|] eqn:Hg; simpl; [|by apply IH].
  apply NoDup_cons. split; [|by apply IH].
  rewrite (Hid f f' Hg). intros (f2 & Hid2 & Hin)%list_elem_of_fmap.
  apply list_elem_of_omap in Hin as (f1 & Hin1 & Hg1).
  apply Hf, list_elem_of_fmap. exists f1. split; [|done].
  rewrite Hid2. by apply Hid.
Qed.

Lemma track_ids e prev gray fs :
  NoDup (FeaturePoint.id <$> fs) →
  NoDup (FeaturePoint.id <$> track e prev gray fs) ∧
  ∀ n, Forall (λ f, (FeaturePoint.id f < n)%nat) fs →
       Forall (λ f, (FeaturePoint.id f < n)%nat) (track e prev gray fs).
Proof.
  intros Hdup. rewrite track_omap. split.
  - apply omap_ids; [|done]. intros f f' Hf.
    destruct (findMatch e f prev gray); by simplify_eq/=.
  - intros n Hall. apply Forall_forall. intros f' Hf'.
    apply list_elem_of_omap in Hf' as (f & Hin & Hf).
    destruct (findMatch e f prev gray); simplify_eq/=.
    by apply (proj1 (Forall_forall _ _) Hall).
Qed.

Lemma detection_ids gray threshold e e' :
  detection gray threshold e e' →
  NoDup (FeaturePoint.id <$> activeFeatures e) →
  Forall (λ f, (FeaturePoint.id f < nextFeatureId e)%nat) (activeFeatures e) →
  NoDup (FeaturePoint.id <$> activeFeatures e') ∧
  Forall (λ f, (FeaturePoint.id f < nextFeatureId e')%nat) (activeFeatures e') ∧
  (nextFeatureId e ≤ nextFeatureId e')%nat.
Proof.
  intros (_ & _ & _ & fresh & -> & -> & Hfresh) Hdup Hlt.
  assert (∀ i f, fresh !! i = Some f →
            FeaturePoint.id f = (nextFeatureId e + i)%nat) as Hid
    by (intros i f Hi; by destruct (Hfresh i f Hi)).
  split; [|split; [|lia]].
  - rewrite fmap_app. apply NoDup_app. split; [done|]. split.
    + intros k (f & -> & Hf)%list_elem_of_fmap (f' & Hk & [i Hi]%list_elem_of_lookup)%list_elem_of_fmap.
      apply (proj1 (Forall_forall _ _) Hlt) in Hf. rewrite (Hid i f' Hi) in Hk. lia.
    + apply NoDup_alt. intros i j k Hi Hj.
      rewrite list_lookup_fmap in Hi, Hj.
      destruct (fresh !! i) as [f|] eqn:Hfi; [|done].
      destruct (fresh !! j) as [f'|] eqn:Hfj; [|done].
      simpl in Hi, Hj. rewrite (Hid i f Hfi) in Hi. rewrite (Hid j f' Hfj) in Hj.
      simplify_eq. lia.
  - apply Forall_app. split.
    + eapply Forall_impl; [exact Hlt|]. intros f ?. simpl in *. lia.
    + apply Forall_forall. intros f [i Hi]%list_elem_of_lookup.
      rewrite (Hid i f Hi). apply lookup_lt_Some in Hi. lia.
Qed.

Lemma process_ids e frameData threshold :
  NoDup (FeaturePoint.id <$> activeFeatures e) →
  Forall (λ f, (FeaturePoint.id f < nextFeatureId e)%nat) (activeFeatures e) →
  let e' := (process e frameData threshold).1 in
  NoDup (FeaturePoint.id <$> activeFeatures e') ∧
  Forall (λ f, (FeaturePoint.id f < nextFeatureId e')%nat) (activeFeatures e') ∧
  (nextFeatureId e ≤ nextFeatureId e')%nat.
Proof.
  intros Hdup Hlt. unfold process. destruct (prevGray e) as [prev|]; cbn zeta.
  - destruct (track_ids e prev (toGrayscale e frameData) (activeFeatures e) Hdup)
      as [Hdup' Hlt'].
    specialize (Hlt' _ Hlt).
    set (e1 := set_activeFeatures _ e). case_bool_decide; [|done].
    cbn [fst set_prevGray activeFeatures nextFeatureId].
    exact (detection_ids _ _ e1 _ (detectNewFeatures_detection _ _ e1) Hdup' Hlt').
  - cbn [fst]. set (e1 := set_prevGray _ e).
    exact (detection_ids _ _ e1 _ (detectNewFeatures_detection _ _ e1) Hdup Hlt).
Qed.

(** Feature ids come from a counter that never goes back between resets:
    the active features have distinct ids, all below the counter, and
    [process] never lowers the counter. *)
Theorem feature_ids_unique e frameData threshold :
  reachable e →
  NoDup (FeaturePoint.id <$> activeFeatures e) ∧
  Forall (λ f, (FeaturePoint.id f < nextFeatureId e)%nat) (activeFeatures e) ∧
  (nextFeatureId e ≤ nextFeatureId (process e frameData threshold).1)%nat.
Proof.
  intros Hreach.
  assert (NoDup (FeaturePoint.id <$> activeFeatures e) ∧
          Forall (λ f, (FeaturePoint.id f < nextFeatureId e)%nat)
                 (activeFeatures e)) as [Hdup Hlt].
  { induction Hreach as [w h|e data thr _ [Hdup Hlt]|e _ _].
    - split; constructor.
    - by destruct (process_ids e data thr Hdup Hlt) as (? & ? & _).
    - split; constructor. }
  split; [done|]. split; [done|].
  by destruct (process_ids e frameData threshold Hdup Hlt) as (_ & _ & ?).
Qed.

Lemma feature_ids_unique_witness :
  let e := (process (new 31 31) (Frames.stripes 31 31) 30).1 in
  reachable e ∧ NoDup (FeaturePoint.id <$> activeFeatures e).
Proof.
  intros e.
  assert (reachable e) as Hreach by apply reach_process, reach_new.
  split; [exact Hreach|].
  exact (proj1 (feature_ids_unique e [] 0 Hreach)).
Defined.

Lemma elem_of_raster dy dx :
  (dy, dx) ∈ raster → - halfS ≤ dy ≤ halfS ∧ - halfS ≤ dx ≤ halfS.
Proof.
  unfold raster. intros (y & Hin & Hy%elem_of_zrange)%list_elem_of_bind.
  apply list_elem_of_bind in Hin as (x & Hin & Hx%elem_of_zrange).
  apply list_elem_of_singleton in Hin. by simplify_eq.
Qed.

Lemma findMatch_window e f prev curr c :
  findMatch e f prev curr = Some c →
  - 7 ≤ c.1 - FeaturePoint.x f ≤ 7 ∧ - 7 ≤ c.2 - FeaturePoint.y f ≤ 7.
Proof.
  intros Hm. pose proof (findMatch_first_minimum e f prev curr) as Hmin.
  rewrite Hm in Hmin. destruct Hmin as (i & s & (Hi & _) & _).
  apply list_elem_of_lookup_2 in Hi. unfold candidates in Hi.
  apply list_elem_of_filter in Hi as [_ Hi].
  apply list_elem_of_fmap in Hi as ([dy dx] & -> & Hd%elem_of_raster).
  rewrite halfS_eq in Hd. simpl. lia.
Qed.

(** A feature never moves by more than 7 pixels in a coordinate per frame,
    its 7x7 patch always lies inside the frame, and a feature of age 0 is at
    rest. *)
Theorem feature_velocity_bounded e :
  reachable e →
  Forall (λ f,
            (- 7 ≤ FeaturePoint.vx f ≤ 7) ∧ (- 7 ≤ FeaturePoint.vy f ≤ 7) ∧
            (3 ≤ FeaturePoint.x f < W e - 3) ∧ (3 ≤ FeaturePoint.y f < H e - 3) ∧
            (FeaturePoint.age f = 0%nat →
             FeaturePoint.vx f = 0 ∧ FeaturePoint.vy f = 0))
         (activeFeatures e).
Proof.
  intros Hreach.
  pose proof (engine_well_formed e Hreach) as (_ & Hin & _).
  assert (Forall (λ f,
            (- 7 ≤ FeaturePoint.vx f ≤ 7) ∧ (- 7 ≤ FeaturePoint.vy f ≤ 7) ∧
            (FeaturePoint.age f = 0%nat →
             FeaturePoint.vx f = 0 ∧ FeaturePoint.vy f = 0))
          (activeFeatures e)) as Hvel.
  { clear Hin. induction Hreach as [w h|e data thr _ IH|e _ _];
      [constructor| |constructor].
    assert (∀ fresh, Forall (fresh_feature e) fresh →
              Forall (λ f, (- 7 ≤ FeaturePoint.vx f ≤ 7) ∧
                           (- 7 ≤ FeaturePoint.vy f ≤ 7) ∧
                           (FeaturePoint.age f = 0%nat →
                            FeaturePoint.vx f = 0 ∧ FeaturePoint.vy f = 0))
                     fresh) as Hfresh.
    { intros fresh Hfr. eapply Forall_impl; [exact Hfr|].
      intros f (_ & _ & -> & -> & _). lia. }
    destruct (prevGray e) as [prev|] eqn:Hprev.
    - destruct (process_next e data thr prev Hprev)
        as (_ & _ & _ & _ & _ & _ & fresh & -> & Hgrid & _).
      apply Forall_app. split; [|by apply Hfresh].
      rewrite track_omap. apply Forall_forall. intros f' Hf'.
      apply list_elem_of_omap in Hf' as (f & _ & Hf).
      destruct (findMatch e f prev _) as [c|] eqn:Hm; simplify_eq/=.
      apply findMatch_window in Hm. split; [lia|]. split; [lia|done].
    - rewrite process_first by done. cbn zeta. cbn [fst].
      destruct (detectNewFeatures_replenished (toGrayscale e data) thr
                  (set_prevGray (Some (toGrayscale e data)) e))
        as (_ & _ & _ & _ & fresh & -> & Hgrid).
      apply Forall_app. split; [done|]. by apply Hfresh. }
  rewrite Forall_forall in Hin, Hvel. apply Forall_forall. intros f Hf.
  destruct (Hvel f Hf) as (? & ? & ?).
  destruct (Hin f Hf) as [Hx Hy]. rewrite halfP_eq in Hx, Hy. simpl in Hx, Hy.
  done.
Qed.

Lemma feature_velocity_bounded_witness :
  let e1 := (process (new 31 31) (Frames.stripes 31 31) 30).1 in
  let e2 := (process e1 (Frames.stripes 31 31) 30).1 in
  reachable e2 ∧
  Forall (λ f, (- 7 ≤ FeaturePoint.vx f ≤ 7) ∧ (- 7 ≤ FeaturePoint.vy f ≤ 7))
         (activeFeatures e2).
Proof.
  intros e1 e2.
  assert (reachable e2) as Hreach by apply reach_process, reach_process, reach_new.
  split; [exact Hreach|].
  eapply Forall_impl; [exact (feature_velocity_bounded e2 Hreach)|].
  intros f (? & ? & _). done.
Defined.

(** ** More on clusterFeatures *)

Lemma clusterFeatures_omap e :
  clusterFeatures e =
    omap group_blob
      (seed_groups (List.filter is_moving (activeFeatures e))
                   (List.filter is_moving (activeFeatures e)) ∅).
Proof. unfold clusterFeatures, cluster_moving. by rewrite cluster_loop. Qed.

Lemma within_60 (dx dy : Z) : dx ^ 2 + dy ^ 2 < 60 ^ 2 → - 59 ≤ dx ≤ 59.
Proof. nia. Qed.

(** Every blob has at least 3 points; its box is between 20 and 138 pixels
    wide and high, and its area between 0 and 118 x 118. *)
Theorem blob_size_bounds e b :
  b ∈ clusterFeatures e →
  (3 ≤ RawBlob.pointCount b)%nat ∧
  20 ≤ RawBlob.w b ≤ 138 ∧ 20 ≤ RawBlob.h b ≤ 138 ∧
  0 ≤ RawBlob.area b ≤ 118 * 118.
Proof.
  rewrite clusterFeatures_omap. set (moving := List.filter is_moving _).
  intros (g & Hg & Hb)%list_elem_of_omap.
  pose proof (proj1 (Forall_forall _ _)
                (seed_groups_of_seed moving moving ∅ (reflexivity _)) g Hg)
    as (seed & rest & -> & _ & Hrest).
  assert (∀ m, m ∈ seed :: rest →
            - 59 ≤ FeaturePoint.x seed - FeaturePoint.x m ≤ 59 ∧
            - 59 ≤ FeaturePoint.y seed - FeaturePoint.y m ≤ 59) as Hnear.
  { intros m [->|Hm]%elem_of_cons; [lia|].
    apply (proj1 (Forall_forall _ _) Hrest) in Hm as (_ & Hd & _).
    split; [by eapply within_60|]. eapply within_60. by rewrite Z.add_comm. }
  destruct (group_blob_box _ b Hb)
    as (Hcount & Harea & _ & (x0 & Hx0 & Ex0) & (x1 & Hx1 & Ex1)
        & (y0 & Hy0 & Ey0) & (y1 & Hy1 & Ey1)).
  assert (3 ≤ length (seed :: rest))%nat as Hlen.
  { unfold group_blob in Hb. by case_bool_decide. }
  destruct (group_blob_box _ b Hb) as (_ & _ & Hbox & _).
  pose proof (Hbox seed (list_elem_of_here _ _)).
  pose proof (Hnear x0 Hx0). pose proof (Hnear x1 Hx1).
  pose proof (Hnear y0 Hy0). pose proof (Hnear y1 Hy1).
  split; [lia|]. split; [lia|]. split; [lia|]. rewrite Harea. nia.
Qed.

Lemma blob_size_bounds_witness :
  let fs := [FeaturePoint.mk 15 15 1 0 100 0 1; FeaturePoint.mk 30 15 1 0 100 1 1;
             FeaturePoint.mk 45 30 1 1 100 2 1] in
  let b := RawBlob.mk 5 5 50 35 450 3 in
  b ∈ clusterFeatures (mk 480 270 None fs 3) ∧ 20 ≤ RawBlob.w b ≤ 138.
Proof.
  intros fs b.
  assert (b ∈ clusterFeatures (mk 480 270 None fs 3)) as Hb
    by (vm_compute; left).
  split; [exact Hb|].
  exact (proj1 (proj2 (blob_size_bounds _ b Hb))).
Defined.

Lemma size_add (X : gset nat) (k : nat) : k ∉ X → size (X ∪ {[k]}) = S (size X).
Proof.
  intros Hk. rewrite size_union by set_solver. rewrite size_singleton. lia.
Qed.

Lemma gather_size moving f vis :
  FeaturePoint.id f ∉ vis →
  let s := gather moving f vis in
  size s.2 = (size vis + length s.1)%nat ∧
  s.2 ⊆ vis ∪ {[FeaturePoint.id f]} ∪ list_to_set (FeaturePoint.id <$> moving).
Proof.
  intros Hf. unfold gather.
  induction moving as [|o moving IH] using rev_ind; cbn zeta.
  - cbn [foldl fst snd length]. rewrite size_add by done.
    split; [lia|set_solver].
  - rewrite foldl_app. cbn [foldl]. cbn zeta in IH.
    destruct (foldl _ _ moving) as [g v]. cbn [fst snd] in *.
    destruct IH as [Hsize Hsub].
    rewrite fmap_app, list_to_set_app_L.
    case_bool_decide as Hin; [split; [done|set_solver]|].
    case_bool_decide; [|split; [done|set_solver]]. cbn [fst snd].
    rewrite size_add by done. rewrite length_app. cbn [length].
    split; [lia|]. cbn [fmap list_fmap]. set_solver.
Qed.

Lemma seed_groups_size moving rest vis :
  rest ⊆ moving →
  ∃ vis' : gset nat,
    size vis' = (size vis + sum_list (length <$> seed_groups moving rest vis))%nat ∧
    vis' ⊆ vis ∪ list_to_set (FeaturePoint.id <$> moving).
Proof.
  revert vis. induction rest as [|f rest IH]; intros vis Hsub; cbn [seed_groups].
  - exists vis. split; [simpl; lia|set_solver].
  - assert (rest ⊆ moving) as Hrest by set_solver.
    case_bool_decide as Hf; [by apply IH|].
    cbn zeta. destruct (gather_size moving f vis Hf) as [Hsize Hv].
    destruct (gather moving f vis) as [g v]. cbn [fst snd] in *.
    destruct (IH v Hrest) as (vis' & Hsize' & Hsub'). exists vis'.
    split; [cbn [fmap list_fmap sum_list_with id]; lia|].
    assert (FeaturePoint.id f ∈ (list_to_set (FeaturePoint.id <$> moving) : gset nat)).
    { apply elem_of_list_to_set, list_elem_of_fmap. exists f. split; [done|].
      apply Hsub. left. }
    set_solver.
Qed.

Lemma size_list_to_set_le (l : list nat) :
  (size (list_to_set l : gset nat) ≤ length l)%nat.
Proof.
  induction l as [|a l IH].
  { rewrite list_to_set_nil, size_empty. done. }
  rewrite list_to_set_cons. cbn [length].
  rewrite size_union_alt, size_singleton.
  assert (list_to_set l ∖ {[a]} ⊆ (list_to_set l : gset nat)) as Hsub
    by set_solver.
  apply subseteq_size in Hsub. lia.
Qed.

Lemma group_blob_count g b :
  group_blob g = Some b → RawBlob.pointCount b = length g ∧ (3 ≤ length g)%nat.
Proof.
  unfold group_blob. destruct g as [|f g]; [done|].
  case_bool_decide; [|done]. by intros [= <-].
Qed.

Lemma omap_blob_counts groups :
  (sum_list (RawBlob.pointCount <$> omap group_blob groups)
     ≤ sum_list (length <$> groups))%nat ∧
  (3 * length (omap group_blob groups)
     ≤ sum_list (RawBlob.pointCount <$> omap group_blob groups))%nat.
Proof.
  unfold omap. induction groups as [|g groups [IH1 IH2]];
    cbn [list_omap fmap list_fmap sum_list_with length id]; [lia|].
  destruct (group_blob g) as [b|] eqn:Hb;
    cbn [list_omap fmap list_fmap sum_list_with length id]; [|lia].
  apply group_blob_count in Hb as [-> ?]. lia.
Qed.

(** The blobs of a frame use every moving feature at most once: their point
    counts add up to at most the number of moving features, so there are at
    most a third as many blobs as moving features. *)
Theorem blobs_share_no_feature e :
  let moving := List.filter is_moving (activeFeatures e) in
  (sum_list (RawBlob.pointCount <$> clusterFeatures e) ≤ length moving)%nat ∧
  (3 * length (clusterFeatures e) ≤ length moving)%nat.
Proof.
  intros moving. rewrite clusterFeatures_omap. fold moving.
  destruct (seed_groups_size moving moving ∅ (reflexivity _))
    as (vis' & Hsize & Hsub).
  rewrite size_empty in Hsize.
  pose proof (subseteq_size _ _ Hsub) as Hle.
  rewrite (left_id_L ∅ (∪)) in Hle.
  pose proof (size_list_to_set_le (FeaturePoint.id <$> moving)) as Hids.
  rewrite length_fmap in Hids.
  pose proof (omap_blob_counts (seed_groups moving moving ∅)) as [H1 H2].
  lia.
Qed.

End EngineFacts.

(** ** The trajectory tracker *)

Module TrackerFacts.
Import BlobTracker Tracking.
#[local] Arguments spawn : simpl never.
#[local] Arguments push_point : simpl never.
#[local] Arguments match_blob : simpl never.
#[local] Arguments update : simpl never.

(** ** The order of doubles *)

(** [<] on doubles is a strict order, and total on the doubles that are not
    [NaN]; the proofs go through the specification [SFcompare] of the
    comparison. *)

Ltac sf_cases :=
  repeat match goal with
  | H : context [Z.compare ?a ?b] |- _ => destruct (Z.compare_spec a b); subst
  | |- context [Z.compare ?a ?b] => destruct (Z.compare_spec a b); subst
  | H : context [Pos.compare ?a ?b] |- _ => destruct (Pos.compare_spec a b); subst
  | |- context [Pos.compare ?a ?b] => destruct (Pos.compare_spec a b); subst
  end;
  cbn in *; try congruence; try lia.

Ltac sf_destruct x :=
  destruct x as [[]|[]| |[] ? ?].

Lemma SFltb_irrefl x : SFltb x x = false.
Proof.
  unfold SFltb, SFcompare. sf_destruct x; try done;
    change (Pos.compare_cont Eq ?a ?b) with (Pos.compare a b) in *; sf_cases.
Qed.

Lemma SFltb_trans x y z :
  SFltb x y = true → SFltb y z = true → SFltb x z = true.
Proof.
  unfold SFltb, SFcompare.
  sf_destruct x; sf_destruct y; try done; sf_destruct z; try done;
    change (Pos.compare_cont Eq ?a ?b) with (Pos.compare a b) in *;
    intros; sf_cases.
Qed.

Lemma SFltb_asym x y : SFltb x y = true → SFltb y x = false.
Proof.
  intros Hxy. destruct (SFltb y x) eqn:Hyx; [|done].
  pose proof (SFltb_trans _ _ _ Hxy Hyx) as Hxx.
  by rewrite SFltb_irrefl in Hxx.
Qed.

(** [b] is not [NaN], as it is below [t]; so if it is not below [m] it is
    above everything below [m]. *)
Lemma SFltb_between a b m t :
  SFltb a m = true → SFltb b m = false → SFltb b t = true →
  SFltb a b = true.
Proof.
  unfold SFltb, SFcompare.
  sf_destruct a; sf_destruct m; try done; sf_destruct b; try done;
    sf_destruct t; try done;
    change (Pos.compare_cont Eq ?a ?b) with (Pos.compare a b) in *;
    intros; sf_cases.
Qed.

Lemma ltb_irrefl (a : float) : PrimFloat.ltb a a = false.
Proof. rewrite ltb_spec. apply SFltb_irrefl. Qed.

Lemma ltb_trans (a b c : float) :
  PrimFloat.ltb a b = true → PrimFloat.ltb b c = true → PrimFloat.ltb a c = true.
Proof. rewrite !ltb_spec. apply SFltb_trans. Qed.

Lemma ltb_asym (a b : float) :
  PrimFloat.ltb a b = true → PrimFloat.ltb b a = false.
Proof. rewrite !ltb_spec. apply SFltb_asym. Qed.

Lemma ltb_between (a b m t : float) :
  PrimFloat.ltb a m = true → PrimFloat.ltb b m = false →
  PrimFloat.ltb b t = true → PrimFloat.ltb a b = true.
Proof. rewrite !ltb_spec. apply SFltb_between. Qed.

(** What is below some double is below [Infinity]. *)
Lemma ltb_infinity (a t : float) :
  PrimFloat.ltb a t = true → PrimFloat.ltb a infinity = true.
Proof.
  rewrite !ltb_spec.
  change (Prim2SF infinity) with (S754_infinity false).
  unfold SFltb, SFcompare.
  destruct (Prim2SF a) as [[]|[]| |[] ? ?]; try done;
    destruct (Prim2SF t) as [[]|[]| |[] ? ?]; done.
Qed.

(** ** The nearest trajectory in the gate *)

(** The distance computed by [update] is the Euclidean distance of
    section 4.6. *)
Lemma dist_euclidean blob p :
  dist blob p
    = euclidean (BlobPoint.x blob) (BlobPoint.y blob) (Point.x p) (Point.y p).
Proof. reflexivity. Qed.

Lemma in_gate_unique params matchedIds blob entry d d' :
  in_gate params matchedIds blob entry d →
  in_gate params matchedIds blob entry d' → d = d'.
Proof.
  intros (_ & _ & (p & Hp & ->) & _) (_ & _ & (p' & Hp' & ->) & _). congruence.
Qed.

Lemma consider_outcome blob params matchedIds i entry c :
  Trajectory.points entry.2 ≠ [] →
  (∃ d, in_gate params matchedIds blob entry d ∧
        closer d (minDistance c) ∧
        consider blob params matchedIds i entry c
          = Ok (mkCandidate (Some (i, entry)) d)) ∨
  (consider blob params matchedIds i entry c = Ok c ∧
   ∀ d, in_gate params matchedIds blob entry d →
        not_farther (minDistance c) d).
Proof.
  intros Hne. unfold consider.
  destruct (Trajectory.active entry.2) eqn:Hact; cbn [andb]; cycle 1.
  { right. split; [done|]. intros d (? & _). congruence. }
  case_bool_decide as Hm; cbn [negb]; cycle 1.
  - destruct (last (Trajectory.points entry.2)) as [p|] eqn:Hlast; cycle 1.
    { by apply last_None in Hlast. }
    cbv zeta. rewrite dist_euclidean.
    destruct (PrimFloat.ltb _ (_ * _)) eqn:Hgate; cbn [andb]; cycle 1.
    { right. split; [done|]. intros d (_ & _ & (p' & Hp' & ->) & Hd).
      assert (p' = p) as -> by congruence. unfold closer in Hd. congruence. }
    destruct (PrimFloat.ltb _ (minDistance c)) eqn:Hlt.
    + left. eexists. split; [|done]. repeat split; eauto.
    + right. split; [done|]. intros d (_ & _ & (p' & Hp' & ->) & _).
      assert (p' = p) as -> by congruence. done.
  - right. split; [done|]. by intros d (_ & ? & _).
Qed.

(** The inner loop returns, with the first of the nearest trajectories in
    the gate that is closer than the starting distance, if there is one. *)
Lemma nearest_outcome blob params matchedIds m :
  Forall (λ entry, Trajectory.points entry.2 ≠ []) m →
  ∀ i c,
    (nearest blob params matchedIds i m c = Ok c ∧
     ∀ (j : nat) entry d, m !! j = Some entry →
       in_gate params matchedIds blob entry d →
       not_farther (minDistance c) d) ∨
    (∃ (j : nat) entry d,
       m !! j = Some entry ∧ in_gate params matchedIds blob entry d ∧
       closer d (minDistance c) ∧
       nearest blob params matchedIds i m c
         = Ok (mkCandidate (Some ((i + j)%nat, entry)) d) ∧
       ∀ (j' : nat) entry' d', m !! j' = Some entry' →
         in_gate params matchedIds blob entry' d' →
         not_farther d d' ∧ ((j' < j)%nat → closer d d')).
Proof.
  unfold closer, not_farther.
  induction 1 as [|entry m Hne _ IH]; intros i c; cbn [nearest].
  - left. split; [done|]. intros j entry d Hj. by rewrite lookup_nil in Hj.
  - destruct (consider_outcome blob params matchedIds i entry c Hne)
      as [(d0 & Hg0 & Hlt0 & ->)|[-> Hno]]; cbn [mbind result_bind];
      unfold closer, not_farther in *.
    + right.
      destruct (IH (S i) (mkCandidate (Some (i, entry)) d0))
        as [[-> Hrest]|(j & e2 & d & Hj & Hg & Hlt & -> & Hmin)];
        cbn [minDistance] in *.
      * exists 0%nat, entry, d0. rewrite Nat.add_0_r.
        do 4 (split; [done|]). intros [|j'] entry' d' Hj' Hg'; simpl in Hj'.
        -- injection Hj' as <-. rewrite (in_gate_unique _ _ _ _ _ _ Hg0 Hg').
           split; [apply ltb_irrefl|lia].
        -- split; [|lia]. exact (Hrest j' entry' d' Hj' Hg').
      * exists (S j), e2, d. split; [done|]. split; [done|].
        split; [by eapply ltb_trans|].
        split; [by rewrite Nat.add_succ_r|].
        intros [|j'] entry' d' Hj' Hg'; simpl in Hj'.
        -- injection Hj' as <-. rewrite <-(in_gate_unique _ _ _ _ _ _ Hg0 Hg').
           split; [by apply ltb_asym|done].
        -- destruct (Hmin j' entry' d' Hj' Hg') as [Hle Hstrict].
           split; [done|]. intros ?. apply Hstrict. lia.
    + destruct (IH (S i) c)
        as [[-> Hrest]|(j & e2 & d & Hj & Hg & Hlt & -> & Hmin)].
      * left. split; [done|]. intros [|j'] entry' d' Hj' Hg'; simpl in Hj'.
        -- injection Hj' as <-. by apply Hno.
        -- by apply (Hrest j' entry').
      * right. exists (S j), e2, d. split; [done|]. split; [done|].
        split; [done|]. split; [by rewrite Nat.add_succ_r|].
        intros [|j'] entry' d' Hj' Hg'; simpl in Hj'.
        -- injection Hj' as <-. specialize (Hno d' Hg').
           assert (PrimFloat.ltb d d' = true) as Hdd.
           { destruct Hg' as (_ & _ & _ & Hgate).
             exact (ltb_between _ _ _ _ Hlt Hno Hgate). }
           split; [by apply ltb_asym|done].
        -- destruct (Hmin j' entry' d' Hj' Hg') as [Hle Hstrict].
           split; [done|]. intros ?. apply Hstrict. lia.
Qed.

(** ** One blob *)

Lemma map_set_fresh k v m : k ∉ m.*1 → map_set k v m = m ++ [(k, v)].
Proof.
  induction m as [|[k' v'] m IH]; simpl; [done|].
  intros Hk. apply not_elem_of_cons in Hk as [Hne Hk].
  case_bool_decide; [congruence|]. by rewrite IH.
Qed.

Lemma well_formed_points tr :
  well_formed tr →
  Forall (λ entry, Trajectory.points entry.2 ≠ []) (trajectories tr).
Proof.
  intros [_ Hok]. eapply Forall_impl; [exact Hok|].
  intros entry (_ & _ & Hlen) Hnil. rewrite Hnil in Hlen. simpl in Hlen. lia.
Qed.

Lemma well_formed_fresh tr : well_formed tr → nextId tr ∉ (trajectories tr).*1.
Proof.
  intros [_ Hok] (entry & Hk & Hin)%list_elem_of_fmap.
  apply (proj1 (Forall_forall _ _) Hok) in Hin as (Hkey & Hlt & _). lia.
Qed.

(** What [update] does with one blob: it makes a trajectory with the next id
    when no trajectory is in the gate, and otherwise extends the first of
    the nearest trajectories in the gate. *)
Lemma match_blob_outcome timestamp params tr matchedIds blob :
  well_formed tr →
  let p := Point.mk (BlobPoint.x blob) (BlobPoint.y blob) timestamp in
  ((∀ entry d, entry ∈ trajectories tr →
      ¬ in_gate params matchedIds blob entry d) ∧
   match_blob timestamp params (tr, matchedIds) blob
     = Ok (mk (trajectories tr ++ [(nextId tr, spawn (nextId tr) p)])
              (S (nextId tr)),
           matchedIds ∪ {[nextId tr]})) ∨
  (∃ (j : nat) k traj d,
     trajectories tr !! j = Some (k, traj) ∧
     in_gate params matchedIds blob (k, traj) d ∧
     (∀ (j' : nat) entry' d', trajectories tr !! j' = Some entry' →
        in_gate params matchedIds blob entry' d' →
        not_farther d d' ∧ ((j' < j)%nat → closer d d')) ∧
     match_blob timestamp params (tr, matchedIds) blob
       = Ok (mk (<[j := (k, extend traj p)]> (trajectories tr)) (nextId tr),
             matchedIds ∪ {[Trajectory.id traj]})).
Proof.
  intros Hwf p. unfold match_blob.
  destruct (nearest_outcome blob params matchedIds (trajectories tr)
              (well_formed_points tr Hwf) 0%nat (mkCandidate None infinity))
    as [[-> Hnone]|(j & [k traj] & d & Hj & Hg & _ & -> & Hmin)];
    cbn [mbind result_bind bestMatch].
  - left. split.
    + intros entry d [j Hj]%list_elem_of_lookup Hg.
      specialize (Hnone j entry d Hj Hg). cbn [minDistance] in Hnone.
      destruct Hg as (_ & _ & _ & Hgate). unfold closer, not_farther in *.
      apply ltb_infinity in Hgate. congruence.
    + by rewrite map_set_fresh by by apply well_formed_fresh.
  - right. by exists j, k, traj, d.
Qed.

Lemma push_point_length pts p :
  (1 ≤ length pts ≤ 50)%nat → (1 ≤ length (push_point pts p) ≤ 50)%nat.
Proof.
  intros Hlen. unfold push_point.
  destruct pts as [|p0 pts]; [simpl in Hlen; lia|].
  case_bool_decide as Hfull; simpl in *; rewrite !length_app in *;
    simpl in *; lia.
Qed.

Lemma entry_ok_mono n n' entry : (n ≤ n')%nat → entry_ok n entry → entry_ok n' entry.
Proof. intros Hle (? & ? & ?). repeat split; try done; lia. Qed.

(** One blob keeps the tracker well formed and changes the map as [blobs_step]
    says. *)
Lemma match_blob_step timestamp params tr matchedIds blob :
  well_formed tr →
  ∃ tr' matchedIds',
    match_blob timestamp params (tr, matchedIds) blob = Ok (tr', matchedIds') ∧
    well_formed tr' ∧
    blobs_step timestamp [blob] tr matchedIds tr' matchedIds'.
Proof.
  intros Hwf.
  destruct (match_blob_outcome timestamp params tr matchedIds blob Hwf)
    as [[Hnone ->]|(j & k & traj & d & Hj & Hg & _ & ->)];
    eexists _, _; (split; [done|]); destruct Hwf as [Hdup Hok] eqn:Hwf'; clear Hwf'.
  - split; [split|]; cbn [trajectories nextId].
    + rewrite fmap_app. apply NoDup_app. split; [done|]. split.
      * intros k Hk [->| []%elem_of_nil]%elem_of_cons.
        by apply (well_formed_fresh tr (conj Hdup Hok)).
      * apply NoDup_singleton.
    + apply Forall_app. split.
      * eapply Forall_impl; [exact Hok|]. intros ?. apply entry_ok_mono. lia.
      * apply Forall_singleton. unfold spawn, entry_ok. simpl. lia.
    + unfold blobs_step. cbn [trajectories nextId].
      split; [set_solver|]. split; [lia|]. split.
      * intros i old Hi. exists old. split; [by apply lookup_app_l_Some|].
        left. split; [done|].
        pose proof (proj1 (Forall_forall _ _) Hok _ (list_elem_of_lookup_2 _ _ _ Hi))
          as (_ & Hlt & _).
        intros [?|?%elem_of_singleton]%elem_of_union; [done|lia].
      * intros i new Hlen Hi.
        apply lookup_app_Some in Hi as [Hi|[_ Hi]].
        { apply lookup_lt_Some in Hi. lia. }
        apply list_lookup_singleton_Some in Hi as [_ <-]. cbn [fst snd].
        split; [|split; [lia|set_solver]].
        exists blob. split; [left|done].
  - pose proof (proj1 (Forall_forall _ _) Hok _ (list_elem_of_lookup_2 _ _ _ Hj))
      as (Hkey & Hlt & Hpts).
    cbn [fst snd] in Hkey, Hlt, Hpts.
    split; [split|]; cbn [trajectories nextId].
    + rewrite list_fmap_insert. cbn [fst].
      rewrite list_insert_id; [done|]. by rewrite list_lookup_fmap, Hj.
    + apply Forall_insert; [done|]. repeat split; cbn [fst snd extend
        Trajectory.id Trajectory.points]; try done; by apply push_point_length.
    + destruct Hg as (Hact & Hnot & _). cbn [fst snd] in Hact, Hnot.
      unfold blobs_step. cbn [trajectories nextId].
      split; [set_solver|]. split; [lia|]. split.
      * intros i old Hi. destruct (decide (i = j)) as [->|Hne].
        -- rewrite Hj in Hi. injection Hi as <-. eexists. split.
           ++ apply list_lookup_insert_eq. by eapply lookup_lt_Some.
           ++ right. cbn [fst snd]. repeat split; [done..|set_solver|].
              exists blob. split; [left|done].
        -- exists old. split; [by rewrite list_lookup_insert_ne|].
           left. split; [done|].
           intros [?|Hid%elem_of_singleton]%elem_of_union; [done|].
           destruct Hne.
           pose proof (proj1 (Forall_forall _ _) Hok _ (list_elem_of_lookup_2 _ _ _ Hi))
             as (Hkey' & _).
           apply (NoDup_lookup _ i j old.1 Hdup); rewrite list_lookup_fmap.
           ++ by rewrite Hi.
           ++ rewrite Hj. cbn [fmap option_fmap option_map fst]. congruence.
      * intros i new Hlen' Hi. apply lookup_lt_Some in Hi.
        rewrite length_insert in Hi. lia.
Qed.

(** ** All the blobs of a call *)

Lemma carried_id timestamp blobs m m' old new :
  carried timestamp blobs m m' old new →
  new.1 = old.1 ∧ Trajectory.id new.2 = Trajectory.id old.2 ∧
  Trajectory.active new.2 = Trajectory.active old.2 ∧
  Trajectory.color new.2 = Trajectory.color old.2.
Proof. by intros [[-> _]|(_ & _ & _ & blob & _ & ->)]. Qed.

Lemma blobs_step_refl timestamp tr matchedIds :
  blobs_step timestamp [] tr matchedIds tr matchedIds.
Proof.
  split; [done|]. split; [done|]. split.
  - intros i old Hi. exists old. split; [done|by left].
  - intros i new Hlen Hi. apply lookup_lt_Some in Hi. lia.
Qed.

Lemma blobs_step_trans timestamp blobs1 blobs2 tr m tr1 m1 tr2 m2 :
  Forall (λ entry, entry.1 = Trajectory.id entry.2) (trajectories tr1) →
  blobs_step timestamp blobs1 tr m tr1 m1 →
  blobs_step timestamp blobs2 tr1 m1 tr2 m2 →
  blobs_step timestamp (blobs1 ++ blobs2) tr m tr2 m2.
Proof.
  intros Hkeys (Hm1 & Hn1 & Hold1 & Hnew1) (Hm2 & Hn2 & Hold2 & Hnew2).
  split; [set_solver|]. split; [lia|]. split.
  - intros i old Hi.
    destruct (Hold1 i old Hi) as (mid & Hmid & Hc1).
    destruct (Hold2 i mid Hmid) as (new & Hnew & Hc2).
    exists new. split; [done|].
    destruct Hc2 as [[-> Hback2]|(Hact & Hnot & Hin & blob & Hblob & ->)].
    + destruct Hc1 as [[-> Hback1]|(Hact & Hnot & Hin & blob & Hblob & ->)].
      * left. split; [done|]. intros ?. by apply Hback1, Hback2.
      * right. repeat split; [done..|set_solver|].
        exists blob. split; [|done]. apply elem_of_app. by left.
    + destruct Hc1 as [[-> Hback1]|(Hact' & Hnot' & Hin' & blob' & Hblob' & ->)].
      * right. repeat split; [done|set_solver|done|].
        exists blob. split; [|done]. apply elem_of_app. by right.
      * by destruct Hnot.
  - intros i new Hlen Hi.
    destruct (decide (i < length (trajectories tr1))%nat) as [Hlt|Hge].
    + destruct (lookup_lt_is_Some_2 _ _ Hlt) as [mid Hmid].
      destruct (Hnew1 i mid Hlen Hmid) as ((blob & Hblob & Hsp) & Hid & Hin).
      destruct (Hold2 i mid Hmid) as (new' & Hnew' & Hc2).
      assert (new' = new) as -> by congruence.
      destruct Hc2 as [[-> _]|(_ & Hnot & _)].
      * split; [|split; [lia|set_solver]].
        exists blob. split; [|done]. apply elem_of_app. by left.
      * destruct Hnot. 
        pose proof (proj1 (Forall_forall _ _) Hkeys _
                      (list_elem_of_lookup_2 _ _ _ Hmid)) as <-. done.
    + destruct (Hnew2 i new) as ((blob & Hblob & Hsp) & Hid & Hin); [lia|done|].
      split; [|split; [lia|done]].
      exists blob. split; [|done]. apply elem_of_app. by right.
Qed.

Lemma well_formed_keys tr :
  well_formed tr →
  Forall (λ entry, entry.1 = Trajectory.id entry.2) (trajectories tr).
Proof.
  intros [_ Hok]. eapply Forall_impl; [exact Hok|]. by intros entry (? & _).
Qed.

(** The loop over the blobs returns, keeps the tracker well formed and
    changes the map as [blobs_step] says. *)
Lemma match_blobs_step timestamp params blobs :
  ∀ tr matchedIds,
    well_formed tr →
    ∃ tr' matchedIds',
      match_blobs timestamp params (tr, matchedIds) blobs = Ok (tr', matchedIds') ∧
      well_formed tr' ∧
      blobs_step timestamp blobs tr matchedIds tr' matchedIds'.
Proof.
  induction blobs as [|blob blobs IH]; intros tr matchedIds Hwf; cbn [match_blobs].
  - exists tr, matchedIds. split; [done|]. split; [done|]. apply blobs_step_refl.
  - destruct (match_blob_step timestamp params tr matchedIds blob Hwf)
      as (tr1 & m1 & -> & Hwf1 & Hstep1). cbn [mbind result_bind].
    destruct (IH tr1 m1 Hwf1) as (tr2 & m2 & -> & Hwf2 & Hstep2).
    exists tr2, m2. split; [done|]. split; [done|].
    apply (blobs_step_trans timestamp [blob] blobs tr matchedIds tr1 m1 tr2 m2);
      [by apply well_formed_keys|done..].
Qed.

(** ** update *)

Lemma deactivate_ok n matchedIds entry :
  entry_ok n entry → entry_ok n (deactivate matchedIds entry).
Proof. unfold deactivate. by case_bool_decide. Qed.

Lemma deactivate_key matchedIds entry : (deactivate matchedIds entry).1 = entry.1.
Proof. unfold deactivate. by case_bool_decide. Qed.

Lemma deactivate_inactive matchedIds entry :
  Trajectory.active entry.2 = false → deactivate matchedIds entry = entry.
Proof.
  unfold deactivate. case_bool_decide; [done|].
  destruct entry as [k [id pts act col]]. simpl. by intros ->.
Qed.

(** On a well-formed tracker [update] returns: the blobs are matched, the
    trajectories not matched are deactivated, and the values of the map are
    the result. *)
Lemma update_outcome tr blobs timestamp params :
  well_formed tr →
  ∃ tr1 matchedIds,
    match_blobs timestamp params (tr, ∅) blobs = Ok (tr1, matchedIds) ∧
    well_formed tr1 ∧
    blobs_step timestamp blobs tr ∅ tr1 matchedIds ∧
    let tr' := mk (deactivate matchedIds <$> trajectories tr1) (nextId tr1) in
    update tr blobs timestamp params = Ok (tr', (trajectories tr').*2) ∧
    well_formed tr'.
Proof.
  intros Hwf.
  destruct (match_blobs_step timestamp params blobs tr ∅ Hwf)
    as (tr1 & m1 & Hrun & Hwf1 & Hstep).
  exists tr1, m1. split; [done|]. split; [done|]. split; [done|].
  cbn zeta. split.
  - unfold update. by rewrite Hrun.
  - destruct Hwf1 as [Hdup Hok]. split; cbn [trajectories nextId].
    + rewrite <-list_fmap_compose.
      erewrite list_fmap_ext; [exact Hdup|]. intros i entry _. simpl.
      apply deactivate_key.
    + apply Forall_fmap. eapply Forall_impl; [exact Hok|].
      intros entry. apply deactivate_ok.
Qed.

Lemma tracker_well_formed tr : reachable tr → well_formed tr.
Proof.
  induction 1 as [|tr blobs timestamp params tr' out _ IH Hup|tr _ _].
  - split; constructor.
  - destruct (update_outcome tr blobs timestamp params IH)
      as (tr1 & m1 & _ & _ & _ & Hup' & Hwf').
    rewrite Hup in Hup'. by injection Hup' as -> _.
  - split; constructor.
Qed.

Lemma in_update_well_formed tr matchedIds :
  in_update tr matchedIds → well_formed tr.
Proof.
  induction 1 as [tr Hreach|tr m timestamp params blob tr' m' _ IH Hstep].
  - by apply tracker_well_formed.
  - destruct (match_blob_step timestamp params tr m blob IH)
      as (tr1 & m1 & Hstep' & Hwf1 & _).
    rewrite Hstep in Hstep'. by injection Hstep' as -> _.
Qed.

(** ** Properties of the tracker *)

(** Pushing on a history of 1 to 50 points: the oldest point goes when
    there are 50. *)
Lemma push_point_explicit pts p :
  (1 ≤ length pts ≤ 50)%nat →
  push_point pts p
    = (if bool_decide (length pts = 50%nat) then tail pts else pts) ++ [p].
Proof.
  intros Hlen. unfold push_point. rewrite length_app. cbn [length].
  destruct pts as [|p0 pts]; [simpl in Hlen; lia|].
  case_bool_decide as Hfull; case_bool_decide as H50; simpl in *; try done; lia.
Qed.

(** What a call does to the entries of the map, in terms of the set
    [matchedIds] at the end of the loop over the blobs. *)
Lemma update_entries tr blobs timestamp params :
  well_formed tr →
  ∃ tr1 matchedIds tr',
    match_blobs timestamp params (tr, ∅) blobs = Ok (tr1, matchedIds) ∧
    update tr blobs timestamp params = Ok (tr', (trajectories tr').*2) ∧
    well_formed tr' ∧
    trajectories tr' = deactivate matchedIds <$> trajectories tr1 ∧
    (∀ (i : nat) k old, trajectories tr !! i = Some (k, old) →
       ∃ new, trajectories tr' !! i = Some (k, new) ∧
         ((Trajectory.id old ∉ matchedIds) ∧
          new = Trajectory.mk (Trajectory.id old) (Trajectory.points old) false
                              (Trajectory.color old) ∨
          (Trajectory.id old ∈ matchedIds) ∧ Trajectory.active old = true ∧
          ∃ blob, blob ∈ blobs ∧
            new = Trajectory.mk (Trajectory.id old)
                    ((if bool_decide (length (Trajectory.points old) = 50%nat)
                      then tail (Trajectory.points old)
                      else Trajectory.points old)
                     ++ [Point.mk (BlobPoint.x blob) (BlobPoint.y blob) timestamp])
                    true (Trajectory.color old))) ∧
    (∀ (i : nat) k new, (length (trajectories tr) ≤ i)%nat →
       trajectories tr' !! i = Some (k, new) →
       (k ∈ matchedIds) ∧ (nextId tr ≤ k < nextId tr')%nat ∧
       ∃ blob, blob ∈ blobs ∧
         new = Trajectory.mk k
                 [Point.mk (BlobPoint.x blob) (BlobPoint.y blob) timestamp] true
                 (default ""%string (colors !! (k mod 10)%nat))).
Proof.
  intros Hwf.
  destruct (update_outcome tr blobs timestamp params Hwf)
    as (tr1 & m1 & Hrun & Hwf1 & (_ & _ & Hold & Hnew) & Hup & Hwf').
  cbn zeta in Hup. eexists tr1, m1, _. split; [done|]. split; [exact Hup|].
  split; [done|]. cbn [trajectories nextId]. split; [done|]. split.
  - intros i k old Hi. destruct (Hold i _ Hi) as (mid & Hmid & Hc).
    rewrite list_lookup_fmap, Hmid. cbn [fmap option_fmap option_map].
    pose proof (proj1 (Forall_forall _ _) (proj2 Hwf) _
                  (list_elem_of_lookup_2 _ _ _ Hi)) as (_ & _ & Hlen).
    cbn [fst snd] in *.
    destruct Hc as [[-> Hback]|(Hact & _ & Hin & blob & Hblob & ->)].
    + unfold deactivate. cbn [fst snd]. case_bool_decide as Hm.
      { by apply Hback, elem_of_empty in Hm. }
      eexists. split; [done|]. by left.
    + cbn [fst snd] in *. unfold deactivate. cbn [fst snd extend Trajectory.id].
      rewrite bool_decide_eq_true_2 by done.
      eexists. split; [done|]. right. split; [done|]. split; [done|].
      exists blob. split; [done|]. unfold extend.
      by rewrite push_point_explicit, Hact by done.
  - intros i k new Hlen Hi.
    rewrite list_lookup_fmap in Hi.
    destruct (trajectories tr1 !! i) as [mid|] eqn:Hmid; [|done].
    destruct (Hnew i mid Hlen Hmid) as ((blob & Hblob & Hsp) & Hid & Hin).
    destruct mid as [k' traj]. cbn [fst snd] in *. subst traj.
    cbn [fmap option_fmap option_map] in Hi. unfold deactivate in Hi.
    cbn [fst snd spawn Trajectory.id] in Hi.
    unfold spawn at 1 in Hi. cbn [Trajectory.id] in Hi.
    rewrite bool_decide_eq_true_2 in Hi by done. injection Hi as <- <-.
    split; [done|]. split; [done|]. by exists blob.
Qed.

(** C2: a call of [update] on a tracker that started from [new] returns.
    In its result a trajectory of the state before is either untouched and
    inactive (the id is not in [matchedIds]: no blob of the call got it), or
    it was active, is still active and has the point of one blob of the call
    pushed on its history (the id is in [matchedIds]); the trajectories
    behind them are new, active, and hold the point of one blob.  So every
    trajectory whose id is not in [matchedIds] is inactive, for every value
    of [persistence]. *)
Theorem update_deactivates_unmatched tr currentBlobs timestamp params :
  reachable tr →
  ∃ tr1 matchedIds tr',
    match_blobs timestamp params (tr, ∅) currentBlobs = Ok (tr1, matchedIds) ∧
    update tr currentBlobs timestamp params = Ok (tr', (trajectories tr').*2) ∧
    (∀ traj, traj ∈ (trajectories tr').*2 →
       Trajectory.id traj ∉ matchedIds → Trajectory.active traj = false) ∧
    (∀ (i : nat) k old, trajectories tr !! i = Some (k, old) →
       ∃ new, trajectories tr' !! i = Some (k, new) ∧
         ((Trajectory.id old ∉ matchedIds) ∧
          new = Trajectory.mk (Trajectory.id old) (Trajectory.points old) false
                              (Trajectory.color old) ∨
          (Trajectory.id old ∈ matchedIds) ∧ Trajectory.active old = true ∧
          ∃ blob, blob ∈ currentBlobs ∧
            new = Trajectory.mk (Trajectory.id old)
                    ((if bool_decide (length (Trajectory.points old) = 50%nat)
                      then tail (Trajectory.points old)
                      else Trajectory.points old)
                     ++ [Point.mk (BlobPoint.x blob) (BlobPoint.y blob) timestamp])
                    true (Trajectory.color old))) ∧
    (∀ (i : nat) k new, (length (trajectories tr) ≤ i)%nat →
       trajectories tr' !! i = Some (k, new) →
       (k ∈ matchedIds) ∧ (nextId tr ≤ k < nextId tr')%nat ∧
       ∃ blob, blob ∈ currentBlobs ∧
         new = Trajectory.mk k
                 [Point.mk (BlobPoint.x blob) (BlobPoint.y blob) timestamp] true
                 (default ""%string (colors !! (k mod 10)%nat))).
Proof.
  intros Hwf%tracker_well_formed.
  destruct (update_entries tr currentBlobs timestamp params Hwf)
    as (tr1 & m1 & tr' & Hrun & Hup & _ & Htr' & Hold & Hnew).
  exists tr1, m1, tr'. split; [done|]. split; [done|]. split; [|by split].
  rewrite Htr'.
  intros traj (e' & -> & (entry & -> & Hin)%list_elem_of_fmap)%list_elem_of_fmap.
  unfold deactivate. by case_bool_decide.
Qed.

(** A trajectory at (0, 0) and a blob far from it: the trajectory is
    deactivated, untouched, and the blob starts trajectory 1. *)
Lemma update_deactivates_unmatched_witness :
  let params := TrackingParams.mk 40 50 20000 1 3 true true true in
  let traj0 := Trajectory.mk 0 [Point.mk 0 0 0] true "#3b82f6" in
  let tr := mk [(0%nat, traj0)] 1 in
  reachable tr ∧
  update tr [BlobPoint.mk 1000 1000] 1 params
    = Ok (mk [(0%nat, Trajectory.mk 0 [Point.mk 0 0 0] false "#3b82f6");
              (1%nat, Trajectory.mk 1 [Point.mk 1000 1000 1] true "#ef4444")] 2,
          [Trajectory.mk 0 [Point.mk 0 0 0] false "#3b82f6";
           Trajectory.mk 1 [Point.mk 1000 1000 1] true "#ef4444"]) ∧
  ∃ (matchedIds : gset nat) tr',
    update tr [BlobPoint.mk 1000 1000] 1 params = Ok (tr', (trajectories tr').*2) ∧
    ∃ new, trajectories tr' !! 0%nat = Some (0%nat, new) ∧
      ((0%nat ∉ matchedIds) ∧
       new = Trajectory.mk 0 [Point.mk 0 0 0] false "#3b82f6" ∨
       (0%nat ∈ matchedIds) ∧ Trajectory.active traj0 = true ∧
       ∃ blob, blob ∈ [BlobPoint.mk 1000 1000] ∧
         new = Trajectory.mk 0
                 ([Point.mk 0 0 0]
                  ++ [Point.mk (BlobPoint.x blob) (BlobPoint.y blob) 1])
                 true "#3b82f6").
Proof.
  intros params traj0 tr.
  assert (update new [BlobPoint.mk 0 0] 0 params = Ok (tr, (trajectories tr).*2))
    as Hup by (vm_compute; reflexivity).
  assert (reachable tr) as Hreach
    by exact (reach_update _ _ _ _ _ _ reach_new Hup).
  split; [exact Hreach|]. split; [vm_compute; reflexivity|].
  destruct (update_deactivates_unmatched tr [BlobPoint.mk 1000 1000] 1 params Hreach)
    as (tr1 & m & tr' & _ & Hup' & _ & Hold & _).
  exists m, tr'. split; [exact Hup'|].
  exact (Hold 0%nat 0%nat traj0 eq_refl).
Defined.

(** C5, as stated, fails: with trajectories 0 and 1 ending at (0, 0) and
    (10, 0) and [persistence] 1, a blob at (9, 0) is within 50 of the last
    point of the active trajectory 0, and yet it extends trajectory 1, the
    nearer one; trajectory 0 keeps its single point and is deactivated. *)
Lemma nearer_trajectory_wins :
  let params := TrackingParams.mk 40 50 20000 1 3 true true true in
  let traj0 := Trajectory.mk 0 [Point.mk 0 0 0] true "#3b82f6" in
  let traj1 := Trajectory.mk 1 [Point.mk 10 0 0] true "#ef4444" in
  let tr := mk [(0%nat, traj0); (1%nat, traj1)] 2 in
  update new [BlobPoint.mk 0 0; BlobPoint.mk 10 0] 0 params
    = Ok (tr, [traj0; traj1]) ∧
  reachable tr ∧
  euclidean 9 0 0 0 = 9%float ∧
  PrimFloat.ltb 9 (TrackingParams.persistence params * 50) = true ∧
  ∃ tr',
    update tr [BlobPoint.mk 9 0] 1 params
      = Ok (tr', [Trajectory.mk 0 [Point.mk 0 0 0] false "#3b82f6";
                  Trajectory.mk 1 [Point.mk 10 0 0; Point.mk 9 0 1] true "#ef4444"]).
Proof.
  intros params traj0 traj1 tr.
  assert (update new [BlobPoint.mk 0 0; BlobPoint.mk 10 0] 0 params
          = Ok (tr, [traj0; traj1])) as Hup by (vm_compute; reflexivity).
  split; [exact Hup|]. split; [exact (reach_update _ _ _ _ _ _ reach_new Hup)|].
  split; [vm_compute; reflexivity|]. split; [vm_compute; reflexivity|].
  eexists. vm_compute. reflexivity.
Qed.

(** C5, amended: for a blob of a call of [update], if no trajectory is
    active, not yet matched in the call and with its last point at a
    Euclidean distance (in double precision) less than [persistence * 50],
    a trajectory with the blob's point is made at the end of the map with
    the value of the counter as id, which no trajectory has, and the counter
    goes up by one; otherwise the point of the blob is pushed on the history
    of one trajectory, which keeps its id and place: among those active, not
    yet matched and in that distance, the nearest one, and the first of them
    in the map when several are nearest. *)
Theorem blob_extends_nearest_or_spawns tr matchedIds timestamp params blob :
  in_update tr matchedIds →
  let p := Point.mk (BlobPoint.x blob) (BlobPoint.y blob) timestamp in
  ((∀ entry d, entry ∈ trajectories tr →
      ¬ in_gate params matchedIds blob entry d) →
   match_blob timestamp params (tr, matchedIds) blob
     = Ok (mk (trajectories tr
               ++ [(nextId tr,
                    Trajectory.mk (nextId tr) [p] true
                      (default ""%string (colors !! (nextId tr mod 10)%nat)))])
              (S (nextId tr)),
           matchedIds ∪ {[nextId tr]}) ∧
   ∀ entry, entry ∈ trajectories tr →
     (Trajectory.id entry.2 < nextId tr)%nat) ∧
  (∀ entry0 d0, entry0 ∈ trajectories tr →
     in_gate params matchedIds blob entry0 d0 →
     ∃ (j : nat) k traj d,
       trajectories tr !! j = Some (k, traj) ∧
       in_gate params matchedIds blob (k, traj) d ∧
       (∀ (j' : nat) entry' d', trajectories tr !! j' = Some entry' →
          in_gate params matchedIds blob entry' d' →
          not_farther d d' ∧ ((j' < j)%nat → closer d d')) ∧
       match_blob timestamp params (tr, matchedIds) blob
         = Ok (mk (<[j := (k,
                     Trajectory.mk (Trajectory.id traj)
                       ((if bool_decide (length (Trajectory.points traj) = 50%nat)
                         then tail (Trajectory.points traj)
                         else Trajectory.points traj) ++ [p])
                       true (Trajectory.color traj))]>
                     (trajectories tr))
                  (nextId tr),
               matchedIds ∪ {[Trajectory.id traj]})).
Proof.
  intros Hwf%in_update_well_formed p.
  destruct (match_blob_outcome timestamp params tr matchedIds blob Hwf)
    as [[Hnone Hspawn]|(j & k & traj & d & Hj & Hg & Hmin & Hext)]; split.
  - intros _. split; [done|]. intros entry Hin. destruct Hwf as [_ Hok].
    by apply (proj1 (Forall_forall _ _) Hok) in Hin as (_ & ? & _).
  - intros entry0 d0 Hin Hg. by destruct (Hnone entry0 d0 Hin).
  - intros Hnone. destruct (Hnone (k, traj) d); [|done].
    by eapply list_elem_of_lookup_2.
  - intros _ _ _ _. exists j, k, traj, d.
    split; [done|]. split; [done|]. split; [done|]. rewrite Hext.
    pose proof (proj1 (Forall_forall _ _) (proj2 Hwf) _
                  (list_elem_of_lookup_2 _ _ _ Hj)) as (_ & _ & Hlen).
    destruct Hg as (Hact & _). cbn [fst snd] in *.
    unfold extend. by rewrite push_point_explicit, Hact by done.
Qed.

Lemma blob_extends_nearest_or_spawns_witness :
  let params := TrackingParams.mk 40 50 20000 1 3 true true true in
  let traj0 := Trajectory.mk 0 [Point.mk 0 0 0] true "#3b82f6" in
  let traj1 := Trajectory.mk 1 [Point.mk 10 0 0] true "#ef4444" in
  let tr := mk [(0%nat, traj0); (1%nat, traj1)] 2 in
  in_update tr ∅ ∧
  in_gate params ∅ (BlobPoint.mk 9 0) (0%nat, traj0) 9 ∧
  match_blob 1 params (tr, ∅) (BlobPoint.mk 9 0)
    = Ok (mk [(0%nat, traj0);
              (1%nat, Trajectory.mk 1 [Point.mk 10 0 0; Point.mk 9 0 1] true "#ef4444")]
             2, {[1%nat]}) ∧
  ∃ (j : nat) k traj d,
    trajectories tr !! j = Some (k, traj) ∧
    in_gate params ∅ (BlobPoint.mk 9 0) (k, traj) d ∧
    not_farther d 9 ∧
    match_blob 1 params (tr, ∅) (BlobPoint.mk 9 0)
      = Ok (mk (<[j := (k,
                  Trajectory.mk (Trajectory.id traj)
                    ((if bool_decide (length (Trajectory.points traj) = 50%nat)
                      then tail (Trajectory.points traj)
                      else Trajectory.points traj) ++ [Point.mk 9 0 1])
                    true (Trajectory.color traj))]>
                  (trajectories tr))
               (nextId tr),
            ∅ ∪ {[Trajectory.id traj]}).
Proof.
  intros params traj0 traj1 tr.
  assert (update new [BlobPoint.mk 0 0; BlobPoint.mk 10 0] 0 params
          = Ok (tr, (trajectories tr).*2))
    as Hup by (vm_compute; reflexivity).
  assert (in_update tr ∅) as Hin
    by exact (at_start _ (reach_update _ _ _ _ _ _ reach_new Hup)).
  assert (in_gate params ∅ (BlobPoint.mk 9 0) (0%nat, traj0) 9) as Hg.
  { split; [done|]. split; [set_solver|]. split; [by eexists|].
    vm_compute; reflexivity. }
  split; [exact Hin|]. split; [exact Hg|].
  split; [vm_compute; reflexivity|].
  destruct (proj2 (blob_extends_nearest_or_spawns tr ∅ 1 params (BlobPoint.mk 9 0) Hin)
              _ 9%float (list_elem_of_here _ _) Hg)
    as (j & k & traj & d & Hj & Hgate & Hmin & Hext).
  exists j, k, traj, d. split; [exact Hj|]. split; [exact Hgate|].
  split; [exact (proj1 (Hmin 0%nat _ _ eq_refl Hg))|exact Hext].
Defined.

Lemma push_point_full p0 pts p :
  length (p0 :: pts) = 50%nat → push_point (p0 :: pts) p = pts ++ [p].
Proof.
  intros Hlen. unfold push_point. case_bool_decide as Hfull; [done|].
  rewrite length_app in Hfull. simpl in *. lia.
Qed.

Lemma push_point_short pts p :
  (length pts < 50)%nat → push_point pts p = pts ++ [p].
Proof.
  intros Hlen. unfold push_point. case_bool_decide as Hfull; [|done].
  rewrite length_app in Hfull. simpl in *. lia.
Qed.

(** What a call does to the entry at a place of the map. *)
Lemma update_entry tr blobs timestamp params tr' out (i : nat) old :
  well_formed tr →
  update tr blobs timestamp params = Ok (tr', out) →
  trajectories tr !! i = Some old →
  ∃ mid matchedIds,
    trajectories tr' !! i = Some (deactivate matchedIds mid) ∧
    carried timestamp blobs ∅ matchedIds old mid.
Proof.
  intros Hwf Hup Hi.
  destruct (update_outcome tr blobs timestamp params Hwf)
    as (tr1 & m1 & _ & _ & (_ & _ & Hold & _) & Hup' & _).
  cbn zeta in Hup'. rewrite Hup in Hup'. injection Hup' as -> _.
  destruct (Hold i old Hi) as (mid & Hmid & Hc).
  exists mid, m1. split; [|done].
  cbn [trajectories]. by rewrite list_lookup_fmap, Hmid.
Qed.

(** C7: in every state of a tracker that started from [new], and in the
    result of every call of [update] on it, each history has between 1 and
    50 points.  A call leaves the history of a trajectory as it is or pushes
    one point on it; pushing on 50 points drops the oldest, pushing on fewer
    only appends. *)
Theorem history_capped tr currentBlobs timestamp params :
  reachable tr →
  Forall (λ entry, (1 ≤ length (Trajectory.points entry.2) ≤ 50)%nat)
         (trajectories tr) ∧
  (∃ tr',
     update tr currentBlobs timestamp params = Ok (tr', (trajectories tr').*2) ∧
     Forall (λ traj, (1 ≤ length (Trajectory.points traj) ≤ 50)%nat)
            (trajectories tr').*2 ∧
     ∀ (i : nat) old, trajectories tr !! i = Some old →
       ∃ new, trajectories tr' !! i = Some new ∧
         (Trajectory.points new.2 = Trajectory.points old.2 ∨
          ∃ p, Trajectory.points new.2 = push_point (Trajectory.points old.2) p)) ∧
  (∀ p0 pts p, length (p0 :: pts) = 50%nat →
     push_point (p0 :: pts) p = pts ++ [p]) ∧
  (∀ pts p, (length pts < 50)%nat → push_point pts p = pts ++ [p]).
Proof.
  intros Hwf%tracker_well_formed.
  split; [|split; [|split; [apply push_point_full|apply push_point_short]]].
  - destruct Hwf as [_ Hok]. eapply Forall_impl; [exact Hok|].
    by intros entry (_ & _ & ?).
  - destruct (update_outcome tr currentBlobs timestamp params Hwf)
      as (tr1 & m1 & _ & _ & _ & Hup & [_ Hok']).
    cbn zeta in Hup. eexists. split; [exact Hup|]. split.
    + apply Forall_fmap. eapply Forall_impl; [exact Hok'|].
      by intros entry (_ & _ & ?).
    + intros i old Hi.
      destruct (update_entry _ _ _ _ _ _ i old Hwf Hup Hi)
        as (mid & m & Hnew & Hc).
      eexists. split; [exact Hnew|].
      assert (Trajectory.points (deactivate m mid).2 = Trajectory.points mid.2)
        as -> by (unfold deactivate; by case_bool_decide).
      destruct Hc as [[-> _]|(_ & _ & _ & blob & _ & ->)]; [by left|].
      right. by eexists.
Qed.

Lemma history_capped_witness :
  reachable new ∧
  ∃ tr', update new [BlobPoint.mk 0 0] 0
           (TrackingParams.mk 40 50 20000 10 3 true true true)
         = Ok (tr', (trajectories tr').*2) ∧
         Forall (λ traj, (1 ≤ length (Trajectory.points traj) ≤ 50)%nat)
                (trajectories tr').*2.
Proof.
  split; [apply reach_new|].
  destruct (proj1 (proj2 (history_capped new [BlobPoint.mk 0 0] 0
              (TrackingParams.mk 40 50 20000 10 3 true true true) reach_new)))
    as (tr' & Hup & Hall & _).
  by exists tr'.
Defined.

(** An inactive trajectory goes through a call unchanged, at its place. *)
Lemma update_keeps_inactive tr blobs timestamp params tr' out (i : nat) entry :
  well_formed tr →
  update tr blobs timestamp params = Ok (tr', out) →
  trajectories tr !! i = Some entry →
  Trajectory.active entry.2 = false →
  trajectories tr' !! i = Some entry.
Proof.
  intros Hwf Hup Hi Hact.
  destruct (update_entry _ _ _ _ _ _ i entry Hwf Hup Hi) as (mid & m & -> & Hc).
  destruct Hc as [[-> _]|(Hact' & _)]; [|congruence].
  by rewrite deactivate_inactive.
Qed.

Lemma updates_keep_inactive calls :
  ∀ tr (i : nat) entry,
    reachable tr →
    trajectories tr !! i = Some entry →
    Trajectory.active entry.2 = false →
    ∃ tr', updates tr calls = Ok tr' ∧ reachable tr' ∧
           trajectories tr' !! i = Some entry.
Proof.
  induction calls as [|[[blobs timestamp] params] calls IH];
    intros tr i entry Hreach Hi Hact; cbn [updates].
  - by exists tr.
  - pose proof (tracker_well_formed tr Hreach) as Hwf.
    destruct (update_outcome tr blobs timestamp params Hwf)
      as (tr1 & m1 & _ & _ & _ & Hup & _). cbn zeta in Hup.
    rewrite Hup. cbn [mbind result_bind fst].
    apply IH; [by eapply reach_update| |done].
    by eapply update_keeps_inactive.
Qed.

(** C10: a trajectory that is inactive in a state of a tracker that started
    from [new] is, after any sequence of calls of [update], still in the
    map, unchanged; every trajectory with its id is inactive; [reset]
    empties the map. *)
Theorem inactive_is_absorbing tr entry calls :
  reachable tr →
  entry ∈ trajectories tr →
  Trajectory.active entry.2 = false →
  ∃ tr',
    updates tr calls = Ok tr' ∧
    entry ∈ trajectories tr' ∧
    (∀ entry', entry' ∈ trajectories tr' →
       Trajectory.id entry'.2 = Trajectory.id entry.2 →
       Trajectory.active entry'.2 = false) ∧
    trajectories (reset tr') = [].
Proof.
  intros Hreach [i Hi]%list_elem_of_lookup Hact.
  destruct (updates_keep_inactive calls tr i entry Hreach Hi Hact)
    as (tr' & Hrun & Hreach' & Hi').
  exists tr'. split; [done|]. split; [by eapply list_elem_of_lookup_2|].
  split; [|done].
  intros entry' [j Hj]%list_elem_of_lookup Hid.
  destruct (tracker_well_formed tr' Hreach') as [Hdup Hok].
  pose proof (proj1 (Forall_forall _ _) Hok _ (list_elem_of_lookup_2 _ _ _ Hj))
    as (Hk' & _).
  pose proof (proj1 (Forall_forall _ _) Hok _ (list_elem_of_lookup_2 _ _ _ Hi'))
    as (Hk & _).
  assert (j = i) as ->.
  { apply (NoDup_lookup _ j i entry.1 Hdup); rewrite list_lookup_fmap.
    - rewrite Hj. simpl. congruence.
    - by rewrite Hi'. }
  congruence.
Qed.

Lemma inactive_is_absorbing_witness :
  let params := TrackingParams.mk 40 50 20000 1 3 true true true in
  let entry := (0%nat, Trajectory.mk 0 [Point.mk 0 0 0] false "#3b82f6") in
  let tr := mk [entry] 1 in
  reachable tr ∧ entry ∈ trajectories tr ∧
  ∃ tr', updates tr [([BlobPoint.mk 0 0], 2%float, params)] = Ok tr' ∧
         entry ∈ trajectories tr'.
Proof.
  intros params entry tr.
  assert (update new [BlobPoint.mk 0 0] 0 params
          = Ok (mk [(0%nat, Trajectory.mk 0 [Point.mk 0 0 0] true "#3b82f6")] 1,
                [Trajectory.mk 0 [Point.mk 0 0 0] true "#3b82f6"]))
    as Hup1 by (vm_compute; reflexivity).
  assert (update (mk [(0%nat, Trajectory.mk 0 [Point.mk 0 0 0] true "#3b82f6")] 1)
                 [] 1 params = Ok (tr, (trajectories tr).*2))
    as Hup2 by (vm_compute; reflexivity).
  assert (reachable tr) as Hreach.
  { eapply reach_update; [|exact Hup2]. eapply reach_update; [|exact Hup1].
    apply reach_new. }
  assert (entry ∈ trajectories tr) as Hin by left.
  split; [exact Hreach|]. split; [exact Hin|].
  destruct (inactive_is_absorbing tr entry [([BlobPoint.mk 0 0], 2%float, params)]
              Hreach Hin eq_refl) as (tr' & Hrun & Hin' & _).
  by exists tr'.
Defined.

(** ** Ids, colours and places in the map *)

Lemma match_blob_keys timestamp params tr matchedIds blob tr' matchedIds' :
  well_formed tr →
  (trajectories tr).*1 = seq 0 (nextId tr) →
  match_blob timestamp params (tr, matchedIds) blob = Ok (tr', matchedIds') →
  (trajectories tr').*1 = seq 0 (nextId tr').
Proof.
  intros Hwf Hkeys Hstep.
  destruct (match_blob_outcome timestamp params tr matchedIds blob Hwf)
    as [[_ Hspawn]|(j & k & traj & d & Hj & _ & _ & Hext)].
  - rewrite Hspawn in Hstep. injection Hstep as <- _. cbn [trajectories nextId].
    by rewrite fmap_app, Hkeys, seq_S.
  - rewrite Hext in Hstep. injection Hstep as <- _. cbn [trajectories nextId].
    rewrite list_fmap_insert. cbn [fst].
    rewrite list_insert_id; [done|]. by rewrite list_lookup_fmap, Hj.
Qed.

Lemma match_blobs_keys timestamp params blobs :
  ∀ tr matchedIds tr' matchedIds',
    well_formed tr →
    (trajectories tr).*1 = seq 0 (nextId tr) →
    match_blobs timestamp params (tr, matchedIds) blobs = Ok (tr', matchedIds') →
    (trajectories tr').*1 = seq 0 (nextId tr').
Proof.
  induction blobs as [|blob blobs IH]; intros tr m tr' m' Hwf Hkeys Hrun;
    cbn [match_blobs] in Hrun.
  - by simplify_eq.
  - destruct (match_blob_step timestamp params tr m blob Hwf)
      as (tr1 & m1 & Hstep & Hwf1 & _).
    rewrite Hstep in Hrun. cbn [mbind result_bind] in Hrun.
    eapply IH; [exact Hwf1| |exact Hrun].
    exact (match_blob_keys _ _ _ _ _ _ _ Hwf Hkeys Hstep).
Qed.

Lemma tracker_keys tr :
  reachable tr → (trajectories tr).*1 = seq 0 (nextId tr).
Proof.
  induction 1 as [|tr blobs timestamp params tr' out Hreach IH Hup|tr _ _];
    [done| |done].
  pose proof (tracker_well_formed tr Hreach) as Hwf.
  destruct (update_outcome tr blobs timestamp params Hwf)
    as (tr1 & m1 & Hrun & _ & _ & Hup' & _).
  cbn zeta in Hup'. rewrite Hup in Hup'. injection Hup' as -> _.
  cbn [trajectories nextId]. rewrite <-list_fmap_compose.
  rewrite <-(match_blobs_keys _ _ _ _ _ _ _ Hwf IH Hrun).
  apply list_fmap_ext. intros i entry _. apply deactivate_key.
Qed.

(** The ids of a tracker are 0, 1, 2, ... in the order of creation: the map
    holds exactly the trajectories with the ids below the counter, each under
    its id, and none is ever removed by [update]. *)
Theorem trajectory_ids_sequential tr :
  reachable tr →
  (trajectories tr).*1 = seq 0 (nextId tr) ∧
  Trajectory.id <$> (trajectories tr).*2 = seq 0 (nextId tr) ∧
  length (trajectories tr) = nextId tr.
Proof.
  intros Hreach. pose proof (tracker_keys tr Hreach) as Hkeys.
  split; [done|]. split.
  - rewrite <-Hkeys, <-!list_fmap_compose. apply list_fmap_ext.
    intros i entry Hi%list_elem_of_lookup_2. simpl.
    destruct (tracker_well_formed tr Hreach) as [_ Hok].
    by apply (proj1 (Forall_forall _ _) Hok) in Hi as (<- & _).
  - by rewrite <-(length_fmap fst), Hkeys, length_seq.
Qed.

Lemma trajectory_ids_sequential_witness :
  let params := TrackingParams.mk 40 50 20000 1 3 true true true in
  let tr := mk [(0%nat, Trajectory.mk 0 [Point.mk 0 0 0] true "#3b82f6");
                (1%nat, Trajectory.mk 1 [Point.mk 900 0 0] true "#ef4444")] 2 in
  reachable tr ∧ (trajectories tr).*1 = seq 0 (nextId tr).
Proof.
  intros params tr.
  assert (update new [BlobPoint.mk 0 0; BlobPoint.mk 900 0] 0 params
          = Ok (tr, (trajectories tr).*2)) as Hup by (vm_compute; reflexivity).
  assert (reachable tr) as Hreach by exact (reach_update _ _ _ _ _ _ reach_new Hup).
  split; [exact Hreach|].
  exact (proj1 (trajectory_ids_sequential tr Hreach)).
Defined.

(** The colour of a trajectory is the entry of the palette at its id modulo
    10, from its creation on. *)
Theorem trajectory_colour tr :
  reachable tr →
  Forall (λ entry,
            colors !! (Trajectory.id entry.2 mod 10)%nat
              = Some (Trajectory.color entry.2))
         (trajectories tr).
Proof.
  induction 1 as [|tr blobs timestamp params tr' out Hreach IH Hup|tr _ _];
    [constructor| |constructor].
  pose proof (tracker_well_formed tr Hreach) as Hwf.
  destruct (update_outcome tr blobs timestamp params Hwf)
    as (tr1 & m1 & _ & Hwf1 & (_ & _ & Hold & Hnew) & Hup' & _).
  cbn zeta in Hup'. rewrite Hup in Hup'. injection Hup' as -> _.
  cbn [trajectories]. apply Forall_fmap, Forall_forall.
  intros entry [i Hi]%list_elem_of_lookup. unfold compose.
  assert (Trajectory.id (deactivate m1 entry).2 = Trajectory.id entry.2 ∧
          Trajectory.color (deactivate m1 entry).2 = Trajectory.color entry.2)
    as [-> ->] by (unfold deactivate; by case_bool_decide).
  destruct (decide (i < length (trajectories tr))%nat) as [Hlt|Hge].
  - destruct (lookup_lt_is_Some_2 _ _ Hlt) as [old Hold'].
    destruct (Hold i old Hold') as (new & Hnew' & Hc).
    assert (new = entry) as -> by congruence.
    apply carried_id in Hc as (_ & -> & _ & ->).
    apply (proj1 (Forall_forall _ _) IH). by eapply list_elem_of_lookup_2.
  - destruct (Hnew i entry) as ((blob & _ & Hsp) & _ & _); [lia|done|].
    destruct Hwf1 as [_ Hok].
    pose proof (proj1 (Forall_forall _ _) Hok _ (list_elem_of_lookup_2 _ _ _ Hi))
      as (Hkey & _).
    rewrite Hsp. unfold spawn. cbn [Trajectory.id Trajectory.color].
    change (length colors) with 10%nat.
    destruct (colors !! (entry.1 mod 10)%nat) as [c|] eqn:Hc; [done|].
    apply lookup_ge_None in Hc. change (length colors) with 10%nat in Hc.
    pose proof (Nat.mod_upper_bound entry.1 10). lia.
Qed.

Lemma trajectory_colour_witness :
  let params := TrackingParams.mk 40 50 20000 1 3 true true true in
  let tr := mk [(0%nat, Trajectory.mk 0 [Point.mk 0 0 0] true "#3b82f6")] 1 in
  reachable tr ∧
  Forall (λ entry, colors !! (Trajectory.id entry.2 mod 10)%nat
                     = Some (Trajectory.color entry.2)) (trajectories tr).
Proof.
  intros params tr.
  assert (update new [BlobPoint.mk 0 0] 0 params = Ok (tr, (trajectories tr).*2))
    as Hup by (vm_compute; reflexivity).
  assert (reachable tr) as Hreach by exact (reach_update _ _ _ _ _ _ reach_new Hup).
  split; [exact Hreach|]. exact (trajectory_colour tr Hreach).
Defined.

(** ** The trajectories matched in a call *)

Lemma entry_by_id tr entry entry' :
  well_formed tr →
  entry ∈ trajectories tr → entry' ∈ trajectories tr →
  Trajectory.id entry.2 = Trajectory.id entry'.2 → entry = entry'.
Proof.
  intros [Hdup Hok] [i Hi]%list_elem_of_lookup [j Hj]%list_elem_of_lookup Hid.
  pose proof (proj1 (Forall_forall _ _) Hok _ (list_elem_of_lookup_2 _ _ _ Hi))
    as (Hk & _).
  pose proof (proj1 (Forall_forall _ _) Hok _ (list_elem_of_lookup_2 _ _ _ Hj))
    as (Hk' & _).
  assert (i = j) as ->; [|congruence].
  apply (NoDup_lookup _ i j entry.1 Hdup); rewrite list_lookup_fmap.
  - by rewrite Hi.
  - rewrite Hj. simpl. congruence.
Qed.

Lemma last_push_point pts p : last (push_point pts p) = Some p.
Proof.
  unfold push_point. case_bool_decide as Hfull; [|apply last_snoc].
  destruct pts as [|p0 pts]; [simpl in Hfull; lia|]. simpl. apply last_snoc.
Qed.

(** A blob matches exactly one trajectory, not matched before in the call:
    afterwards that trajectory is active and ends at the blob; the other
    trajectories are as before. *)
Lemma match_blob_matched timestamp params tr matchedIds blob :
  well_formed tr →
  (∀ k, k ∈ matchedIds → (k < nextId tr)%nat) →
  ∃ tr' k entry',
    match_blob timestamp params (tr, matchedIds) blob
      = Ok (tr', matchedIds ∪ {[k]}) ∧
    well_formed tr' ∧
    (k ∉ matchedIds) ∧ (k < nextId tr')%nat ∧ (nextId tr ≤ nextId tr')%nat ∧
    entry' ∈ trajectories tr' ∧ Trajectory.id entry'.2 = k ∧
    Trajectory.active entry'.2 = true ∧
    last (Trajectory.points entry'.2)
      = Some (Point.mk (BlobPoint.x blob) (BlobPoint.y blob) timestamp) ∧
    (∀ entry, entry ∈ trajectories tr' → Trajectory.id entry.2 ≠ k →
              entry ∈ trajectories tr) ∧
    (∀ entry, entry ∈ trajectories tr → Trajectory.id entry.2 ≠ k →
              entry ∈ trajectories tr').
Proof.
  intros Hwf Hbelow.
  destruct (match_blob_step timestamp params tr matchedIds blob Hwf)
    as (tr1 & m1 & Hstep & Hwf1 & _).
  destruct (match_blob_outcome timestamp params tr matchedIds blob Hwf)
    as [[_ Hspawn]|(j & k & traj & d & Hj & Hg & _ & Hext)].
  - rewrite Hspawn in Hstep. injection Hstep as <- <-.
    eexists _, (nextId tr), (nextId tr, _). split; [exact Hspawn|].
    split; [done|]. cbn [trajectories nextId fst snd].
    split; [intros Hin%Hbelow; lia|]. split; [lia|]. split; [lia|].
    split; [apply elem_of_app; right; left|].
    unfold spawn at 1 2 3. cbn [Trajectory.id Trajectory.active Trajectory.points last].
    do 3 (split; [done|]). split.
    + intros entry [Hin|Hin%list_elem_of_singleton]%elem_of_app Hne; [done|].
      subst entry. by destruct Hne.
    + intros entry Hin _. apply elem_of_app. by left.
  - rewrite Hext in Hstep. injection Hstep as <- <-.
    destruct Hg as (Hact & Hnot & _). cbn [fst snd] in Hact, Hnot.
    pose proof (list_elem_of_lookup_2 _ _ _ Hj) as Hin.
    destruct Hwf as [Hdup Hok] eqn:Hwf'.
    pose proof (proj1 (Forall_forall _ _) Hok _ Hin) as (_ & Hlt & _).
    cbn [fst snd] in Hlt.
    eexists _, (Trajectory.id traj), (k, extend traj _). split; [exact Hext|].
    split; [done|]. cbn [trajectories nextId fst snd extend Trajectory.id
      Trajectory.active Trajectory.points].
    split; [done|]. split; [done|]. split; [done|].
    split. { apply list_elem_of_lookup. exists j.
             apply list_lookup_insert_eq. by eapply lookup_lt_Some. }
    split; [done|]. split; [done|]. split; [apply last_push_point|]. split.
    + intros entry [i Hi]%list_elem_of_lookup Hne.
      destruct (decide (i = j)) as [->|Hij].
      * rewrite list_lookup_insert_eq in Hi by (by eapply lookup_lt_Some).
        injection Hi as <-. by destruct Hne.
      * rewrite list_lookup_insert_ne in Hi by done.
        by eapply list_elem_of_lookup_2.
    + intros entry [i Hi]%list_elem_of_lookup Hne.
      destruct (decide (i = j)) as [->|Hij].
      * rewrite Hj in Hi. injection Hi as <-. by destruct Hne.
      * apply list_elem_of_lookup. exists i. by rewrite list_lookup_insert_ne.
Qed.

Lemma match_blobs_matched timestamp params blobs :
  ∀ tr matchedIds,
    well_formed tr →
    (∀ k, k ∈ matchedIds → (k < nextId tr)%nat) →
    (∀ entry, entry ∈ trajectories tr → Trajectory.id entry.2 ∈ matchedIds →
              Trajectory.active entry.2 = true) →
    ∃ tr' (matchedIds' : gset nat),
      match_blobs timestamp params (tr, matchedIds) blobs = Ok (tr', matchedIds') ∧
      well_formed tr' ∧
      (∀ entry, entry ∈ trajectories tr' → Trajectory.id entry.2 ∈ matchedIds' →
                Trajectory.active entry.2 = true) ∧
      size matchedIds' = (size matchedIds + length blobs)%nat ∧
      (∀ entry, entry ∈ trajectories tr → Trajectory.id entry.2 ∈ matchedIds →
                entry ∈ trajectories tr') ∧
      (∀ k, k ∈ matchedIds' → k ∈ matchedIds ∨
         ∃ entry blob, entry ∈ trajectories tr' ∧ Trajectory.id entry.2 = k ∧
           blob ∈ blobs ∧
           last (Trajectory.points entry.2)
             = Some (Point.mk (BlobPoint.x blob) (BlobPoint.y blob) timestamp)).
Proof.
  induction blobs as [|blob blobs IH]; intros tr m Hwf Hbelow Hact;
    cbn [match_blobs].
  - exists tr, m. split; [done|]. split; [done|]. split; [done|].
    split; [simpl; lia|]. split; [done|]. intros k Hk. by left.
  - destruct (match_blob_matched timestamp params tr m blob Hwf Hbelow)
      as (tr1 & k & entry1 & -> & Hwf1 & Hk & Hlt & Hle & Hin1 & Hid1 & Hact1
          & Hlast1 & Hback & Hfwd).
    cbn [mbind result_bind].
    destruct (IH tr1 (m ∪ {[k]}) Hwf1) as (tr' & m' & -> & Hwf' & Hact' & Hsize
                                           & Hkeep & Hnew).
    { intros k' [Hk'%Hbelow| ->%elem_of_singleton]%elem_of_union; lia. }
    { intros entry Hin [Hm|Hk1%elem_of_singleton]%elem_of_union.
      - apply Hact; [|done]. apply Hback; [done|]. intros <-. done.
      - assert (entry = entry1) as ->; [|done].
        apply (entry_by_id tr1); [done..|congruence]. }
    exists tr', m'. split; [done|]. split; [done|]. split; [done|].
    split. { rewrite Hsize, size_union, size_singleton by set_solver. simpl. lia. }
    split.
    + intros entry Hin Hm. apply Hkeep; [|set_solver].
      apply Hfwd; [done|]. intros <-. done.
    + intros k' Hk'. destruct (Hnew k' Hk')
        as [[Hm| ->%elem_of_singleton]%elem_of_union|(entry & b & ? & ? & ? & ?)].
      * by left.
      * right. exists entry1, blob. split; [apply Hkeep; [done|set_solver]|].
        split; [done|]. split; [left|done].
      * right. exists entry, b. repeat split; try done. by right.
Qed.

Lemma NoDup_fmap_filter {A B} (f : A → B) (P : A → Prop)
    `{∀ a, Decision (P a)} (l : list A) :
  NoDup (f <$> l) → NoDup (f <$> filter P l).
Proof.
  induction l as [|a l IH]; [done|]. cbn [fmap list_fmap].
  rewrite NoDup_cons. intros [Ha Hl]. rewrite filter_cons.
  destruct (decide (P a)); [|by apply IH]. cbn [fmap list_fmap].
  apply NoDup_cons. split; [|by apply IH].
  intros (a' & Heq & [_ Hin]%list_elem_of_filter)%list_elem_of_fmap.
  apply Ha, list_elem_of_fmap. by exists a'.
Qed.

Lemma update_active tr currentBlobs timestamp params :
  well_formed tr →
  ∃ tr' out,
    update tr currentBlobs timestamp params = Ok (tr', out) ∧
    length (filter (λ traj, Trajectory.active traj = true) out)
      = length currentBlobs ∧
    ∀ traj, traj ∈ out → Trajectory.active traj = true →
      ∃ blob, blob ∈ currentBlobs ∧
        last (Trajectory.points traj)
          = Some (Point.mk (BlobPoint.x blob) (BlobPoint.y blob) timestamp).
Proof.
  intros Hwf.
  destruct (match_blobs_matched timestamp params currentBlobs tr ∅ Hwf)
    as (tr1 & m1 & Hrun & Hwf1 & Hact & Hsize & _ & Hnew); [set_solver..|].
  rewrite size_empty, Nat.add_0_l in Hsize.
  destruct (update_outcome tr currentBlobs timestamp params Hwf)
    as (tr1' & m1' & Hrun' & _ & _ & Hup & _).
  rewrite Hrun in Hrun'. injection Hrun' as <- <-. cbn zeta in Hup.
  eexists _, _. split; [exact Hup|]. cbn [trajectories].
  set (out := (deactivate m1 <$> trajectories tr1).*2).
  assert (∀ traj, traj ∈ out → Trajectory.active traj = true →
            ∃ entry, entry ∈ trajectories tr1 ∧ traj = entry.2 ∧
                     Trajectory.id entry.2 ∈ m1) as Hactive.
  { intros traj (e' & -> & (entry & -> & Hin)%list_elem_of_fmap)%list_elem_of_fmap.
    unfold deactivate. case_bool_decide; [|done]. intros _. by exists entry. }
  split.
  - rewrite <-Hsize.
    rewrite <-(length_fmap Trajectory.id).
    rewrite <-(size_list_to_set (C:=gset nat)).
    + f_equal. apply set_eq. intros k. rewrite elem_of_list_to_set, list_elem_of_fmap.
      split.
      * intros (traj & -> & [Ha Hin]%list_elem_of_filter).
        by destruct (Hactive traj Hin Ha) as (entry & _ & -> & ?).
      * intros Hk. destruct (Hnew k Hk) as [?|(entry & _ & Hin & Hid & _)];
          [set_solver|].
        exists entry.2. split; [done|]. apply list_elem_of_filter. split.
        -- apply Hact; [done|]. by rewrite Hid.
        -- apply list_elem_of_fmap. exists entry. split; [done|].
           apply list_elem_of_fmap. exists entry. split; [|done].
           unfold deactivate. rewrite bool_decide_eq_true_2; [done|].
           by rewrite Hid.
    + apply NoDup_fmap_filter. subst out.
      destruct Hwf1 as [Hdup Hok].
      assert (Trajectory.id <$> (deactivate m1 <$> trajectories tr1).*2
              = (trajectories tr1).*1) as ->; [|done].
      rewrite <-!list_fmap_compose. apply list_fmap_ext.
      intros i entry Hi%list_elem_of_lookup_2. simpl.
      apply (proj1 (Forall_forall _ _) Hok) in Hi as (-> & _).
      unfold deactivate. by case_bool_decide.
  - intros traj Hin Ha.
    destruct (Hactive traj Hin Ha) as (entry & Hentry & -> & Hm).
    destruct (Hnew _ Hm) as [?|(entry' & blob & Hin' & Hid & Hblob & Hlast)];
      [set_solver|].
    exists blob. split; [done|].
    by rewrite (entry_by_id tr1 entry entry' Hwf1 Hentry Hin').
Qed.

(** After a call of [update] exactly as many trajectories are active as the
    call had blobs, and each active trajectory ends at the position of one
    of the blobs, with the timestamp of the call. *)
Theorem one_active_trajectory_per_blob tr currentBlobs timestamp params :
  reachable tr →
  ∃ tr' out,
    update tr currentBlobs timestamp params = Ok (tr', out) ∧
    length (filter (λ traj, Trajectory.active traj = true) out)
      = length currentBlobs ∧
    ∀ traj, traj ∈ out → Trajectory.active traj = true →
      ∃ blob, blob ∈ currentBlobs ∧
        last (Trajectory.points traj)
          = Some (Point.mk (BlobPoint.x blob) (BlobPoint.y blob) timestamp).
Proof.
  intros Hwf%tracker_well_formed.
  destruct (update_active tr currentBlobs timestamp params Hwf)
    as (tr' & out & Hup & Hcount & Hlast).
  exists tr', out. split; [exact Hup|]. split; [exact Hcount|exact Hlast].
Qed.

Lemma one_active_trajectory_per_blob_witness :
  reachable new ∧
  ∃ tr' out,
    update new [BlobPoint.mk 0 0; BlobPoint.mk 5 5] 0
      (TrackingParams.mk 40 50 20000 10 3 true true true) = Ok (tr', out) ∧
    length (filter (λ traj, Trajectory.active traj = true) out) = 2%nat.
Proof.
  split; [apply reach_new|].
  destruct (one_active_trajectory_per_blob new [BlobPoint.mk 0 0; BlobPoint.mk 5 5] 0
              (TrackingParams.mk 40 50 20000 10 3 true true true) reach_new)
    as (tr' & out & Hup & Hcount & _).
  by exists tr', out.
Defined.

(** ** Calls in which no trajectory can be extended *)

Lemma in_gate_mono params (m m' : gset nat) blob entry d :
  m ⊆ m' → in_gate params m' blob entry d → in_gate params m blob entry d.
Proof. intros Hsub (? & ? & ? & ?). repeat split; try done. set_solver. Qed.

Lemma match_blobs_spawn timestamp params blobs :
  ∀ tr (matchedIds : gset nat),
    well_formed tr →
    (∀ entry blob d, entry ∈ trajectories tr → blob ∈ blobs →
       ¬ in_gate params matchedIds blob entry d) →
    match_blobs timestamp params (tr, matchedIds) blobs
      = Ok (mk (trajectories tr ++
                  imap (λ (i : nat) blob,
                          ((nextId tr + i)%nat,
                           spawn (nextId tr + i)
                             (Point.mk (BlobPoint.x blob) (BlobPoint.y blob)
                                       timestamp))) blobs)
               (nextId tr + length blobs),
            matchedIds ∪ list_to_set (seq (nextId tr) (length blobs))).
Proof.
  induction blobs as [|blob blobs IH]; intros tr m Hwf Hnone; cbn [match_blobs].
  - simpl. rewrite app_nil_r, Nat.add_0_r, (right_id_L ∅ (∪)). by destruct tr.
  - destruct (match_blob_step timestamp params tr m blob Hwf)
      as (tr1 & m1 & Hstep & Hwf1 & _).
    destruct (match_blob_outcome timestamp params tr m blob Hwf)
      as [[_ Hspawn]|(j & k & traj & d & Hj & Hg & _)]; cycle 1.
    { destruct (Hnone (k, traj) blob d); [|left|done].
      by eapply list_elem_of_lookup_2. }
    rewrite Hspawn in Hstep. injection Hstep as <- <-.
    rewrite Hspawn. cbn [mbind result_bind]. rewrite IH; [|done|].
    + cbn [trajectories nextId length imap]. f_equal. f_equal; [f_equal|].
      * rewrite <-app_assoc. cbn [app]. rewrite Nat.add_0_r. do 2 f_equal.
        apply imap_ext. intros i b _. unfold compose.
        f_equal; [lia|]. f_equal. lia.
      * lia.
      * cbn [seq]. rewrite list_to_set_cons. set_solver.
    + cbn [trajectories nextId].
      intros entry b d [Hin| ->%list_elem_of_singleton]%elem_of_app Hb Hg.
      * apply (Hnone entry b d); [done|by right|].
        eapply in_gate_mono; [|exact Hg]. set_solver.
      * destruct Hg as (_ & Hnot & _). apply Hnot. unfold spawn. simpl. set_solver.
Qed.

(** When no trajectory is active and at a distance less than
    [persistence * 50] from a blob of the call (so on a new or reset
    tracker, after a call without blobs, for a [persistence] of 0, or when
    every blob is far from every trajectory), [update] extends nothing: it
    deactivates every trajectory it had and makes one trajectory per blob,
    in order, with the next ids. *)
Theorem update_without_candidates tr currentBlobs timestamp params :
  reachable tr →
  (∀ entry blob d, entry ∈ trajectories tr → blob ∈ currentBlobs →
     ¬ in_gate params ∅ blob entry d) →
  let tr' :=
    mk (((λ entry : nat * Trajectory.t,
            (entry.1,
             Trajectory.mk (Trajectory.id entry.2) (Trajectory.points entry.2)
                           false (Trajectory.color entry.2)))
         <$> trajectories tr) ++
          imap (λ (i : nat) blob,
                  ((nextId tr + i)%nat,
                   Trajectory.mk (nextId tr + i)
                     [Point.mk (BlobPoint.x blob) (BlobPoint.y blob) timestamp]
                     true
                     (default ""%string
                        (colors !! ((nextId tr + i) mod 10)%nat))))
               currentBlobs)
       (nextId tr + length currentBlobs) in
  update tr currentBlobs timestamp params = Ok (tr', (trajectories tr').*2).
Proof.
  intros Hwf%tracker_well_formed Hnone tr'.
  unfold update. rewrite match_blobs_spawn by done.
  cbn [mbind result_bind fst snd trajectories nextId].
  assert (deactivate (∅ ∪ list_to_set (seq (nextId tr) (length currentBlobs)))
            <$> (trajectories tr ++
                   imap (λ (i : nat) blob,
                           ((nextId tr + i)%nat,
                            spawn (nextId tr + i)
                              (Point.mk (BlobPoint.x blob) (BlobPoint.y blob)
                                        timestamp))) currentBlobs)
          = trajectories tr') as ->; [|done].
  subst tr'. cbn [trajectories]. rewrite fmap_app. f_equal.
  - apply Forall_fmap_ext_1. destruct Hwf as [_ Hok].
    eapply Forall_impl; [exact Hok|]. intros entry (_ & Hlt & _).
    unfold deactivate. rewrite bool_decide_eq_false_2; [done|].
    rewrite (left_id_L ∅ (∪)), elem_of_list_to_set, elem_of_seq. lia.
  - apply list_eq. intros i. rewrite list_lookup_fmap, !list_lookup_imap.
    destruct (currentBlobs !! i) as [blob|] eqn:Hi; [|done]. simpl. f_equal.
    unfold deactivate. rewrite bool_decide_eq_true_2; [done|].
    unfold spawn. simpl.
    rewrite (left_id_L ∅ (∪)), elem_of_list_to_set, elem_of_seq.
    apply lookup_lt_Some in Hi. lia.
Qed.

(** With [persistence] 0 a blob at the very position of an active
    trajectory does not extend it. *)
Lemma update_without_candidates_witness :
  let params := TrackingParams.mk 40 50 20000 0 3 true true true in
  let tr := mk [(0%nat, Trajectory.mk 0 [Point.mk 0 0 0] true "#3b82f6")] 1 in
  reachable tr ∧
  update tr [BlobPoint.mk 0 0] 1 params
    = Ok (mk [(0%nat, Trajectory.mk 0 [Point.mk 0 0 0] false "#3b82f6");
              (1%nat, Trajectory.mk 1 [Point.mk 0 0 1] true "#ef4444")] 2,
          [Trajectory.mk 0 [Point.mk 0 0 0] false "#3b82f6";
           Trajectory.mk 1 [Point.mk 0 0 1] true "#ef4444"]).
Proof.
  intros params tr.
  assert (update new [BlobPoint.mk 0 0] 0 params = Ok (tr, (trajectories tr).*2))
    as Hup by (vm_compute; reflexivity).
  assert (reachable tr) as Hreach by exact (reach_update _ _ _ _ _ _ reach_new Hup).
  split; [exact Hreach|].
  apply (update_without_candidates tr [BlobPoint.mk 0 0] 1 params Hreach).
  intros entry blob d ->%list_elem_of_singleton ->%list_elem_of_singleton
    (_ & _ & (p & [= <-] & ->) & Hgate).
  vm_compute in Hgate. done.
Defined.

End TrackerFacts.

(** ** Both classes *)

(** C9 (engine half and tracker half): [reset] gives the state of a new
    object, whatever the state before, so a second [reset] changes nothing. *)
Theorem reset_idempotent_initial (e : CVEngine.t) (tr : BlobTracker.t) :
  CVEngine.reset (CVEngine.reset e) = CVEngine.reset e ∧
  CVEngine.reset e = CVEngine.new (CVEngine.width e) (CVEngine.height e) ∧
  CVEngine.prevGray (CVEngine.reset e) = None ∧
  CVEngine.activeFeatures (CVEngine.reset e) = [] ∧
  CVEngine.nextFeatureId (CVEngine.reset e) = 0%nat ∧
  BlobTracker.reset (BlobTracker.reset tr) = BlobTracker.reset tr ∧
  BlobTracker.reset tr = BlobTracker.new ∧
  BlobTracker.trajectories (BlobTracker.reset tr) = [] ∧
  BlobTracker.nextId (BlobTracker.reset tr) = 0%nat.
Proof. repeat split. Qed.

(** ** The frame loop *)

Module AppFacts.
Import EngineFacts TrackerFacts.
#[local] Arguments CVEngine.process : simpl never.
#[local] Arguments BlobTracker.update : simpl never.
#[local] Arguments CVEngine.clusterFeatures : simpl never.

Lemma process_dims e frameData threshold :
  CVEngine.width (CVEngine.process e frameData threshold).1 = CVEngine.width e ∧
  CVEngine.height (CVEngine.process e frameData threshold).1 = CVEngine.height e.
Proof.
  destruct (CVEngine.prevGray e) as [prev|] eqn:Hprev.
  - by destruct (process_next e frameData threshold prev Hprev) as (? & ? & _).
  - rewrite process_first by done. cbn zeta. cbn [fst].
    by destruct (detectNewFeatures_replenished
                   (CVEngine.toGrayscale e frameData) threshold
                   (CVEngine.set_prevGray
                      (Some (CVEngine.toGrayscale e frameData)) e))
      as (? & ? & _).
Qed.

Lemma process_blobs e frameData threshold b :
  b ∈ CVEngine.blobs (CVEngine.process e frameData threshold).2 →
  b ∈ CVEngine.clusterFeatures (CVEngine.process e frameData threshold).1.
Proof.
  destruct (CVEngine.prevGray e) as [prev|] eqn:Hprev.
  - by destruct (process_next e frameData threshold prev Hprev)
      as (_ & _ & _ & _ & -> & _).
  - rewrite process_first by done. cbn zeta. cbn [snd CVEngine.blobs].
    by intros ?%elem_of_nil.
Qed.

Lemma process_features e frameData threshold :
  CVEngine.features (CVEngine.process e frameData threshold).2
    = CVEngine.activeFeatures (CVEngine.process e frameData threshold).1.
Proof.
  destruct (CVEngine.prevGray e) as [prev|] eqn:Hprev.
  - by destruct (process_next e frameData threshold prev Hprev)
      as (_ & _ & _ & -> & _).
  - by rewrite process_first.
Qed.

Lemma slice_last_length {A} (n : nat) (l : list A) :
  (length (App.slice_last n l) ≤ n)%nat.
Proof. unfold App.slice_last. rewrite length_drop. lia. Qed.

(** What every state of the component satisfies. *)
Lemma app_reachable s :
  App.reachable s →
  CVEngine.reachable (App.cvEngine s) ∧
  BlobTracker.reachable (App.tracker s) ∧
  CVEngine.width (App.cvEngine s) = App.ANALYSIS_WIDTH ∧
  CVEngine.height (App.cvEngine s) = App.ANALYSIS_HEIGHT ∧
  (length (App.timeSeries s) ≤ 101)%nat.
Proof.
  induction 1 as [|s frameData currentTime params sensitivity sampled s' _
                   (He & Ht & Hw & Hh & Hlen) Hframe
                  |s _ (He & Ht & Hw & Hh & Hlen)].
  - repeat split; [apply CVEngine.reach_new|apply BlobTracker.reach_new|].
    simpl. lia.
  - unfold App.processFrame in Hframe. cbn zeta in Hframe.
    destruct (BlobTracker.update _ _ _ _) as [[tr' out]|] eqn:Hup; [|done].
    cbn [mbind result_bind fst snd] in Hframe. injection Hframe as <-.
    cbn [App.cvEngine App.tracker App.timeSeries].
    destruct (process_dims (App.cvEngine s) frameData sensitivity) as [-> ->].
    split; [by apply CVEngine.reach_process|].
    split; [by eapply BlobTracker.reach_update|].
    split; [done|]. split; [done|].
    destruct sampled; [|done]. rewrite length_app. simpl.
    pose proof (slice_last_length 100 (App.timeSeries s)). lia.
  - cbn [App.handleFileUpload App.cvEngine App.tracker App.timeSeries].
    split; [by apply CVEngine.reach_reset|].
    split; [by apply BlobTracker.reach_reset|]. simpl. repeat split; [done..|lia].
Qed.

(** A frame never fails.  The number of tracked clusters it reports is the
    number of blobs the engine found in the frame; the trajectories shown
    are the result of the tracker and the features shown the active features
    of the engine. *)
Theorem frame_counts_blobs s frameData currentTime params sensitivity sampled :
  App.reachable s →
  ∃ s',
    App.processFrame s frameData currentTime params sensitivity sampled = Ok s' ∧
    App.blobsCount (App.stats s')
      = length (CVEngine.blobs
                  (CVEngine.process (App.cvEngine s) frameData sensitivity).2) ∧
    App.active_count (App.trajectories s') = App.blobsCount (App.stats s') ∧
    App.processedCount (App.stats s') = S (App.processedCount (App.stats s)) ∧
    App.trajectories s' = (BlobTracker.trajectories (App.tracker s')).*2 ∧
    App.currentFeatures s' = CVEngine.activeFeatures (App.cvEngine s').
Proof.
  intros (_ & Ht%tracker_well_formed & _)%app_reachable.
  unfold App.processFrame. cbn zeta.
  set (r := CVEngine.process (App.cvEngine s) frameData sensitivity).
  destruct (update_active (App.tracker s) (App.currentBlob <$> CVEngine.blobs r.2)
              currentTime params Ht) as (tr' & out & Hup & Hcount & _).
  destruct (update_outcome (App.tracker s) (App.currentBlob <$> CVEngine.blobs r.2)
              currentTime params Ht) as (tr1 & m1 & _ & _ & _ & Hup' & _).
  cbn zeta in Hup'. rewrite Hup in Hup'. injection Hup' as Htr Hout.
  rewrite Hup. cbn [mbind result_bind fst snd].
  eexists. split; [done|].
  cbn [App.stats App.blobsCount App.processedCount App.trajectories
       App.tracker App.currentFeatures App.cvEngine].
  unfold App.active_count. rewrite Hcount, length_fmap.
  repeat split; try done.
  - rewrite Hout, Htr. done.
  - apply process_features.
Qed.

Lemma frame_counts_blobs_witness :
  App.reachable App.init ∧
  ∃ s', App.processFrame App.init [] 0
          (TrackingParams.mk 40 50 20000 10 3 true true true) 30 true = Ok s'.
Proof.
  split; [apply App.reach_init|].
  destruct (frame_counts_blobs App.init [] 0
              (TrackingParams.mk 40 50 20000 10 3 true true true) 30 true
              App.reach_init) as (s' & Hs' & _).
  by exists s'.
Defined.

(** The series of samples never holds more than 101 entries. *)
Theorem time_series_capped s :
  App.reachable s → (length (App.timeSeries s) ≤ 101)%nat.
Proof. by intros (_ & _ & _ & _ & ?)%app_reachable. Qed.

Lemma time_series_capped_witness :
  App.reachable (App.handleFileUpload App.init) ∧
  (length (App.timeSeries (App.handleFileUpload App.init)) ≤ 101)%nat.
Proof.
  assert (App.reachable (App.handleFileUpload App.init)) as Hreach
    by apply App.reach_upload, App.reach_init.
  split; [exact Hreach|]. exact (time_series_capped _ Hreach).
Defined.

(** ** The positions handed to the tracker *)

(** The box of a blob of a 480 x 270 engine whose features have their patch
    in the frame. *)
Lemma blob_box_in_frame e b :
  CVEngine.width e = 480%nat → CVEngine.height e = 270%nat →
  Forall (λ f, Matcher.in_frame e (FeaturePoint.x f, FeaturePoint.y f))
         (CVEngine.activeFeatures e) →
  b ∈ CVEngine.clusterFeatures e →
  (-7 ≤ RawBlob.x b ≤ 466 ∧ 20 ≤ RawBlob.w b ≤ 493 ∧
   12 ≤ 4 * RawBlob.x b + 2 * RawBlob.w b ≤ 1904) ∧
  (-7 ≤ RawBlob.y b ≤ 256 ∧ 20 ≤ RawBlob.h b ≤ 283 ∧
   12 ≤ 4 * RawBlob.y b + 2 * RawBlob.h b ≤ 1064).
Proof.
  intros Hw Hh Hin Hb.
  rewrite clusterFeatures_omap in Hb.
  set (moving := List.filter CVEngine.is_moving (CVEngine.activeFeatures e)) in *.
  apply list_elem_of_omap in Hb as (g & Hg & Hb).
  pose proof (proj1 (Forall_forall _ _)
                (seed_groups_of_seed moving moving ∅ (reflexivity _)) g Hg)
    as (seed & rest & -> & Hseed & Hrest).
  assert (∀ m, m ∈ seed :: rest →
            3 ≤ FeaturePoint.x m < 477 ∧ 3 ≤ FeaturePoint.y m < 267) as Hframe.
  { intros m Hm. assert (m ∈ moving) as Hmov.
    { apply elem_of_cons in Hm as [->|Hm]; [done|].
      by apply (proj1 (Forall_forall _ _) Hrest) in Hm as (? & _). }
    subst moving. rewrite list_elem_of_In in Hmov.
    apply filter_In in Hmov as [Hact%list_elem_of_In _].
    apply (proj1 (Forall_forall _ _) Hin) in Hact as [Hx Hy].
    unfold CVEngine.W, CVEngine.H in Hx, Hy. rewrite Hw in Hx. rewrite Hh in Hy.
    rewrite halfP_eq in Hx, Hy. simpl in Hx, Hy. lia. }
  destruct (group_blob_box _ b Hb)
    as (_ & _ & Hbox & (x0 & Hx0 & Ex0) & (x1 & Hx1 & Ex1)
        & (y0 & Hy0 & Ey0) & (y1 & Hy1 & Ey1)).
  pose proof (Hbox seed (list_elem_of_here _ _)).
  pose proof (Hframe x0 Hx0). pose proof (Hframe x1 Hx1).
  pose proof (Hframe y0 Hy0). pose proof (Hframe y1 Hy1). lia.
Qed.

(** On these boxes the double arithmetic of [(b.x + b.w / 2) * scaleX] is
    exact: checked for every pair of a corner and an extent. *)
Lemma scaled_centre_x (x w : Z) :
  -7 ≤ x ≤ 466 → 20 ≤ w ≤ 493 →
  ((App.double x + App.double w / 2) * App.scaleX)%float
    = App.double (4 * x + 2 * w).
Proof.
  assert (forallb (λ x,
            forallb (λ w,
              PrimFloat.Leibniz.eqb
                ((App.double x + App.double w / 2) * App.scaleX)%float
                (App.double (4 * x + 2 * w)))
              (zrange 20 493))
            (zrange (-7) 466) = true) as Hall by (vm_compute; reflexivity).
  intros Hx Hw. rewrite forallb_forall in Hall.
  specialize (Hall x (proj1 (list_elem_of_In _ _) (proj2 (elem_of_zrange _ _ _) Hx))).
  rewrite forallb_forall in Hall.
  specialize (Hall w (proj1 (list_elem_of_In _ _) (proj2 (elem_of_zrange _ _ _) Hw))).
  by apply FloatAxioms.Leibniz.eqb_spec.
Qed.

Lemma scaled_centre_y (y h : Z) :
  -7 ≤ y ≤ 256 → 20 ≤ h ≤ 283 →
  ((App.double y + App.double h / 2) * App.scaleY)%float
    = App.double (4 * y + 2 * h).
Proof.
  assert (forallb (λ y,
            forallb (λ h,
              PrimFloat.Leibniz.eqb
                ((App.double y + App.double h / 2) * App.scaleY)%float
                (App.double (4 * y + 2 * h)))
              (zrange 20 283))
            (zrange (-7) 256) = true) as Hall by (vm_compute; reflexivity).
  intros Hy Hh. rewrite forallb_forall in Hall.
  specialize (Hall y (proj1 (list_elem_of_In _ _) (proj2 (elem_of_zrange _ _ _) Hy))).
  rewrite forallb_forall in Hall.
  specialize (Hall h (proj1 (list_elem_of_In _ _) (proj2 (elem_of_zrange _ _ _) Hh))).
  by apply FloatAxioms.Leibniz.eqb_spec.
Qed.

(** The position handed to the tracker for a blob of a 480 x 270 engine
    whose features have their patch in the frame, as every state of the
    application's engine is: the doubles computed by
    [(b.x + b.w / 2) * scaleX] and [(b.y + b.h / 2) * scaleY] are the
    integers [4 * b.x + 2 * b.w] and [4 * b.y + 2 * b.h], four times the
    centre of the box, without rounding, and the position lies inside the
    1920 x 1080 display frame. *)
Theorem blob_centre_on_display e b :
  CVEngine.width e = 480%nat → CVEngine.height e = 270%nat →
  Forall (λ f, Matcher.in_frame e (FeaturePoint.x f, FeaturePoint.y f))
         (CVEngine.activeFeatures e) →
  b ∈ CVEngine.clusterFeatures e →
  App.currentBlob b
    = BlobPoint.mk (App.double (4 * RawBlob.x b + 2 * RawBlob.w b))
                   (App.double (4 * RawBlob.y b + 2 * RawBlob.h b)) ∧
  0 < 4 * RawBlob.x b + 2 * RawBlob.w b < 1920 ∧
  0 < 4 * RawBlob.y b + 2 * RawBlob.h b < 1080.
Proof.
  intros Hw Hh Hin Hb.
  destruct (blob_box_in_frame e b Hw Hh Hin Hb)
    as [(Hx & Hbw & Hcx) (Hy & Hbh & Hcy)].
  split; [|lia]. unfold App.currentBlob.
  by rewrite scaled_centre_x, scaled_centre_y.
Qed.

Lemma blob_centre_on_display_witness :
  let e := CVEngine.mk 480 270 None
             [FeaturePoint.mk 100 100 2 1 300 0 4;
              FeaturePoint.mk 130 110 2 1 280 1 4;
              FeaturePoint.mk 115 140 3 1 320 2 4] 3 in
  let b := RawBlob.mk 90 90 50 60 1200 3 in
  CVEngine.clusterFeatures e = [b] ∧
  Forall (λ f, Matcher.in_frame e (FeaturePoint.x f, FeaturePoint.y f))
         (CVEngine.activeFeatures e) ∧
  App.currentBlob b = BlobPoint.mk 460 480 ∧
  App.currentBlob b = BlobPoint.mk (App.double 460) (App.double 480).
Proof.
  intros e b.
  assert (CVEngine.clusterFeatures e = [b]) as Hb by (vm_compute; reflexivity).
  assert (Forall (λ f, Matcher.in_frame e (FeaturePoint.x f, FeaturePoint.y f))
                 (CVEngine.activeFeatures e)) as Hin.
  { apply (bool_decide_unpack _). vm_compute. exact I. }
  split; [exact Hb|]. split; [exact Hin|]. split; [vm_compute; reflexivity|].
  refine (proj1 (blob_centre_on_display e b eq_refl eq_refl Hin _)).
  rewrite Hb. left.
Defined.

(** The blobs of every frame of the application are such blobs. *)
Lemma app_blob_centres s frameData sensitivity :
  App.reachable s →
  Forall (λ b,
            App.currentBlob b
              = BlobPoint.mk (App.double (4 * RawBlob.x b + 2 * RawBlob.w b))
                             (App.double (4 * RawBlob.y b + 2 * RawBlob.h b)) ∧
            0 < 4 * RawBlob.x b + 2 * RawBlob.w b < 1920 ∧
            0 < 4 * RawBlob.y b + 2 * RawBlob.h b < 1080)
         (CVEngine.blobs
            (CVEngine.process (App.cvEngine s) frameData sensitivity).2).
Proof.
  intros (He & _ & Hw & Hh & _)%app_reachable.
  apply Forall_forall. intros b Hb%process_blobs.
  set (e' := (CVEngine.process (App.cvEngine s) frameData sensitivity).1) in *.
  pose proof (engine_well_formed e'
                (CVEngine.reach_process _ frameData sensitivity He))
    as (_ & Hin & _).
  destruct (process_dims (App.cvEngine s) frameData sensitivity) as [Hw' Hh'].
  fold e' in Hw', Hh'. rewrite Hw in Hw'. rewrite Hh in Hh'.
  destruct (blob_box_in_frame e' b Hw' Hh' Hin Hb)
    as [(Hx & Hbw & Hcx) (Hy & Hbh & Hcy)].
  split; [|lia]. unfold App.currentBlob.
  by rewrite scaled_centre_x, scaled_centre_y.
Qed.

(** The first frame after a file is chosen starts a fresh analysis: it
    reports no cluster and no trajectory, whatever was tracked before. *)
Theorem frame_after_upload s frameData currentTime params sensitivity sampled :
  ∃ s',
    App.processFrame (App.handleFileUpload s) frameData currentTime params
                     sensitivity sampled = Ok s' ∧
    App.trajectories s' = [] ∧ App.tracker s' = BlobTracker.new ∧
    App.blobsCount (App.stats s') = 0%nat ∧
    App.timeSeries s' = (if sampled then [App.mkSample currentTime 0] else []) ∧
    Forall (λ f, FeaturePoint.age f = 0%nat ∧ FeaturePoint.vx f = 0 ∧
                 FeaturePoint.vy f = 0) (App.currentFeatures s').
Proof.
  unfold App.processFrame, App.handleFileUpload. cbn zeta.
  cbn [App.cvEngine App.tracker App.stats App.timeSeries].
  rewrite process_first by done. cbn zeta. cbn [fst snd CVEngine.blobs
    CVEngine.features fmap list_fmap].
  change (BlobTracker.update (BlobTracker.reset (App.tracker s)) [] currentTime params)
    with (Ok (BlobTracker.new, @nil Trajectory.t)).
  cbn [mbind result_bind fst snd]. eexists. split; [done|].
  cbn [App.trajectories App.tracker App.stats App.blobsCount App.timeSeries
       App.currentFeatures].
  do 3 (split; [done|]). split; [by destruct sampled|].
  destruct (detectNewFeatures_replenished
              (CVEngine.toGrayscale (CVEngine.reset (App.cvEngine s)) frameData)
              sensitivity
              (CVEngine.set_prevGray
                 (Some (CVEngine.toGrayscale (CVEngine.reset (App.cvEngine s))
                          frameData))
                 (CVEngine.reset (App.cvEngine s))))
    as (_ & _ & _ & _ & fresh & -> & Hfresh).
  cbn [CVEngine.activeFeatures CVEngine.set_prevGray CVEngine.reset app].
  eapply Forall_impl; [exact Hfresh|]. by intros f (_ & _ & ? & ? & ?).
Qed.

End AppFacts.
